(** * freud.plot: a shallow embedding of [freud/plot.py]

    The module is glue over a plotting library.  The embedding keeps the
    objects the Python code manipulates (figures, axes, array buffers,
    in-memory byte buffers) in an explicit store, and every helper of
    [plot.py] is a computation in a state-and-exception monad over that
    store.  An axes object is represented by the ordered log of the
    drawing calls made on it.

    Numbers: float64 values are idealised as exact rationals ([Q]); the
    PMFT array, whose infinities the source handles explicitly, has
    entries in [fval]. *)

From Stdlib Require Import ZArith QArith Qminmax Qround Lqa Lia.
From Stdlib Require Import String Ascii DecimalString.
From Stdlib Require Import List Sorting.Permutation Sorting.Sorted.
From stdpp Require Import base list.
Import ListNotations.

Local Open Scope string_scope.
Local Open Scope Z_scope.

(** ** Values *)

(** Entries of a float64 array that may hold non-finite values. *)
Inductive fval :=
| Fin (q : Q)
| PosInf
| NegInf
| NaN.

(** Elements of the generic Python lists handed to [bar], [plot], [hist]. *)
Inductive pyval :=
| VInt (z : Z)
| VNum (q : Q)
| VStr (s : string).

Definition point3 : Type := Q * Q * Q.
Definition point2 : Type := Q * Q.

Definition px (p : point3) : Q := fst (fst p).
Definition py (p : point3) : Q := snd (fst p).
Definition pz (p : point3) : Q := snd p.

(** [arr[:, :2]] on an (N, 3) array. *)
Definition xy_of (p : point3) : point2 := (px p, py p).

Definition byte_string := list ascii.

(** ** Exceptions and the monad *)

Inductive exn :=
| RuntimeError (msg : string)
| ValueError (msg : string)
| AttributeError (msg : string).

Inductive outcome (A : Type) :=
| Return (a : A)
| Raise (e : exn).
Arguments Return {A} a.
Arguments Raise {A} e.

(** ** The objects of the plotting library *)

Inductive projection := Rectilinear | ThreeD.
Inductive axis := AxX | AxY | AxZ.
Inductive canvas := DefaultCanvas | AggCanvas.

(** [cm.get_cmap(name, lut)]. *)
Record Colormap := { cmap_name : option string; cmap_lut : option Q }.

(** [matplotlib.collections.PatchCollection], with the fields the source
    sets before the collection is added to the axes. *)
Record PatchCollection := {
  pc_patches : list (list point2);
  pc_edgecolors : string;
  pc_alpha : Q;
  pc_array : list Q;
  pc_cmap : option Colormap;
  pc_clim : option (Q * Q)
}.

(** The image created by [ax.imshow]. *)
Record AxesImage := {
  im_data : list (list fval);
  im_extent : option (Q * Q * Q * Q);
  im_interpolation : option string;
  im_cmap : option string;
  im_vmin : option Q;
  im_vmax : option Q;
  im_lognorm : option (Q * Q)
}.

Inductive mappable :=
| MImage (im : AxesImage)
| MCollection (pc : PatchCollection).

(** One entry per method call made on an axes object, in call order. *)
Inductive Call :=
| Plot (xs ys : list pyval) (color : option string)
       (args : list string) (kwargs : list (string * string))
| Plot3D (xs ys zs : list Q) (color : string)  (* plot(xs, ys, zs, color=color) *)
| Scatter (xs ys : list Q) (zs : option (list Q))
          (args : list string) (kwargs : list (string * string))
| Bar (x height : list pyval)
| Hist (values : list pyval)
| Legend (labels : list string)
| Imshow (im : AxesImage)
| AddCollection (pc : PatchCollection)
| SetAspect (aspect adjustable : string)
| SetTitle (t : option string)
| SetLabel (a : axis) (l : option string)
| SetLim (a : axis) (lo hi : Q)
| SetLim3d (a : axis) (lo hi : Q)
| SetTicks (a : axis) (ticks : list Z)
| SetXticks (x : list pyval)
| SetXticklabels (x : list pyval)
| SetMajorLocator (a : axis) (nbins : Z) (symmetric : bool) (min_n_ticks : Z)
| SetMajorFormatter (a : axis) (fmt : string)
| AppendAxes (position size pad : string) (cax : nat)
| ColorbarOf (m : mappable)
| ColorbarLabel (l : string)
| ColorbarTicks (ticks : list Q).

Record Axes := {
  ax_figure : nat;
  ax_projection : projection;
  ax_calls : list Call
}.

Record Figure := {
  fig_axes : list nat;
  fig_canvas : canvas
}.

Inductive io_event :=
| FileWrite (path : string) (data : byte_string)
| NetSend (data : byte_string).

(** The store.  Objects are referred to by their index in the list that
    holds them; a new object is appended, so that references stay valid.
    [entropy] is what the operating system hands to a freshly created
    [np.random.RandomState()]. *)
Record World := {
  figures : list Figure;
  axes : list Axes;
  arrays : list (list (list fval));
  buffers : list byte_string;
  warnings : list string;
  io_log : list io_event;
  entropy : list nat
}.

Definition M (A : Type) : Type := World -> outcome A * World.

Definition ret {A} (a : A) : M A := fun w => (Return a, w).
Definition raise {A} (e : exn) : M A := fun w => (Raise e, w).
Definition bind {A B} (c : M A) (k : A -> M B) : M B :=
  fun w => match c w with
           | (Return a, w') => k a w'
           | (Raise e, w') => (Raise e, w')
           end.

Declare Scope py_scope.
Delimit Scope py_scope with py.
Notation "x <- c ;; k" := (bind c (fun x => k))
  (at level 100, c at next level, right associativity) : py_scope.
Notation "c ;; k" := (bind c (fun _ => k))
  (at level 100, right associativity) : py_scope.
Local Open Scope py_scope.

Definition get_world : M World := fun w => (Return w, w).
Definition modify (f : World -> World) : M unit := fun w => (Return tt, f w).

Definition set_figures (fs : list Figure) (w : World) : World :=
  {| figures := fs; axes := axes w; arrays := arrays w; buffers := buffers w;
     warnings := warnings w; io_log := io_log w; entropy := entropy w |}.
Definition set_axes (xs : list Axes) (w : World) : World :=
  {| figures := figures w; axes := xs; arrays := arrays w; buffers := buffers w;
     warnings := warnings w; io_log := io_log w; entropy := entropy w |}.
Definition set_arrays (xs : list (list (list fval))) (w : World) : World :=
  {| figures := figures w; axes := axes w; arrays := xs; buffers := buffers w;
     warnings := warnings w; io_log := io_log w; entropy := entropy w |}.
Definition set_buffers (bs : list byte_string) (w : World) : World :=
  {| figures := figures w; axes := axes w; arrays := arrays w; buffers := bs;
     warnings := warnings w; io_log := io_log w; entropy := entropy w |}.
Definition set_warnings (ws : list string) (w : World) : World :=
  {| figures := figures w; axes := axes w; arrays := arrays w; buffers := buffers w;
     warnings := ws; io_log := io_log w; entropy := entropy w |}.
Definition set_io_log (l : list io_event) (w : World) : World :=
  {| figures := figures w; axes := axes w; arrays := arrays w; buffers := buffers w;
     warnings := warnings w; io_log := l; entropy := entropy w |}.
Definition set_entropy (e : list nat) (w : World) : World :=
  {| figures := figures w; axes := axes w; arrays := arrays w; buffers := buffers w;
     warnings := warnings w; io_log := io_log w; entropy := e |}.

(** ** Library primitives *)

(** [plt.figure()] *)
Definition plt_figure : M nat := fun w =>
  (Return (length (figures w)),
   set_figures (figures w ++ [{| fig_axes := []; fig_canvas := DefaultCanvas |}]) w).

Definition add_axes_to_figure (fig ax : nat) (f : Figure) : Figure :=
  {| fig_axes := fig_axes f ++ [ax]; fig_canvas := fig_canvas f |}.

(** A new axes object in figure [fig]: [fig.subplots()],
    [fig.add_subplot(111, projection="3d")], [divider.append_axes(...)]. *)
Definition new_axes (fig : nat) (p : projection) : M nat := fun w =>
  let id := length (axes w) in
  (Return id,
   set_figures (alter (add_axes_to_figure fig id) fig (figures w))
     (set_axes (axes w ++ [{| ax_figure := fig; ax_projection := p;
                              ax_calls := [] |}]) w)).

Definition fig_subplots (fig : nat) : M nat := new_axes fig Rectilinear.
Definition fig_add_subplot_3d (fig : nat) : M nat := new_axes fig ThreeD.

Definition log_call (c : Call) (a : Axes) : Axes :=
  {| ax_figure := ax_figure a; ax_projection := ax_projection a;
     ax_calls := ax_calls a ++ [c] |}.

(** A method call on the axes object [ax]. *)
Definition ax_call (ax : nat) (c : Call) : M unit :=
  modify (fun w => set_axes (alter (log_call c) ax (axes w)) w).

(** A method that only a 3D axes object has: on any other axes object the
    attribute lookup fails. *)
Definition ax_call3d (ax : nat) (what : string) (c : Call) : M unit := fun w =>
  match axes w !! ax with
  | Some {| ax_projection := Rectilinear |} => (Raise (AttributeError what), w)
  | _ => ax_call ax c w
  end.

(** [make_axes_locatable(ax).append_axes("right", size="7%", pad="10%")] *)
Definition append_axes (ax : nat) (position size pad : string) : M nat :=
  w <- get_world ;;
  let fig := match axes w !! ax with Some a => ax_figure a | None => O end in
  cax <- new_axes fig Rectilinear ;;
  ax_call ax (AppendAxes position size pad cax) ;;
  ret cax.

(** [warnings.warn(msg, UserWarning, stacklevel=2)] *)
Definition warn (msg : string) : M unit :=
  modify (fun w => set_warnings (warnings w ++ [msg]) w).

(** Reductions of numpy raise on an empty array. *)
Definition zero_size (op : string) : exn :=
  ValueError ("zero-size array to reduction operation " ++ op ++
              " which has no identity").

Definition min_list (x : Q) (l : list Q) : Q := fold_left Qmin l x.
Definition max_list (x : Q) (l : list Q) : Q := fold_left Qmax l x.

Definition np_min (l : list Q) : M Q :=
  match l with
  | [] => raise (zero_size "minimum")
  | x :: l' => ret (min_list x l')
  end.

Definition np_max (l : list Q) : M Q :=
  match l with
  | [] => raise (zero_size "maximum")
  | x :: l' => ret (max_list x l')
  end.

(** [np.ptp]: maximum minus minimum. *)
Definition np_ptp (l : list Q) : M Q :=
  match l with
  | [] => raise (zero_size "maximum")
  | x :: l' => ret (max_list x l' - min_list x l')%Q
  end.

(** ** Domain objects of freud, as far as [plot.py] reads them *)

(** [freud.box.Box].  [make_absolute] is the box's own method; the
    plotting code only calls it. *)
Record Box := {
  is2D : bool;
  Lx : Q;
  Ly : Q;
  make_absolute : point3 -> point3
}.

(** The result of [freud.locality.NeighborQuery.from_system]. *)
Record System := {
  sys_box : Box;
  sys_points : list point3
}.

(** [freud.pmft.PMFTXY2D]: [pmft.pmft] is a reference to an array in the
    store, [pmft.bounds] the pair of axis bounds. *)
Record PMFT := {
  pmft_ref : nat;
  pmft_bounds : (Q * Q) * (Q * Q)
}.

(** [freud.locality.Voronoi] *)
Record Voronoi := {
  polytopes : list (list point3);
  volumes : list Q
}.

(** ** Keyword arguments *)

Definition kwargs_t : Type := list (string * string).

Fixpoint kwargs_get (k : string) (kw : kwargs_t) : option string :=
  match kw with
  | [] => None
  | (k', v) :: kw' => if String.eqb k k' then Some v else kwargs_get k kw'
  end.

Definition kwargs_del (k : string) (kw : kwargs_t) : kwargs_t :=
  List.filter (fun e => negb (String.eqb k (fst e))) kw.

(** [kwargs.pop(k, default)]: the value and the remaining dictionary. *)
Definition kwargs_pop (k default : string) (kw : kwargs_t) : string * kwargs_t :=
  (match kwargs_get k kw with Some v => v | None => default end,
   kwargs_del k kw).

Definition qpoint (a b c : Z) : point3 := (inject_Z a, inject_Z b, inject_Z c).

(** [arr[idx]] with a list of row indices. *)
Definition pick (idx : list nat) (cs : list point3) : list point3 :=
  List.map (fun i => nth i cs (qpoint 0 0 0)) idx.

Definition vnums (l : list Q) : list pyval := List.map VNum l.

Section Plot.

(** What the library renders for a figure in a given format, from the
    figure's canvas and the contents of its axes. *)
Variable render : string -> canvas -> list Axes -> byte_string.

(** What [ax.get_xlim3d()], [ax.get_ylim3d()], [ax.get_zlim3d()] report
    for an axes object. *)
Variable get_lim3d : Axes -> axis -> Q * Q.

(** [io.BytesIO()] *)
Definition new_bytesio : M nat := fun w =>
  (Return (length (buffers w)), set_buffers (buffers w ++ [[]]) w).

(** [f.getvalue()] *)
Definition getvalue (f : nat) : M byte_string := fun w =>
  (Return (default [] (buffers w !! f)), w).

(** [ax.figure] *)
Definition ax_get_figure (ax : nat) : M nat := fun w =>
  (Return (match axes w !! ax with Some a => ax_figure a | None => O end), w).

(** [FigureCanvasAgg(fig)] attaches an Agg canvas to the figure. *)
Definition set_canvas (c : canvas) (f : Figure) : Figure :=
  {| fig_axes := fig_axes f; fig_canvas := c |}.

Definition FigureCanvasAgg (fig : nat) : M unit :=
  modify (fun w => set_figures (alter (set_canvas AggCanvas) fig (figures w)) w).

(** The axes objects of a figure, in the order they were added. *)
Definition figure_axes (w : World) (fig : nat) : list Axes :=
  match figures w !! fig with
  | Some f => omap (fun a => axes w !! a) (fig_axes f)
  | None => []
  end.

Definition figure_canvas (w : World) (fig : nat) : canvas :=
  match figures w !! fig with
  | Some f => fig_canvas f
  | None => DefaultCanvas
  end.

(** [fig.savefig(target, format=fmt)]: a path names a file to write, a
    buffer reference is written in memory. *)
Definition savefig (fig : nat) (target : string + nat) (fmt : string) : M unit :=
  fun w =>
    let data := render fmt (figure_canvas w fig) (figure_axes w fig) in
    match target with
    | inl path => (Return tt, set_io_log (io_log w ++ [FileWrite path data]) w)
    | inr f => (Return tt, set_buffers (alter (fun old : byte_string => (old ++ data)%list) f (buffers w)) w)
    end.

Definition clear_axes (a : Axes) : Axes :=
  {| ax_figure := ax_figure a; ax_projection := ax_projection a; ax_calls := [] |}.

Definition clear_figure (f : Figure) : Figure :=
  {| fig_axes := []; fig_canvas := fig_canvas f |}.

(** [fig.clf()]: every axes of the figure is cleared and removed. *)
Definition fig_clf (fig : nat) : M unit := fun w =>
  let members := match figures w !! fig with Some f => fig_axes f | None => [] end in
  (Return tt,
   set_figures (alter clear_figure fig (figures w))
     (set_axes (fold_right (fun a xs => alter clear_axes a xs) (axes w) members) w)).

(** *** [_ax_to_bytes] *)
Definition _ax_to_bytes (ax : nat) : M byte_string :=
  f <- new_bytesio ;;
  fig <- ax_get_figure ax ;;
  FigureCanvasAgg fig ;;
  savefig fig (inr f) "png" ;;
  fig_clf fig ;;
  getvalue f.

Definition limits_t : Type := (Q * Q) * (Q * Q) * (Q * Q).

Definition lim_x (l : limits_t) : Q * Q := fst (fst l).
Definition lim_y (l : limits_t) : Q * Q := snd (fst l).
Definition lim_z (l : limits_t) : Q * Q := snd l.

(** [np.mean(row)] of a row [lo, hi]. *)
Definition row_mean (r : Q * Q) : Q := ((fst r + snd r) / 2)%Q.
(** [row[1] - row[0]] *)
Definition row_width (r : Q * Q) : Q := (snd r - fst r)%Q.

(** *** [_set_3d_axes_equal] *)
Definition _set_3d_axes_equal (ax : nat) (limits : option limits_t) : M nat :=
  limits <- match limits with
            | None => fun w =>
                match axes w !! ax with
                | Some a =>
                    match ax_projection a with
                    | ThreeD =>
                        (Return (get_lim3d a AxX, get_lim3d a AxY, get_lim3d a AxZ), w)
                    | Rectilinear => (Raise (AttributeError "get_xlim3d"), w)
                    end
                | None => (Raise (AttributeError "get_xlim3d"), w)
                end
            | Some l => ret l
            end ;;
  let origin := (row_mean (lim_x limits), row_mean (lim_y limits),
                 row_mean (lim_z limits)) in
  let radius := ((1 # 2) * Qmax (Qmax (row_width (lim_x limits))
                                      (row_width (lim_y limits)))
                                (row_width (lim_z limits)))%Q in
  ax_call3d ax "set_xlim3d" (SetLim3d AxX (px origin - radius) (px origin + radius))%Q ;;
  ax_call3d ax "set_ylim3d" (SetLim3d AxY (py origin - radius) (py origin + radius))%Q ;;
  ax_call3d ax "set_zlim3d" (SetLim3d AxZ (pz origin - radius) (pz origin + radius))%Q ;;
  ret ax.

(** [ax] when given, otherwise a new figure with one axes object whose
    projection follows the dimensionality of the box. *)
Definition ax_or_new_for (b : Box) (ax : option nat) : M nat :=
  match ax with
  | Some a => ret a
  | None =>
      fig <- plt_figure ;;
      if is2D b then fig_subplots fig else fig_add_subplot_3d fig
  end.

(** [ax] when given, otherwise a new figure with one 2D axes object. *)
Definition ax_or_new (ax : option nat) : M nat :=
  match ax with
  | Some a => ret a
  | None => fig <- plt_figure ;; fig_subplots fig
  end.

Definition shift (image : Z * Z * Z) (c : Z * Z * Z) : point3 :=
  let '(i0, i1, i2) := image in
  let '(c0, c1, c2) := c in
  qpoint (c0 + i0) (c1 + i1) (c2 + i2).

(** The closed outline of the unit square, used by [box_plot] and
    [voronoi_plot]. *)
Definition square_corners : list (Z * Z * Z) :=
  [(0, 0, 0); (0, 1, 0); (1, 1, 0); (1, 0, 0); (0, 0, 0)].

Definition cube_corners : list (Z * Z * Z) :=
  [(0, 0, 0); (0, 0, 1); (0, 1, 0); (0, 1, 1);
   (1, 0, 0); (1, 0, 1); (1, 1, 0); (1, 1, 1)].

Definition cube_paths : list (list nat) :=
  [[0; 1; 3; 2; 0]; [4; 5; 7; 6; 4]; [0; 4]; [1; 5]; [2; 6]; [3; 7]]%nat.

(** The loop over [paths] in the 3D branch of [box_plot]; the keyword
    dictionary is popped in every iteration. *)
Fixpoint plot_paths (ax : nat) (paths : list (list point3)) (kwargs : kwargs_t)
  : M unit :=
  match paths with
  | [] => ret tt
  | path :: rest =>
      let '(color, kwargs) := kwargs_pop "color" "k" kwargs in
      ax_call ax
        (Plot3D (List.map px path) (List.map py path) (List.map pz path) color) ;;
      plot_paths ax rest kwargs
  end.

(** *** [box_plot] *)
Definition box_plot (box : Box) (title : option string) (ax : option nat)
    (image : option (Z * Z * Z)) (args : list string) (kwargs : kwargs_t)
  : M nat :=
  let image := match image with None => (0, 0, 0) | Some i => i end in
  ax <- ax_or_new_for box ax ;;
  (if is2D box then
     let corners := List.map (shift image) square_corners in
     let corners := List.map xy_of (List.map (make_absolute box) corners) in
     let '(color, kwargs) := kwargs_pop "color" "k" kwargs in
     ax_call ax (Plot (vnums (List.map fst corners)) (vnums (List.map snd corners))
                   (Some color) args kwargs) ;;
     ax_call ax (SetAspect "equal" "datalim") ;;
     ax_call ax (SetLabel AxX (Some "$x$")) ;;
     ax_call ax (SetLabel AxY (Some "$y$"))
   else
     let corners := List.map (shift image) cube_corners in
     let corners := List.map (make_absolute box) corners in
     let paths := List.map (fun idx => pick idx corners) cube_paths in
     plot_paths ax paths kwargs ;;
     ax_call ax (SetLabel AxX (Some "$x$")) ;;
     ax_call ax (SetLabel AxY (Some "$y$")) ;;
     ax_call3d ax "set_zlabel" (SetLabel AxZ (Some "$z$")) ;;
     let c0 := nth 0 corners (qpoint 0 0 0) in
     let c7 := nth 7 corners (qpoint 0 0 0) in
     let limits := ((px c0, px c7), (py c0, py c7), (pz c0, pz c7)) in
     _set_3d_axes_equal ax (Some limits) ;;
     ret tt) ;;
  ret ax.

(** [ax.scatter(...)]: the handle of the new collection is the axes it
    lives in and its position in the axes' log. *)
Definition ax_scatter (ax : nat) (xs ys : list Q) (zs : option (list Q))
    (args : list string) (kwargs : kwargs_t) : M (nat * nat) :=
  w <- get_world ;;
  let pos := match axes w !! ax with Some a => length (ax_calls a) | None => O end in
  ax_call ax (Scatter xs ys zs args kwargs) ;;
  ret (ax, pos).

(** [np.min(points, axis=0)] and [np.max(points, axis=0)] *)
Definition columns_min (ps : list point3) : M point3 :=
  x <- np_min (List.map px ps) ;;
  y <- np_min (List.map py ps) ;;
  z <- np_min (List.map pz ps) ;;
  ret (x, y, z).

Definition columns_max (ps : list point3) : M point3 :=
  x <- np_max (List.map px ps) ;;
  y <- np_max (List.map py ps) ;;
  z <- np_max (List.map pz ps) ;;
  ret (x, y, z).

(** *** [system_plot] *)
Definition system_plot (system : System) (title : option string)
    (ax : option nat) (args : list string) (kwargs : kwargs_t)
  : M (nat * (nat * nat)) :=
  ax <- ax_or_new_for (sys_box system) ax ;;
  sc <- (if is2D (sys_box system) then
           box_plot (sys_box system) None (Some ax) None [] [] ;;
           sc <- ax_scatter ax (List.map px (sys_points system))
                   (List.map py (sys_points system)) None args kwargs ;;
           ax_call ax (SetAspect "equal" "datalim") ;;
           ret sc
         else
           box_plot (sys_box system) None (Some ax) None [] [] ;;
           sc <- ax_scatter ax (List.map px (sys_points system))
                   (List.map py (sys_points system))
                   (Some (List.map pz (sys_points system))) args kwargs ;;
           let box_min := make_absolute (sys_box system) (qpoint 0 0 0) in
           let box_max := make_absolute (sys_box system) (qpoint 1 1 1) in
           points_min <- columns_min (sys_points system) ;;
           points_max <- columns_max (sys_points system) ;;
           let limits :=
             ((Qmin (px box_min) (px points_min), Qmax (px box_max) (px points_max)),
              (Qmin (py box_min) (py points_min), Qmax (py box_max) (py points_max)),
              (Qmin (pz box_min) (pz points_min), Qmax (pz box_max) (pz points_max))) in
           _set_3d_axes_equal ax (Some limits) ;;
           ret sc) ;;
  ret (ax, sc).

End Plot.

(** ** Helpers on lists and numbers *)

(** [int(x)] of a float: truncation towards zero. *)
Definition int_of (q : Q) : Z := Z.quot (Qnum q) (Zpos (Qden q)).

(** [range(a, b)] *)
Definition zrange (a b : Z) : list Z :=
  List.map (fun i => a + Z.of_nat i) (seq 0 (Z.to_nat (b - a))).

(** [np.arange(lo, hi)] with the default step 1. *)
Definition arange (lo hi : Q) : list Q :=
  List.map (fun i => (lo + inject_Z (Z.of_nat i))%Q)
           (seq 0 (Z.to_nat (Qceiling (hi - lo)))).

(** [np.flipud]: the rows in reverse order. *)
Definition flipud {A} (m : list (list A)) : list (list A) := rev m.

(** [arr.T] of a rectangular 2D array. *)
Definition transpose (m : list (list Q)) : list (list Q) :=
  List.map (fun j => List.map (fun row => nth j row 0%Q) m)
           (seq 0 (length (hd [] m))).

Definition fins (m : list (list Q)) : list (list fval) := List.map (List.map Fin) m.

(** [np.isinf] *)
Definition isinf (v : fval) : bool :=
  match v with PosInf | NegInf => true | _ => false end.

(** The effect of [arr[np.isinf(arr)] = np.nan] on one entry. *)
Definition nan_if_inf (v : fval) : fval := if isinf v then NaN else v.

(** [np.clip(x, lo, hi)], that is [minimum(maximum(x, lo), hi)]. *)
Definition clip (lo hi x : Q) : Q := Qmin (Qmax x lo) hi.

Definition nat_str (n : nat) : string := NilEmpty.string_of_uint (Nat.to_uint n).

(** Insertion into a list sorted by [key], in front of the entries whose
    key is not smaller. *)
Fixpoint insert_by {A} (key : A -> Z) (x : A) (l : list A) : list A :=
  match l with
  | [] => [x]
  | y :: l' => if key x <=? key y then x :: y :: l' else y :: insert_by key x l'
  end.

(** [sorted(l, key=key)]: ascending in [key] and stable (entries with equal
    keys keep their order). *)
Fixpoint sorted {A} (key : A -> Z) (l : list A) : list A :=
  match l with
  | [] => []
  | x :: l' => insert_by key x (sorted key l')
  end.

(** [zip] *)
Fixpoint zip {A B} (l : list A) (l' : list B) : list (A * B) :=
  match l, l' with
  | x :: t, y :: t' => (x, y) :: zip t t'
  | _, _ => []
  end.

(** [ax.imshow(...)]: the image is recorded on the axes and returned. *)
Definition ax_imshow (ax : nat) (im : AxesImage) : M AxesImage :=
  ax_call ax (Imshow im) ;; ret im.

(** [cb = Colorbar(cax, mappable); cb.set_label(label)] *)
Definition colorbar (cax : nat) (m : mappable) (label : string) : M unit :=
  ax_call cax (ColorbarOf m) ;;
  ax_call cax (ColorbarLabel label).

(** *** [bar_plot] *)
Definition bar_plot (x height : list pyval) (title xlabel ylabel : option string)
    (ax : option nat) : M nat :=
  ax <- ax_or_new ax ;;
  ax_call ax (Bar x height) ;;
  ax_call ax (SetTitle title) ;;
  ax_call ax (SetLabel AxX xlabel) ;;
  ax_call ax (SetLabel AxY ylabel) ;;
  ax_call ax (SetXticks x) ;;
  ax_call ax (SetXticklabels x) ;;
  ret ax.

Section Clusters.

(** Cluster keys are arbitrary objects; [str] is Python's [str] on them. *)
Context {K : Type}.
Variable str : K -> string.

Definition count_sorted (keys : list K) (freqs : list Z) : list (Z * K) :=
  sorted (fun x => - fst x)
         (List.map (fun kf => (snd kf, fst kf)) (zip keys freqs)).

(** *** [clusters_plot]
    [num_clusters_to_plot] is documented as an unsigned int. *)
Definition clusters_plot (keys : list K) (freqs : list Z)
    (num_clusters_to_plot : nat) (ax : option nat) : M nat :=
  let count_sorted := count_sorted keys freqs in
  let sorted_freqs := List.map fst (firstn num_clusters_to_plot count_sorted) in
  let sorted_keys :=
    List.map (fun i => str (snd i)) (firstn num_clusters_to_plot count_sorted) in
  bar_plot (List.map VStr sorted_keys) (List.map VInt sorted_freqs)
    (Some "Cluster Frequency")
    (Some ("Keys of " ++ nat_str (length sorted_freqs) ++
           " largest clusters (total clusters: " ++ nat_str (length freqs) ++ ")"))
    (Some "Number of particles")
    ax.

End Clusters.

(** *** [line_plot] *)
Definition line_plot (x y : list pyval) (title xlabel ylabel : option string)
    (ax : option nat) : M nat :=
  ax <- ax_or_new ax ;;
  ax_call ax (Plot x y None [] []) ;;
  ax_call ax (SetTitle title) ;;
  ax_call ax (SetLabel AxX xlabel) ;;
  ax_call ax (SetLabel AxY ylabel) ;;
  ret ax.

(** *** [histogram_plot] *)
Definition histogram_plot (values : list pyval) (title xlabel ylabel : option string)
    (ax : option nat) (legend_labels : option (list string)) : M nat :=
  ax <- ax_or_new ax ;;
  ax_call ax (Hist values) ;;
  ax_call ax (SetTitle title) ;;
  ax_call ax (SetLabel AxX xlabel) ;;
  ax_call ax (SetLabel AxY ylabel) ;;
  match legend_labels with
  | Some labels => ax_call ax (Legend labels)
  | None => ret tt
  end ;;
  ret ax.

(** [np.copy(arr)]: a new array object with the same contents. *)
Definition np_copy (ref : nat) : M nat := fun w =>
  (Return (length (arrays w)),
   set_arrays (arrays w ++ [default [] (arrays w !! ref)]) w).

(** [arr[np.isinf(arr)] = np.nan], in place. *)
Definition assign_nan_where_inf (ref : nat) : M unit :=
  modify (fun w =>
    set_arrays (alter (List.map (List.map nan_if_inf)) ref (arrays w)) w).

(** Reading the current contents of an array object. *)
Definition read_array (ref : nat) : M (list (list fval)) := fun w =>
  (Return (default [] (arrays w !! ref)), w).

(** *** [pmft_plot] *)
Definition pmft_plot (pmft : PMFT) (ax : option nat) (cmap : string) : M nat :=
  ax <- ax_or_new ax ;;
  pmft_arr <- np_copy (pmft_ref pmft) ;;
  assign_nan_where_inf pmft_arr ;;
  let '(xlims, ylims) := pmft_bounds pmft in
  ax_call ax (SetLim AxX (fst xlims) (snd xlims)) ;;
  ax_call ax (SetLim AxY (fst ylims) (snd ylims)) ;;
  ax_call ax (SetTicks AxX (zrange (int_of (fst xlims)) (int_of (snd xlims + 1)%Q))) ;;
  ax_call ax (SetTicks AxY (zrange (int_of (fst ylims)) (int_of (snd ylims + 1)%Q))) ;;
  ax_call ax (SetLabel AxX (Some "$x$")) ;;
  ax_call ax (SetLabel AxY (Some "$y$")) ;;
  ax_call ax (SetTitle (Some "PMFT")) ;;
  cax <- append_axes ax "right" "7%" "10%" ;;
  data <- read_array pmft_arr ;;
  im <- ax_imshow ax
          {| im_data := flipud data;
             im_extent := Some (fst xlims, snd xlims, fst ylims, snd ylims);
             im_interpolation := Some "nearest";
             im_cmap := Some cmap;
             im_vmin := Some (- (5 # 2))%Q;
             im_vmax := Some 3%Q;
             im_lognorm := None |} ;;
  colorbar cax (MImage im) "$k_B T$" ;;
  ret ax.

(** *** [density_plot] *)
Definition density_plot (density : list (list Q)) (box : Box) (ax : option nat)
  : M nat :=
  ax <- ax_or_new ax ;;
  let xlims := (- Lx box / 2, Lx box / 2)%Q in
  let ylims := (- Ly box / 2, Ly box / 2)%Q in
  ax_call ax (SetTitle (Some "Gaussian Density")) ;;
  ax_call ax (SetLabel AxX (Some "$x$")) ;;
  ax_call ax (SetLabel AxY (Some "$y$")) ;;
  cax <- append_axes ax "right" "7%" "10%" ;;
  im <- ax_imshow ax
          {| im_data := fins (flipud (transpose density));
             im_extent := Some (fst xlims, snd xlims, fst ylims, snd ylims);
             im_interpolation := None;
             im_cmap := None;
             im_vmin := None;
             im_vmax := None;
             im_lognorm := None |} ;;
  colorbar cax (MImage im) "Density" ;;
  ret ax.

(** ** Random permutations *)

(** The shuffle of [RandomState.permutation]: for [i] from the last index
    down to 1, an index [j] in [0, i] is drawn and entries [i] and [j] are
    swapped.  The draws are taken from the generator's stream. *)
Fixpoint shuffle (i : nat) (draws : list nat) (x : list nat) : list nat * list nat :=
  match i with
  | O => (x, draws)
  | S i' =>
      let j := (hd O draws mod (S i))%nat in
      let xi := nth i x O in
      let xj := nth j x O in
      shuffle i' (tl draws) (<[j := xi]> (<[i := xj]> x))
  end.

(** [np.random.RandomState().permutation(np.arange(n))]: a generator is
    seeded from the operating system's entropy and shuffles a copy of the
    range. *)
Definition random_permutation (n : nat) : M (list nat) := fun w =>
  let '(p, rest) := shuffle (n - 1) (entropy w) (seq 0 n) in
  (Return p, set_entropy rest w).

(** [np.unique(colors).size] *)
Definition unique_size (l : list nat) : nat := length (List.nodup Nat.eq_dec l).

Definition qnat (n : nat) : Q := inject_Z (Z.of_nat n).

(** ** Voronoi diagram *)

Definition invalid_color_by (color_by : string) : string :=
  "Invalid color_by option " ++ color_by ++ ".".

(** The branch on [color_by] that computes [colors] and [num_colors]. *)
Definition voronoi_colors (voronoi : Voronoi) (npatches : nat)
    (color_by : option string) : M (list Q * option Q) :=
  match color_by with
  | Some c =>
      if String.eqb c "sides" then
        let colors := List.map (fun poly => qnat (length poly)) (polytopes voronoi) in
        ptp <- np_ptp colors ;;
        ret (colors, Some (ptp + 1)%Q)
      else if String.eqb c "area" then
        ret (volumes voronoi, None)
      else
        raise (RuntimeError (invalid_color_by c))
  | None =>
      colors <- random_permutation npatches ;;
      ret (List.map qnat colors, Some (qnat (unique_size colors)))
  end.

Definition continuous_colorby_options : list string := ["area"].

Definition is_continuous (color_by : option string) : bool :=
  match color_by with
  | Some c => existsb (String.eqb c) continuous_colorby_options
  | None => false
  end.

Definition many_colors_warning : string :=
  "More than 20 unique colors were requested. " ++
  "Consider providing a colormap to the cmap " ++
  "argument.".

(** The choice of a default colormap name. *)
Definition voronoi_cmap (cmap color_by : option string) (num_colors : option Q)
  : M (option string) :=
  match cmap with
  | None =>
      if negb (is_continuous color_by) then
        let n := default 0%Q num_colors in
        if (match color_by with Some _ => true | None => false end)
             && Qle_bool n 10 then
          ret (Some "tab10")
        else
          (if negb (Qle_bool n 20) then warn many_colors_warning else ret tt) ;;
          ret (Some "tab20")
      else ret cmap
  | Some _ => ret cmap
  end.

Definition color_by_labels (color_by : string) : string :=
  if String.eqb color_by "sides" then "Number of sides" else "Polytope Area".

(** The part of [voronoi_plot] that follows the choice of [colors] and
    [num_colors]: colormap, patch collection, box outline, decorations and
    colorbar. *)
Definition voronoi_draw (box : Box) (ax : nat) (patches : list (list point2))
    (color_by cmap : option string) (colors : list Q) (num_colors : option Q)
  : M nat :=
  cmap <- voronoi_cmap cmap color_by num_colors ;;
  let cmap := {| cmap_name := cmap; cmap_lut := num_colors |} in
  lo <- np_min colors ;;
  hi <- np_max colors ;;
  let bounds := arange lo (hi + 1)%Q in
  let patch_collection :=
    {| pc_patches := patches;
       pc_edgecolors := "black";
       pc_alpha := (4 # 10)%Q;
       pc_array := List.map (fun c => c - (1 # 2))%Q colors;
       pc_cmap := Some cmap;
       pc_clim := Some (hd 0 bounds - (1 # 2), List.last bounds 0 + (1 # 2))%Q |} in
  ax_call ax (AddCollection patch_collection) ;;
  let corners := List.map (fun c => shift (0, 0, 0) c) square_corners in
  let corners := List.map xy_of (List.map (make_absolute box) corners) in
  ax_call ax (Plot (vnums (List.map fst corners)) (vnums (List.map snd corners))
                (Some "k") [] []) ;;
  ax_call ax (SetTitle (Some "Voronoi Diagram")) ;;
  xmin <- np_min (List.map fst corners) ;;
  xmax <- np_max (List.map fst corners) ;;
  ax_call ax (SetLim AxX xmin xmax) ;;
  ymin <- np_min (List.map snd corners) ;;
  ymax <- np_max (List.map snd corners) ;;
  ax_call ax (SetLim AxY ymin ymax) ;;
  ax_call ax (SetAspect "equal" "datalim") ;;
  match color_by with
  | Some c =>
      cax <- append_axes ax "right" "7%" "10%" ;;
      colorbar cax (MCollection patch_collection) (color_by_labels c) ;;
      ax_call cax (ColorbarTicks bounds)
  | None => ret tt
  end ;;
  ret ax.

(** *** [voronoi_plot] *)
Definition voronoi_plot (voronoi : Voronoi) (box : Box) (ax : option nat)
    (color_by cmap : option string) : M nat :=
  ax <- ax_or_new ax ;;
  let patches := List.map (List.map xy_of) (polytopes voronoi) in
  cn <- voronoi_colors voronoi (length patches) color_by ;;
  let '(colors, num_colors) := cn in
  voronoi_draw box ax patches color_by cmap colors num_colors.

(** ** Diffraction pattern *)

(** *** [diffraction_plot] *)
Definition diffraction_plot (diffraction : list (list Q)) (k_values : list Q)
    (N_points : Z) (ax : option nat) (cmap : string) (vmin vmax : option Q)
  : M nat :=
  let vmin := match vmin with
              | None => ((4 # 1000000) * inject_Z N_points)%Q
              | Some v => v
              end in
  let vmax := match vmax with
              | None => ((7 # 10) * inject_Z N_points)%Q
              | Some v => v
              end in
  ax <- ax_or_new ax ;;
  kmin <- np_min k_values ;;
  kmax <- np_max k_values ;;
  im <- ax_imshow ax
          {| im_data := fins (List.map (List.map (clip vmin vmax)) diffraction);
             im_extent := Some (kmin, kmax, kmin, kmax);
             im_interpolation := Some "nearest";
             im_cmap := Some cmap;
             im_vmin := None;
             im_vmax := None;
             im_lognorm := Some (vmin, vmax) |} ;;
  cax <- append_axes ax "right" "7%" "10%" ;;
  colorbar cax (MImage im) "$S(\vec{k})$" ;;
  ax_call ax (SetMajorLocator AxX 6 true 7) ;;
  ax_call ax (SetMajorLocator AxY 6 true 7) ;;
  ax_call ax (SetMajorFormatter AxX "%.3g") ;;
  ax_call ax (SetMajorFormatter AxY "%.3g") ;;
  ax_call ax (SetTitle (Some "Diffraction Pattern")) ;;
  ax_call ax (SetAspect "equal" "datalim") ;;
  ax_call ax (SetLabel AxX (Some "$k_x$")) ;;
  ax_call ax (SetLabel AxY (Some "$k_y$")) ;;
  ret ax.

(** * Vocabulary of the specification *)

(** Whatever the outcome of [c], the final store is related by [R] to the
    initial one. *)
Definition respects (R : World -> World -> Prop) {A} (c : M A) : Prop :=
  forall w, R w (snd (c w)).

(** Ascending in [key]. *)
Definition ascending {A} (key : A -> Z) (l : list A) : Prop :=
  StronglySorted (fun x y => key x <= key y) l.

(** Whenever [c] returns, the returned value satisfies [P]. *)
Definition returning {A} (P : A -> Prop) (c : M A) : Prop :=
  forall w r, fst (c w) = Return r -> P r.

(** [A'] is [A] after further method calls. *)
Definition grown (A A' : Axes) : Prop :=
  ax_figure A' = ax_figure A /\
  ax_projection A' = ax_projection A /\
  exists added, ax_calls A' = (ax_calls A ++ added)%list.

(** Every axes object of [w] is still there in [w'], with its earlier
    calls as a prefix of its log. *)
Definition extends (w w' : World) : Prop :=
  forall i A, axes w !! i = Some A ->
    exists A', axes w' !! i = Some A' /\ grown A A'.

(** A computation keeps the axes objects it finds, whatever its outcome. *)
Definition keeps {A} (c : M A) : Prop := respects extends c.

(** The axes object [ax_or_new] hands to the body of a helper: the one
    supplied, or the next free reference of the store. *)
Definition target (ax : option nat) (w : World) : nat :=
  match ax with
  | Some a => a
  | None => length (axes w)
  end.

(** [ax] refers to an axes object of the store, when it is given. *)
Definition supplied_ok (ax : option nat) (w : World) : Prop :=
  match ax with
  | Some a => is_Some (axes w !! a)
  | None => True
  end.

(** What the claims about the returned axes object say of one helper [f],
    whose result carries the axes reference [proj r]. *)
Record axes_contract {R} (proj : R -> nat) (f : option nat -> M R) : Prop := {
  contract_target :
    forall ax w r w', f ax w = (Return r, w') -> proj r = target ax w;
  contract_extends :
    forall ax w, extends w (snd (f ax w));
  contract_live :
    forall ax w r w', supplied_ok ax w -> f ax w = (Return r, w') ->
      is_Some (axes w' !! proj r)
}.

(** [sub] occurs in [s]. *)
Definition contains (s sub : string) : Prop :=
  exists pre post, s = pre ++ sub ++ post.

(** [c] never raises a [RuntimeError]. *)
Definition no_runtime_error {A} (c : M A) : Prop :=
  forall w msg, fst (c w) <> Raise (RuntimeError msg).

(** A computation that always returns. *)
Definition total {A} (c : M A) : Prop := forall w, exists a, fst (c w) = Return a.

(** The log of the axes object [a]; empty when there is no such object. *)
Definition calls_of (w : World) (a : nat) : list Call :=
  match axes w !! a with
  | Some A => ax_calls A
  | None => []
  end.

(** Run on a store that holds [a], the computation keeps [a] there and,
    when it returns, has appended exactly [cs] to its log. *)
Definition appends {A} (a : nat) (cs : list Call) (c : M A) : Prop :=
  forall w, is_Some (axes w !! a) ->
    is_Some (axes (snd (c w)) !! a) /\
    (forall r, fst (c w) = Return r ->
       calls_of (snd (c w)) a = (calls_of w a ++ cs)%list).

Definition bar_plot_calls (x height : list pyval) (title xlabel ylabel : option string)
  : list Call :=
  [Bar x height; SetTitle title; SetLabel AxX xlabel; SetLabel AxY ylabel;
   SetXticks x; SetXticklabels x].

Definition is_lim3d (c : Call) : bool :=
  match c with
  | SetLim3d _ _ _ => true
  | _ => false
  end.

(** The number of [set_xlim3d], [set_ylim3d] and [set_zlim3d] calls logged
    in the whole store; only [_set_3d_axes_equal] makes such calls. *)
Fixpoint lim3d_total (xs : list Axes) : nat :=
  match xs with
  | [] => 0
  | A :: xs' => length (List.filter is_lim3d (ax_calls A)) + lim3d_total xs'
  end.

Definition lim3d_count (w : World) : nat := lim3d_total (axes w).

Definition lim3d_weight (c : Call) : nat := if is_lim3d c then 1 else 0.

(** A computation that leaves the number of 3D-limit calls unchanged,
    whatever its outcome. *)
Definition sets_no_lim3d {A} (c : M A) : Prop :=
  respects (fun w w' => lim3d_count w' = lim3d_count w) c.

(** Run on a store that holds [a], the computation keeps [a] there and,
    when it returns, has made exactly [n] 3D-limit calls. *)
Definition adds_lim3d {A} (a n : nat) (c : M A) : Prop :=
  forall w, is_Some (axes w !! a) ->
    is_Some (axes (snd (c w)) !! a) /\
    (forall r, fst (c w) = Return r ->
       lim3d_count (snd (c w)) = (lim3d_count w + n)%nat).

(** The half-width used for all three axes. *)
Definition equal_radius (l : limits_t) : Q :=
  ((1 # 2) * Qmax (Qmax (row_width (lim_x l)) (row_width (lim_y l)))
                  (row_width (lim_z l)))%Q.

Definition equalized_calls (l : limits_t) : list Call :=
  [SetLim3d AxX (row_mean (lim_x l) - equal_radius l) (row_mean (lim_x l) + equal_radius l);
   SetLim3d AxY (row_mean (lim_y l) - equal_radius l) (row_mean (lim_y l) + equal_radius l);
   SetLim3d AxZ (row_mean (lim_z l) - equal_radius l) (row_mean (lim_z l) + equal_radius l)]%Q.

Definition same_arrays {A} (c : M A) : Prop :=
  respects (fun w w' => arrays w' = arrays w) c.

(** The color-scale bounds [diffraction_plot] uses. *)
Definition diffraction_vmin (N_points : Z) (vmin : option Q) : Q :=
  match vmin with
  | None => ((4 # 1000000) * inject_Z N_points)%Q
  | Some v => v
  end.

Definition diffraction_vmax (N_points : Z) (vmax : option Q) : Q :=
  match vmax with
  | None => ((7 # 10) * inject_Z N_points)%Q
  | Some v => v
  end.

(** The outcome of [c] and its effect on the store are the same whatever
    the entropy, which [c] leaves untouched. *)
Definition entropy_free {A} (c : M A) : Prop :=
  forall w e, c (set_entropy e w) = (fst (c w), set_entropy e (snd (c w))).

Definition swap_index (i j k : nat) : nat :=
  if decide (k = j) then i else if decide (k = i) then j else k.

Definition forget_pc (pc : PatchCollection) : PatchCollection :=
  {| pc_patches := pc_patches pc; pc_edgecolors := pc_edgecolors pc;
     pc_alpha := pc_alpha pc; pc_array := [];
     pc_cmap := pc_cmap pc; pc_clim := pc_clim pc |}.

Definition forget_call (c : Call) : Call :=
  match c with
  | AddCollection pc => AddCollection (forget_pc pc)
  | ColorbarOf (MCollection pc) => ColorbarOf (MCollection (forget_pc pc))
  | _ => c
  end.

Definition forget_axes (A : Axes) : Axes :=
  {| ax_figure := ax_figure A; ax_projection := ax_projection A;
     ax_calls := List.map forget_call (ax_calls A) |}.

(** The store without the colour arrays of its patch collections and
    without the entropy. *)
Definition forget_colors (w : World) : World :=
  {| figures := figures w; axes := List.map forget_axes (axes w);
     arrays := arrays w; buffers := buffers w; warnings := warnings w;
     io_log := io_log w; entropy := [] |}.

(** Two computations that, from stores that agree up to colours, have the
    same outcome and lead to stores that agree up to colours. *)
Definition alike {A} (c1 c2 : M A) : Prop :=
  forall w1 w2, forget_colors w1 = forget_colors w2 ->
    fst (c1 w1) = fst (c2 w2) /\
    forget_colors (snd (c1 w1)) = forget_colors (snd (c2 w2)).

(** ** Concrete inputs *)

(** The store of a fresh interpreter, and stores holding one figure with a
    single 2D or 3D axes object. *)
Definition initial_world : World :=
  {| figures := []; axes := []; arrays := []; buffers := []; warnings := [];
     io_log := []; entropy := [] |}.

Definition world_2d : World :=
  {| figures := [{| fig_axes := [O]; fig_canvas := DefaultCanvas |}];
     axes := [{| ax_figure := O; ax_projection := Rectilinear; ax_calls := [] |}];
     arrays := [[[Fin 1; PosInf]; [NegInf; NaN]]];
     buffers := []; warnings := []; io_log := []; entropy := [] |}.

Definition world_3d : World :=
  {| figures := [{| fig_axes := [O]; fig_canvas := DefaultCanvas |}];
     axes := [{| ax_figure := O; ax_projection := ThreeD; ax_calls := [] |}];
     arrays := []; buffers := []; warnings := []; io_log := []; entropy := [] |}.

(** An orthorhombic box centred at the origin. *)
Definition ortho_box (two_d : bool) (lx ly lz : Q) : Box :=
  {| is2D := two_d; Lx := lx; Ly := ly;
     make_absolute := fun p => (lx * (px p - (1 # 2)), ly * (py p - (1 # 2)),
                                lz * (pz p - (1 # 2)))%Q |}.

Definition triangle : list point3 := [qpoint 0 0 0; qpoint 1 0 0; qpoint 0 1 0].

Definition two_cells : Voronoi :=
  {| polytopes := [triangle; triangle]; volumes := [1 # 2; 1 # 2]%Q |}.

(** A stand-in renderer: the bytes name the format and count the axes. *)
Definition toy_render (fmt : string) (c : canvas) (xs : list Axes) : byte_string :=
  list_ascii_of_string (fmt ++ nat_str (length xs)).

Definition no_lim3d (a : Axes) (x : axis) : Q * Q := (0, 1)%Q.

(** What C2 says of one helper: given an axes object, the helper returns
    that very object, which has only gained calls; given none, it returns
    an object that was not in the store before. *)
Definition returns_supplied_axes {R} (proj : R -> nat) (f : option nat -> M R)
  : Prop :=
  forall ax w r w', f ax w = (Return r, w') ->
    match ax with
    | Some a =>
        proj r = a /\
        forall A, axes w !! a = Some A ->
          exists A', axes w' !! a = Some A' /\ grown A A'
    | None => axes w !! proj r = None /\ is_Some (axes w' !! proj r)
    end.

(** What C3 says of one helper: whenever it returns, the result refers to
    an axes object of the store. *)
Definition returns_live_axes {R} (proj : R -> nat) (f : option nat -> M R)
  : Prop :=
  forall ax w r w', supplied_ok ax w -> f ax w = (Return r, w') ->
    is_Some (axes w' !! proj r).

Definition key_name (k : nat) : string := "cluster-" ++ nat_str k.

(** ** Vocabulary of the further properties *)

(** The axes object [a] of [w] has projection [p] and log [cs]. *)
Definition at_axes (p : projection) (a : nat) (cs : list Call) (w : World) : Prop :=
  exists A, axes w !! a = Some A /\ ax_projection A = p /\ ax_calls A = cs.

(** Run on a store whose axes object [a] has projection [p], the
    computation returns; [Q] holds of the value returned and of the calls
    it has appended to the log of [a]. *)
Definition runs {X} (p : projection) (a : nat) (c : M X)
    (Q : X -> list Call -> Prop) : Prop :=
  forall w cs0, at_axes p a cs0 w ->
    exists x w' cs,
      c w = (Return x, w') /\ at_axes p a (cs0 ++ cs)%list w' /\ Q x cs.

(** Run on such a store, the computation raises; [Q] holds of the exception
    and of the calls appended to the log of [a] before it was raised. *)
Definition fails {X} (p : projection) (a : nat) (c : M X)
    (Q : exn -> list Call -> Prop) : Prop :=
  forall w cs0, at_axes p a cs0 w ->
    exists e w' cs,
      c w = (Raise e, w') /\ at_axes p a (cs0 ++ cs)%list w' /\ Q e cs.

(** [ax.plot(path[:, 0], path[:, 1], path[:, 2], color=color)] *)
Definition edge_call (color : string) (path : list point3) : Call :=
  Plot3D (List.map px path) (List.map py path) (List.map pz path) color.

(** The corners of the box image, and the six paths through them. *)
Definition box_corners (box : Box) (image : option (Z * Z * Z)) : list point3 :=
  List.map (make_absolute box)
    (List.map (shift (match image with None => (0, 0, 0) | Some i => i end))
       cube_corners).

Definition box_paths (box : Box) (image : option (Z * Z * Z)) : list (list point3) :=
  List.map (fun idx => pick idx (box_corners box image)) cube_paths.

(** The limits [box_plot] hands to [_set_3d_axes_equal]: from the first
    to the last corner. *)
Definition box_limits (box : Box) (image : option (Z * Z * Z)) : limits_t :=
  let c0 := nth 0 (box_corners box image) (qpoint 0 0 0) in
  let c7 := nth 7 (box_corners box image) (qpoint 0 0 0) in
  ((px c0, px c7), (py c0, py c7), (pz c0, pz c7)).

(** [kwargs.get("color", "k")] *)
Definition color_or_black (kwargs : kwargs_t) : string :=
  match kwargs_get "color" kwargs with
  | Some c => c
  | None => "k"
  end.

(** What the 3D branch of [box_plot] appends to the axes. *)
Definition box_plot_3d_calls (box : Box) (image : option (Z * Z * Z))
    (kwargs : kwargs_t) : list Call :=
  (match box_paths box image with
   | [] => []
   | path :: paths =>
       edge_call (color_or_black kwargs) path :: List.map (edge_call "k") paths
   end ++
   [SetLabel AxX (Some "$x$"); SetLabel AxY (Some "$y$"); SetLabel AxZ (Some "$z$")] ++
   equalized_calls (box_limits box image))%list.

(** [np.min(points, axis=0)] and [np.max(points, axis=0)] of a non-empty
    array of points. *)
Definition points_min (p : point3) (ps : list point3) : point3 :=
  (min_list (px p) (List.map px ps), min_list (py p) (List.map py ps),
   min_list (pz p) (List.map pz ps)).

Definition points_max (p : point3) (ps : list point3) : point3 :=
  (max_list (px p) (List.map px ps), max_list (py p) (List.map py ps),
   max_list (pz p) (List.map pz ps)).

(** The limits [system_plot] hands to [_set_3d_axes_equal]. *)
Definition system_limits (box : Box) (p : point3) (ps : list point3) : limits_t :=
  let box_min := make_absolute box (qpoint 0 0 0) in
  let box_max := make_absolute box (qpoint 1 1 1) in
  ((Qmin (px box_min) (px (points_min p ps)), Qmax (px box_max) (px (points_max p ps))),
   (Qmin (py box_min) (py (points_min p ps)), Qmax (py box_max) (py (points_max p ps))),
   (Qmin (pz box_min) (pz (points_min p ps)), Qmax (pz box_max) (pz (points_max p ps)))).

Definition scatter3d_call (ps : list point3) (args : list string) (kwargs : kwargs_t)
  : Call :=
  Scatter (List.map px ps) (List.map py ps) (Some (List.map pz ps)) args kwargs.

Definition three_points : System :=
  {| sys_box := ortho_box false 2 2 2;
     sys_points := [(0, 0, 0); (1 # 2, - (1 # 2), 3); (- (5), 0, 1 # 4)]%Q |}.

Definition no_points : System :=
  {| sys_box := ortho_box false 2 2 2; sys_points := [] |}.

(** The entries of [l] whose key is [k], in the order of [l]. *)
Definition with_key {A} (key : A -> Z) (k : Z) (l : list A) : list A :=
  List.filter (fun x => key x =? k) l.

Definition same_warnings {A} (c : M A) : Prop :=
  respects (fun w w' => warnings w' = warnings w) c.

(** The numbers of sides of the polytopes. *)
Definition side_counts (v : Voronoi) : list nat :=
  List.map (fun poly => length poly) (polytopes v).

(** The colormap name [voronoi_plot] hands to [cm.get_cmap]. *)
Definition chosen_cmap (cmap color_by : option string) (num_colors : option Q)
  : option string :=
  match cmap with
  | Some c => Some c
  | None =>
      if is_continuous color_by then None
      else if (match color_by with Some _ => true | None => false end)
                && Qle_bool (default 0%Q num_colors) 10
           then Some "tab10" else Some "tab20"
  end.

(** The patch collection [voronoi_plot] builds from [colors]. *)
Definition voronoi_collection (patches : list (list point2)) (colors : list Q)
    (cmap : option string) (num_colors : option Q) (lo hi : Q) : PatchCollection :=
  {| pc_patches := patches;
     pc_edgecolors := "black";
     pc_alpha := (4 # 10)%Q;
     pc_array := List.map (fun c => c - (1 # 2))%Q colors;
     pc_cmap := Some {| cmap_name := cmap; cmap_lut := num_colors |};
     pc_clim := Some (hd 0 (arange lo (hi + 1)) - (1 # 2),
                      List.last (arange lo (hi + 1)) 0 + (1 # 2))%Q |}.

Definition no_cells : Voronoi := {| polytopes := []; volumes := [] |}.

Definition three_cells : Voronoi :=
  {| polytopes := [triangle; (triangle ++ triangle)%list;
                   (triangle ++ [qpoint 1 1 0])%list];
     volumes := [1 # 2; 1; 1]%Q |}.

(** * Reasoning about computations *)

Lemma bind_run {A B} (c : M A) (k : A -> M B) w :
  bind c k w = match c w with
               | (Return a, w') => k a w'
               | (Raise e, w') => (Raise e, w')
               end.
Proof. reflexivity. Qed.

Lemma bind_return_inv {A B} (c : M A) (k : A -> M B) w b w' :
  bind c k w = (Return b, w') ->
  exists a w1, c w = (Return a, w1) /\ k a w1 = (Return b, w').
Proof.
  rewrite bind_run. destruct (c w) as [[a|e] w1]; intros H.
  - exists a, w1. split; [reflexivity|exact H].
  - discriminate H.
Qed.

(** ** Effects that respect a preorder on stores *)

Section Respects.

Variable R : World -> World -> Prop.
Hypothesis R_refl : forall w, R w w.
Hypothesis R_trans : forall w1 w2 w3, R w1 w2 -> R w2 w3 -> R w1 w3.

Lemma respects_ret {A} (a : A) : respects R (ret a).
Proof. intros w. apply R_refl. Qed.

Lemma respects_raise {A} (e : exn) : respects R (@raise A e).
Proof. intros w. apply R_refl. Qed.

Lemma respects_get_world : respects R get_world.
Proof. intros w. apply R_refl. Qed.

Lemma respects_bind {A B} (c : M A) (k : A -> M B) :
  respects R c -> (forall a, respects R (k a)) -> respects R (bind c k).
Proof.
  intros Hc Hk w. rewrite bind_run.
  specialize (Hc w). destruct (c w) as [[a|e] w1]; simpl in *.
  - eapply R_trans; [exact Hc|apply Hk].
  - exact Hc.
Qed.

End Respects.

(** ** The value a computation returns *)

Lemma returning_ret {A} (P : A -> Prop) (a : A) : P a -> returning P (ret a).
Proof. intros Pa w r H. simpl in H. congruence. Qed.

Lemma returning_raise {A} (P : A -> Prop) e : returning P (raise e).
Proof. intros w r H. discriminate H. Qed.

Lemma returning_bind {A B} (P : B -> Prop) (c : M A) (k : A -> M B) :
  (forall a, returning P (k a)) -> returning P (bind c k).
Proof.
  intros Hk w r. rewrite bind_run.
  destruct (c w) as [[a|e] w1]; simpl; [apply Hk|discriminate].
Qed.

Ltac returning_tac :=
  repeat first
    [ apply returning_ret; reflexivity
    | apply returning_raise
    | apply returning_bind; intros ?
    | match goal with
      | |- context [match ?x with _ => _ end] => destruct x
      | |- context [if ?b then _ else _] => destruct b
      end ].

(** ** Axes objects only grow *)

Lemma grown_refl A : grown A A.
Proof. repeat split. exists []. now rewrite app_nil_r. Qed.

Lemma grown_trans A B C : grown A B -> grown B C -> grown A C.
Proof.
  intros (f1 & p1 & a1 & e1) (f2 & p2 & a2 & e2). repeat split; try congruence.
  exists (a1 ++ a2)%list. rewrite e2, e1. now rewrite app_assoc.
Qed.

Lemma grown_log_call c A : grown A (log_call c A).
Proof. repeat split. now exists [c]. Qed.

Lemma extends_refl w : extends w w.
Proof. intros i A H. exists A. split; [exact H|apply grown_refl]. Qed.

Lemma extends_trans w1 w2 w3 : extends w1 w2 -> extends w2 w3 -> extends w1 w3.
Proof.
  intros H12 H23 i A H.
  destruct (H12 i A H) as (B & HB & gB).
  destruct (H23 i B HB) as (C & HC & gC).
  exists C. split; [exact HC|eapply grown_trans; eassumption].
Qed.

Lemma extends_same_axes w w' : axes w' = axes w -> extends w w'.
Proof. intros E i A H. exists A. rewrite E. split; [exact H|apply grown_refl]. Qed.

Lemma extends_length w w' : extends w w' -> (length (axes w) <= length (axes w'))%nat.
Proof.
  intros H. destruct (Nat.le_gt_cases (length (axes w)) (length (axes w'))) as [L|L];
    [exact L|exfalso].
  destruct (lookup_lt_is_Some_2 (axes w) (length (axes w'))) as [A HA]; [lia|].
  destruct (H _ _ HA) as (A' & HA' & _).
  apply lookup_lt_Some in HA'. lia.
Qed.

Lemma extends_alter_log c a w :
  extends w (set_axes (alter (log_call c) a (axes w)) w).
Proof.
  intros i A H. simpl.
  destruct (decide (a = i)) as [->|ne].
  - exists (log_call c A). split; [|apply grown_log_call].
    rewrite list_lookup_alter_eq, H. reflexivity.
  - exists A. split; [|apply grown_refl].
    rewrite list_lookup_alter_ne by exact ne. exact H.
Qed.

Lemma extends_app_axes w w' new :
  axes w' = (axes w ++ new)%list -> extends w w'.
Proof.
  intros E i A H. exists A. split; [|apply grown_refl].
  rewrite E. apply lookup_app_l_Some. exact H.
Qed.

Lemma keeps_ret {A} (a : A) : keeps (ret a).
Proof. apply respects_ret, extends_refl. Qed.

Lemma keeps_raise {A} (e : exn) : keeps (@raise A e).
Proof. apply respects_raise, extends_refl. Qed.

Lemma keeps_bind {A B} (c : M A) (k : A -> M B) :
  keeps c -> (forall a, keeps (k a)) -> keeps (bind c k).
Proof. apply respects_bind, extends_trans. Qed.

Lemma keeps_get_world : keeps get_world.
Proof. apply respects_get_world, extends_refl. Qed.

Lemma keeps_plt_figure : keeps plt_figure.
Proof. intros w. now apply extends_same_axes. Qed.

Lemma keeps_new_axes fig p : keeps (new_axes fig p).
Proof. intros w. eapply extends_app_axes. reflexivity. Qed.

Lemma keeps_ax_call a c : keeps (ax_call a c).
Proof. intros w. apply extends_alter_log. Qed.

Lemma keeps_ax_call3d a what c : keeps (ax_call3d a what c).
Proof.
  intros w. unfold ax_call3d.
  destruct (axes w !! a) as [[f [] cs]|]; try apply keeps_ax_call.
  apply extends_refl.
Qed.

Lemma keeps_warn msg : keeps (warn msg).
Proof. intros w. now apply extends_same_axes. Qed.

Lemma keeps_np_copy r : keeps (np_copy r).
Proof. intros w. now apply extends_same_axes. Qed.

Lemma keeps_assign_nan r : keeps (assign_nan_where_inf r).
Proof. intros w. now apply extends_same_axes. Qed.

Lemma keeps_read_array r : keeps (read_array r).
Proof. intros w. apply extends_refl. Qed.

Lemma keeps_random_permutation n : keeps (random_permutation n).
Proof.
  intros w. unfold random_permutation.
  destruct (shuffle (n - 1) (entropy w) (seq 0 n)) as [p rest].
  now apply extends_same_axes.
Qed.

Create HintDb keeps_db.
#[local] Hint Resolve keeps_get_world keeps_plt_figure keeps_new_axes
  keeps_ax_call keeps_ax_call3d keeps_warn keeps_np_copy keeps_assign_nan
  keeps_read_array keeps_random_permutation : keeps_db.

(** Decomposition of a computation along its binds and branches. *)
Ltac split_branch :=
  match goal with
  | |- context [match ?x with _ => _ end] => destruct x
  | |- context [if ?b then _ else _] => destruct b
  end.

Ltac keeps_tac :=
  repeat first
    [ apply keeps_ret
    | apply keeps_raise
    | solve [auto with keeps_db]
    | apply keeps_bind; [|intros ?]
    | split_branch ].

Lemma keeps_np_min l : keeps (np_min l).
Proof. unfold np_min. keeps_tac. Qed.

Lemma keeps_np_max l : keeps (np_max l).
Proof. unfold np_max. keeps_tac. Qed.

Lemma keeps_np_ptp l : keeps (np_ptp l).
Proof. unfold np_ptp. keeps_tac. Qed.

#[local] Hint Resolve keeps_np_min keeps_np_max keeps_np_ptp : keeps_db.

Lemma keeps_ax_or_new ax : keeps (ax_or_new ax).
Proof. unfold ax_or_new, fig_subplots. keeps_tac. Qed.

Lemma keeps_ax_or_new_for b ax : keeps (ax_or_new_for b ax).
Proof. unfold ax_or_new_for, fig_subplots, fig_add_subplot_3d. keeps_tac. Qed.

Lemma keeps_append_axes a p s d : keeps (append_axes a p s d).
Proof. unfold append_axes. keeps_tac. Qed.

Lemma keeps_ax_imshow a im : keeps (ax_imshow a im).
Proof. unfold ax_imshow. keeps_tac. Qed.

Lemma keeps_colorbar a m l : keeps (colorbar a m l).
Proof. unfold colorbar. keeps_tac. Qed.

Lemma keeps_ax_scatter a xs ys zs args kw : keeps (ax_scatter a xs ys zs args kw).
Proof. unfold ax_scatter. keeps_tac. Qed.

Lemma keeps_columns_min ps : keeps (columns_min ps).
Proof. unfold columns_min. keeps_tac. Qed.

Lemma keeps_columns_max ps : keeps (columns_max ps).
Proof. unfold columns_max. keeps_tac. Qed.

#[local] Hint Resolve keeps_ax_or_new keeps_ax_or_new_for keeps_append_axes
  keeps_ax_imshow keeps_colorbar keeps_ax_scatter keeps_columns_min
  keeps_columns_max : keeps_db.

Lemma keeps_set_3d_axes_equal gl a limits : keeps (_set_3d_axes_equal gl a limits).
Proof.
  unfold _set_3d_axes_equal. apply keeps_bind.
  - destruct limits; [apply keeps_ret|].
    intros w. destruct (axes w !! a) as [[f [] cs]|]; apply extends_refl.
  - intros l. keeps_tac.
Qed.

Lemma keeps_plot_paths a paths kw : keeps (plot_paths a paths kw).
Proof.
  revert kw. induction paths as [|p paths IH]; intros kw; simpl.
  - apply keeps_ret.
  - destruct (kwargs_pop "color" "k" kw). apply keeps_bind; [auto with keeps_db|].
    intros _. apply IH.
Qed.

#[local] Hint Resolve keeps_set_3d_axes_equal keeps_plot_paths : keeps_db.

Lemma keeps_box_plot gl b t ax im args kw : keeps (box_plot gl b t ax im args kw).
Proof. unfold box_plot. keeps_tac. Qed.

#[local] Hint Resolve keeps_box_plot : keeps_db.

Lemma keeps_system_plot gl s t ax args kw : keeps (system_plot gl s t ax args kw).
Proof. unfold system_plot. keeps_tac. Qed.

Lemma keeps_bar_plot x h t xl yl ax : keeps (bar_plot x h t xl yl ax).
Proof. unfold bar_plot. keeps_tac. Qed.

#[local] Hint Resolve keeps_bar_plot : keeps_db.

Lemma keeps_clusters_plot {K} (str : K -> string) keys freqs n ax :
  keeps (clusters_plot str keys freqs n ax).
Proof. unfold clusters_plot. auto with keeps_db. Qed.

Lemma keeps_line_plot x y t xl yl ax : keeps (line_plot x y t xl yl ax).
Proof. unfold line_plot. keeps_tac. Qed.

Lemma keeps_histogram_plot v t xl yl ax ll : keeps (histogram_plot v t xl yl ax ll).
Proof. unfold histogram_plot. keeps_tac. Qed.

Lemma keeps_pmft_plot p ax cmap : keeps (pmft_plot p ax cmap).
Proof. unfold pmft_plot. keeps_tac. Qed.

Lemma keeps_density_plot d b ax : keeps (density_plot d b ax).
Proof. unfold density_plot. keeps_tac. Qed.

Lemma keeps_voronoi_colors v n cb : keeps (voronoi_colors v n cb).
Proof. unfold voronoi_colors. keeps_tac. Qed.

Lemma keeps_voronoi_cmap cm cb n : keeps (voronoi_cmap cm cb n).
Proof. unfold voronoi_cmap. keeps_tac. Qed.

#[local] Hint Resolve keeps_voronoi_colors keeps_voronoi_cmap : keeps_db.

Lemma keeps_voronoi_plot v b ax cb cm : keeps (voronoi_plot v b ax cb cm).
Proof. unfold voronoi_plot, voronoi_draw. keeps_tac. Qed.

Lemma keeps_diffraction_plot d k n ax cm vmin vmax :
  keeps (diffraction_plot d k n ax cm vmin vmax).
Proof. unfold diffraction_plot. keeps_tac. Qed.

(** ** The axes object a helper works on *)

Lemma ax_or_new_run ax w x w1 :
  ax_or_new ax w = (Return x, w1) ->
  x = target ax w /\ extends w w1 /\
  (supplied_ok ax w -> is_Some (axes w1 !! x)).
Proof.
  destruct ax as [a|]; simpl.
  - intros [= <- <-]. repeat split; [apply extends_refl|auto].
  - unfold bind, plt_figure, fig_subplots, new_axes. simpl. intros [= <- <-].
    repeat split.
    + eapply extends_app_axes. reflexivity.
    + intros _. simpl. apply lookup_lt_is_Some_2. rewrite length_app. simpl. lia.
Qed.

Lemma ax_or_new_for_run b ax w x w1 :
  ax_or_new_for b ax w = (Return x, w1) ->
  x = target ax w /\ extends w w1 /\
  (supplied_ok ax w -> is_Some (axes w1 !! x)).
Proof.
  destruct ax as [a|]; simpl.
  - intros [= <- <-]. repeat split; [apply extends_refl|auto].
  - unfold bind, plt_figure, fig_subplots, fig_add_subplot_3d, new_axes. simpl.
    destruct (is2D b); intros [= <- <-]; repeat split;
      try (eapply extends_app_axes; reflexivity);
      intros _; simpl; apply lookup_lt_is_Some_2; rewrite length_app; simpl; lia.
Qed.

Lemma extends_is_Some w w' i : extends w w' -> is_Some (axes w !! i) -> is_Some (axes w' !! i).
Proof. intros E [A HA]. destruct (E _ _ HA) as (A' & HA' & _). now exists A'. Qed.

(** A helper made of [ax_or_new] (or [ax_or_new_for]) followed by a body
    that keeps the store's axes and returns the axes it was given. *)
Lemma contract_of_body {R} (proj : R -> nat) (mk : option nat -> M nat)
    (body : option nat -> nat -> M R) :
  (forall ax w x w1, mk ax w = (Return x, w1) ->
     x = target ax w /\ extends w w1 /\ (supplied_ok ax w -> is_Some (axes w1 !! x))) ->
  (forall ax, keeps (mk ax)) ->
  (forall ax x, keeps (body ax x)) ->
  (forall ax x, returning (fun r => proj r = x) (body ax x)) ->
  axes_contract proj (fun ax => bind (mk ax) (body ax)).
Proof.
  intros Hmk Kmk Kbody Rbody. split.
  - intros ax w r w' H. apply bind_return_inv in H as (x & w1 & H1 & H2).
    destruct (Hmk _ _ _ _ H1) as (-> & _ & _).
    apply (Rbody ax _ w1). now rewrite H2.
  - intros ax w. apply keeps_bind; [apply Kmk|apply Kbody].
  - intros ax w r w' ok H. apply bind_return_inv in H as (x & w1 & H1 & H2).
    destruct (Hmk _ _ _ _ H1) as (_ & _ & live).
    assert (E : proj r = x) by (apply (Rbody ax _ w1); now rewrite H2).
    rewrite E. eapply extends_is_Some; [|apply live, ok].
    pose proof (Kbody ax x w1) as K. now rewrite H2 in K.
Qed.

Ltac contract_tac :=
  match goal with
  | |- axes_contract _ (fun ax => bind (ax_or_new ax) (@?body ax)) =>
      apply (contract_of_body _ ax_or_new body);
      [ apply ax_or_new_run | apply keeps_ax_or_new
      | intros ? ?; keeps_tac | intros ? ?; returning_tac ]
  | |- axes_contract _ (fun ax => bind (ax_or_new_for ?b ax) (@?body ax)) =>
      apply (contract_of_body _ (ax_or_new_for b) body);
      [ apply ax_or_new_for_run | apply keeps_ax_or_new_for
      | intros ? ?; keeps_tac | intros ? ?; returning_tac ]
  end.

Lemma box_plot_contract gl b t im args kw :
  axes_contract id (fun ax => box_plot gl b t ax im args kw).
Proof. unfold box_plot. cbv zeta. contract_tac. Qed.

Lemma system_plot_contract gl s t args kw :
  axes_contract fst (fun ax => system_plot gl s t ax args kw).
Proof. unfold system_plot. contract_tac. Qed.

Lemma bar_plot_contract x h t xl yl :
  axes_contract id (fun ax => bar_plot x h t xl yl ax).
Proof. unfold bar_plot. contract_tac. Qed.

Lemma clusters_plot_contract {K} (str : K -> string) keys freqs n :
  axes_contract id (fun ax => clusters_plot str keys freqs n ax).
Proof. unfold clusters_plot. cbv zeta. apply bar_plot_contract. Qed.

Lemma line_plot_contract x y t xl yl :
  axes_contract id (fun ax => line_plot x y t xl yl ax).
Proof. unfold line_plot. contract_tac. Qed.

Lemma histogram_plot_contract v t xl yl ll :
  axes_contract id (fun ax => histogram_plot v t xl yl ax ll).
Proof. unfold histogram_plot. contract_tac. Qed.

Lemma pmft_plot_contract p cmap :
  axes_contract id (fun ax => pmft_plot p ax cmap).
Proof. unfold pmft_plot. contract_tac. Qed.

Lemma density_plot_contract d b :
  axes_contract id (fun ax => density_plot d b ax).
Proof. unfold density_plot. cbv zeta. contract_tac. Qed.

Lemma voronoi_plot_contract v b cb cm :
  axes_contract id (fun ax => voronoi_plot v b ax cb cm).
Proof. unfold voronoi_plot, voronoi_draw. cbv zeta. contract_tac. Qed.

Lemma diffraction_plot_contract d k n cm vmin vmax :
  axes_contract id (fun ax => diffraction_plot d k n ax cm vmin vmax).
Proof. unfold diffraction_plot. cbv zeta. contract_tac. Qed.

(** ** Runtime errors *)

Lemma nre_ret {A} (a : A) : no_runtime_error (ret a).
Proof. intros w msg. discriminate. Qed.

Lemma nre_value_error {A} msg : no_runtime_error (@raise A (ValueError msg)).
Proof. intros w m. discriminate. Qed.

Lemma nre_bind {A B} (c : M A) (k : A -> M B) :
  no_runtime_error c -> (forall a, no_runtime_error (k a)) ->
  no_runtime_error (bind c k).
Proof.
  intros Hc Hk w msg. rewrite bind_run.
  specialize (Hc w msg). destruct (c w) as [[a|e] w1]; simpl in *.
  - apply Hk.
  - intros [= ->]. now apply Hc.
Qed.

Lemma nre_total {A} (c : M A) : total c -> no_runtime_error c.
Proof. intros T w msg. destruct (T w) as [a ->]. discriminate. Qed.

Lemma total_ret {A} (a : A) : total (ret a).
Proof. intros w. now exists a. Qed.

Lemma total_bind {A B} (c : M A) (k : A -> M B) :
  total c -> (forall a, total (k a)) -> total (bind c k).
Proof.
  intros Tc Tk w. rewrite bind_run. destruct (Tc w) as [a Ha].
  destruct (c w) as [[a'|e] w1]; simpl in Ha; [apply Tk|discriminate].
Qed.

Lemma total_get_world : total get_world.
Proof. intros w. now exists w. Qed.

Lemma total_modify f : total (modify f).
Proof. intros w. now exists tt. Qed.

Lemma total_plt_figure : total plt_figure.
Proof. intros w. now eexists. Qed.

Lemma total_new_axes fig p : total (new_axes fig p).
Proof. intros w. now eexists. Qed.

Lemma total_random_permutation n : total (random_permutation n).
Proof.
  intros w. unfold random_permutation.
  destruct (shuffle (n - 1) (entropy w) (seq 0 n)) as [p rest]. now exists p.
Qed.

Create HintDb total_db.
#[local] Hint Resolve total_get_world total_modify total_plt_figure
  total_new_axes total_random_permutation : total_db.

Ltac total_tac :=
  repeat first
    [ apply total_ret
    | solve [auto with total_db]
    | apply total_bind; [|intros ?]
    | split_branch ].

Lemma total_ax_call a c : total (ax_call a c).
Proof. unfold ax_call. total_tac. Qed.

Lemma total_warn msg : total (warn msg).
Proof. unfold warn. total_tac. Qed.

#[local] Hint Resolve total_ax_call total_warn : total_db.

Lemma total_ax_or_new ax : total (ax_or_new ax).
Proof. unfold ax_or_new, fig_subplots. total_tac. Qed.

Lemma total_append_axes a p s d : total (append_axes a p s d).
Proof. unfold append_axes. total_tac. Qed.

Lemma total_colorbar a m l : total (colorbar a m l).
Proof. unfold colorbar. total_tac. Qed.

Lemma total_voronoi_cmap cm cb n : total (voronoi_cmap cm cb n).
Proof. unfold voronoi_cmap. total_tac. Qed.

#[local] Hint Resolve total_ax_or_new total_append_axes total_colorbar
  total_voronoi_cmap : total_db.

Create HintDb nre_db.

Ltac nre_tac :=
  repeat first
    [ apply nre_ret
    | apply nre_value_error
    | solve [apply nre_total; auto with total_db]
    | solve [auto with nre_db]
    | apply nre_bind; [|intros ?]
    | split_branch ].

Lemma nre_np_min l : no_runtime_error (np_min l).
Proof. unfold np_min. nre_tac. Qed.

Lemma nre_np_max l : no_runtime_error (np_max l).
Proof. unfold np_max. nre_tac. Qed.

Lemma nre_np_ptp l : no_runtime_error (np_ptp l).
Proof. unfold np_ptp. nre_tac. Qed.

#[local] Hint Resolve nre_np_min nre_np_max nre_np_ptp : nre_db.

Lemma eqb_sides_area c :
  c <> "sides" -> c <> "area" -> String.eqb c "sides" = false /\ String.eqb c "area" = false.
Proof. intros H1 H2. split; now apply String.eqb_neq. Qed.

Lemma contains_invalid_color_by c : contains (invalid_color_by c) c.
Proof. now exists "Invalid color_by option ", ".". Qed.

(** The valid options never reach the [raise] of [voronoi_colors]. *)
Lemma nre_voronoi_colors v n cb :
  cb = Some "sides" \/ cb = Some "area" \/ cb = None ->
  no_runtime_error (voronoi_colors v n cb).
Proof.
  intros [-> | [-> | ->]]; unfold voronoi_colors; simpl; nre_tac.
Qed.

(** On an unrecognised option, [voronoi_plot] stops at the validation, with
    the store as [ax_or_new] left it. *)
Lemma voronoi_plot_invalid v b ax c cm w :
  c <> "sides" -> c <> "area" ->
  voronoi_plot v b ax (Some c) cm w =
    (Raise (RuntimeError (invalid_color_by c)), snd (ax_or_new ax w)).
Proof.
  intros H1 H2. destruct (eqb_sides_area c H1 H2) as [E1 E2].
  unfold voronoi_plot. rewrite bind_run.
  destruct (total_ax_or_new ax w) as [a Ha].
  destruct (ax_or_new ax w) as [[a'|e] w1]; simpl in Ha; [|discriminate].
  simpl. rewrite bind_run. unfold voronoi_colors. rewrite E1, E2. reflexivity.
Qed.

(** ** Sorting *)

Lemma in_take {A} n (l : list A) x : In x (firstn n l) -> In x l.
Proof.
  revert l. induction n as [|n IH]; intros [|y l]; simpl; try tauto.
  intros [->|H]; [now left|right; now apply IH].
Qed.

Lemma in_drop {A} n (l : list A) x : In x (skipn n l) -> In x l.
Proof.
  revert l. induction n as [|n IH]; intros [|y l]; simpl; try tauto.
  intros H. right. now apply IH.
Qed.

Section Sorting.

Context {A : Type}.
Variable key : A -> Z.

Lemma insert_by_perm x l : Permutation (insert_by key x l) (x :: l).
Proof.
  induction l as [|y l IH]; simpl.
  - reflexivity.
  - destruct (key x <=? key y).
    + reflexivity.
    + rewrite IH. apply perm_swap.
Qed.

Lemma sorted_perm l : Permutation (sorted key l) l.
Proof.
  induction l as [|x l IH]; simpl.
  - reflexivity.
  - rewrite insert_by_perm. now apply perm_skip.
Qed.

Lemma insert_by_ascending x l : ascending key l -> ascending key (insert_by key x l).
Proof.
  unfold ascending. induction l as [|y l IH]; simpl; intros S.
  - constructor; constructor.
  - apply StronglySorted_inv in S as [Sl Hy].
    destruct (key x <=? key y) eqn:E.
    + apply Z.leb_le in E. constructor.
      * now constructor.
      * constructor; [exact E|].
        rewrite List.Forall_forall in *. intros z Hz. specialize (Hy z Hz). lia.
    + apply Z.leb_gt in E. constructor; [now apply IH|].
      rewrite List.Forall_forall in *. intros z Hz.
      apply (Permutation_in _ (insert_by_perm x l)) in Hz.
      destruct Hz as [<-|Hz]; [lia|now apply Hy].
Qed.

Lemma sorted_ascending l : ascending key (sorted key l).
Proof.
  induction l as [|x l IH]; simpl.
  - constructor.
  - now apply insert_by_ascending.
Qed.

(** In an ascending list, whatever lies in the first [n] entries has a
    key that is at most the key of whatever lies behind. *)
Lemma ascending_firstn_skipn n l x y :
  ascending key l -> In x (firstn n l) -> In y (skipn n l) -> key x <= key y.
Proof.
  unfold ascending. revert l. induction n as [|n IH]; intros l S Hx Hy.
  - destruct Hx.
  - destruct l as [|z l]; [destruct Hx|]. simpl in Hx, Hy.
    apply StronglySorted_inv in S as [Sl Hz].
    destruct Hx as [<-|Hx].
    + rewrite List.Forall_forall in Hz. apply Hz.
      eapply in_drop. exact Hy.
    + now apply (IH l).
Qed.

Lemma ascending_firstn n l : ascending key l -> ascending key (firstn n l).
Proof.
  unfold ascending. revert l. induction n as [|n IH]; intros l S; simpl.
  - constructor.
  - destruct l as [|z l]; [constructor|].
    apply StronglySorted_inv in S as [Sl Hz]. constructor; [now apply IH|].
    rewrite List.Forall_forall in *. intros y Hy. apply Hz.
    eapply in_take. exact Hy.
Qed.

End Sorting.

Lemma zip_length {A B} (l : list A) (l' : list B) :
  length (zip l l') = Nat.min (length l) (length l').
Proof.
  revert l'. induction l as [|x l IH]; intros [|y l']; simpl; auto.
Qed.

(** ** The calls a computation appends to one axes object *)

Lemma appends_ret {A} a (x : A) : appends a [] (ret x).
Proof. intros w L. split; [exact L|]. intros r _. simpl. now rewrite app_nil_r. Qed.

Lemma appends_ax_call a c : appends a [c] (ax_call a c).
Proof.
  intros w [A HA]. simpl. rewrite list_lookup_alter_eq, HA. simpl. split.
  - now eexists.
  - intros _ _. unfold calls_of. simpl.
    rewrite list_lookup_alter_eq, HA. reflexivity.
Qed.

Lemma appends_bind {A B} a cs1 cs2 (c : M A) (k : A -> M B) :
  appends a cs1 c -> (forall x, appends a cs2 (k x)) ->
  appends a (cs1 ++ cs2) (bind c k).
Proof.
  intros Hc Hk w L. rewrite bind_run.
  destruct (Hc w L) as [L1 E1]. destruct (c w) as [[x|e] w1]; simpl in *.
  - destruct (Hk x w1 L1) as [L2 E2]. split; [exact L2|].
    intros r Hr. rewrite (E2 r Hr), (E1 x eq_refl). now rewrite app_assoc.
  - split; [exact L1|]. intros r Hr. discriminate Hr.
Qed.

Lemma appends_call_bind {B} a c cs (k : unit -> M B) :
  (forall x, appends a cs (k x)) -> appends a (c :: cs) (bind (ax_call a c) k).
Proof. intros H. apply (appends_bind a [c] cs); [apply appends_ax_call|exact H]. Qed.

Lemma calls_of_fresh w : calls_of w (length (axes w)) = [].
Proof.
  unfold calls_of. now rewrite (lookup_ge_None_2 (axes w) (length (axes w))).
Qed.

(** [ax_or_new] returns a live axes object and leaves its log as it was
    (empty for a new one). *)
Lemma ax_or_new_calls ax w :
  supplied_ok ax w ->
  exists w1, ax_or_new ax w = (Return (target ax w), w1) /\
    is_Some (axes w1 !! target ax w) /\
    calls_of w1 (target ax w) = calls_of w (target ax w).
Proof.
  destruct ax as [a|]; simpl; intros ok.
  - exists w. auto.
  - eexists. split; [reflexivity|]. simpl. split.
    + apply lookup_lt_is_Some_2. rewrite length_app. simpl. lia.
    + rewrite calls_of_fresh. unfold calls_of. simpl.
      rewrite lookup_app_r by lia. now rewrite Nat.sub_diag.
Qed.

(** [bar_plot] returns the axes object it was given (or a new one), with
    exactly its six calls appended. *)
Lemma bar_plot_spec x h t xl yl ax w r w' :
  supplied_ok ax w ->
  bar_plot x h t xl yl ax w = (Return r, w') ->
  r = target ax w /\
  calls_of w' r = (calls_of w r ++ bar_plot_calls x h t xl yl)%list.
Proof.
  intros ok H. unfold bar_plot in H.
  destruct (ax_or_new_calls ax w ok) as (w1 & E1 & L1 & C1).
  rewrite bind_run, E1 in H.
  match type of H with ?body _ = _ =>
    assert (Ap : appends (target ax w) (bar_plot_calls x h t xl yl) body)
  end.
  { unfold bar_plot_calls. repeat (apply appends_call_bind; intros ?).
    apply appends_ret. }
  assert (Hr : r = target ax w).
  { revert H. generalize (target ax w). intros a H.
    assert (Rt : returning (fun r => r = a)
                   (ax_call a (Bar x h) ;; ax_call a (SetTitle t) ;;
                    ax_call a (SetLabel AxX xl) ;; ax_call a (SetLabel AxY yl) ;;
                    ax_call a (SetXticks x) ;; ax_call a (SetXticklabels x) ;;
                    ret a)) by returning_tac.
    apply (Rt w1). now rewrite H. }
  split; [exact Hr|]. subst r.
  destruct (Ap w1 L1) as [_ E]. rewrite H in E. simpl in E.
  rewrite (E _ eq_refl), C1. reflexivity.
Qed.

(** ** Where 3D limits are set *)

Lemma lim3d_total_app xs ys : lim3d_total (xs ++ ys) = (lim3d_total xs + lim3d_total ys)%nat.
Proof. induction xs as [|A xs IH]; simpl; [reflexivity|rewrite IH; lia]. Qed.

Lemma lim3d_total_alter c a xs :
  lim3d_total (alter (log_call c) a xs) =
  (lim3d_total xs + if decide (a < length xs)%nat then lim3d_weight c else 0)%nat.
Proof.
  revert a. induction xs as [|A xs IH]; intros a; simpl.
  - destruct (decide (a < 0)%nat); lia.
  - destruct a as [|a]; simpl.
    + rewrite List.filter_app, length_app. simpl. unfold lim3d_weight.
      destruct (decide (0 < S (length xs))%nat); [|lia].
      destruct (is_lim3d c); simpl; lia.
    + change (list_alter (log_call c) a xs) with (alter (log_call c) a xs).
      rewrite IH. destruct (decide (a < length xs)%nat), (decide (S a < S (length xs))%nat); lia.
Qed.

Lemma snl_ret {A} (a : A) : sets_no_lim3d (ret a).
Proof. now apply respects_ret. Qed.

Lemma snl_raise {A} e : sets_no_lim3d (@raise A e).
Proof. now apply respects_raise. Qed.

Lemma snl_bind {A B} (c : M A) (k : A -> M B) :
  sets_no_lim3d c -> (forall a, sets_no_lim3d (k a)) -> sets_no_lim3d (bind c k).
Proof. apply respects_bind. intros w1 w2 w3 H1 H2. congruence. Qed.

Lemma snl_same_axes {A} (c : M A) :
  (forall w, axes (snd (c w)) = axes w) -> sets_no_lim3d c.
Proof. intros H w. unfold lim3d_count. now rewrite H. Qed.

Lemma snl_get_world : sets_no_lim3d get_world.
Proof. now apply snl_same_axes. Qed.

Lemma snl_plt_figure : sets_no_lim3d plt_figure.
Proof. now apply snl_same_axes. Qed.

Lemma snl_new_axes fig p : sets_no_lim3d (new_axes fig p).
Proof. intros w. unfold lim3d_count. simpl. rewrite lim3d_total_app. simpl. lia. Qed.

Lemma snl_ax_call a c : is_lim3d c = false -> sets_no_lim3d (ax_call a c).
Proof.
  intros H w. unfold lim3d_count. simpl. rewrite lim3d_total_alter.
  unfold lim3d_weight. rewrite H. destruct (decide (a < length (axes w))%nat); lia.
Qed.

Lemma snl_ax_call3d a what c : is_lim3d c = false -> sets_no_lim3d (ax_call3d a what c).
Proof.
  intros H w. unfold ax_call3d.
  destruct (axes w !! a) as [[f [] cs]|]; try (now apply snl_ax_call).
  reflexivity.
Qed.

Lemma snl_warn msg : sets_no_lim3d (warn msg).
Proof. now apply snl_same_axes. Qed.

Lemma snl_np_copy r : sets_no_lim3d (np_copy r).
Proof. now apply snl_same_axes. Qed.

Lemma snl_assign_nan r : sets_no_lim3d (assign_nan_where_inf r).
Proof. now apply snl_same_axes. Qed.

Lemma snl_read_array r : sets_no_lim3d (read_array r).
Proof. now apply snl_same_axes. Qed.

Lemma snl_random_permutation n : sets_no_lim3d (random_permutation n).
Proof.
  apply snl_same_axes. intros w. unfold random_permutation.
  now destruct (shuffle (n - 1) (entropy w) (seq 0 n)).
Qed.

Create HintDb snl_db.
#[local] Hint Resolve snl_get_world snl_plt_figure snl_new_axes snl_warn
  snl_np_copy snl_assign_nan snl_read_array snl_random_permutation : snl_db.

Ltac snl_tac :=
  repeat first
    [ apply snl_ret
    | apply snl_raise
    | apply snl_ax_call; reflexivity
    | apply snl_ax_call3d; reflexivity
    | solve [auto with snl_db]
    | apply snl_bind; [|intros ?]
    | split_branch ].

Lemma snl_np_min l : sets_no_lim3d (np_min l).
Proof. unfold np_min. snl_tac. Qed.

Lemma snl_np_max l : sets_no_lim3d (np_max l).
Proof. unfold np_max. snl_tac. Qed.

Lemma snl_np_ptp l : sets_no_lim3d (np_ptp l).
Proof. unfold np_ptp. snl_tac. Qed.

#[local] Hint Resolve snl_np_min snl_np_max snl_np_ptp : snl_db.

Lemma snl_ax_or_new ax : sets_no_lim3d (ax_or_new ax).
Proof. unfold ax_or_new, fig_subplots. snl_tac. Qed.

Lemma snl_ax_or_new_for b ax : sets_no_lim3d (ax_or_new_for b ax).
Proof. unfold ax_or_new_for, fig_subplots, fig_add_subplot_3d. snl_tac. Qed.

Lemma snl_append_axes a p s d : sets_no_lim3d (append_axes a p s d).
Proof. unfold append_axes. snl_tac. Qed.

Lemma snl_ax_imshow a im : sets_no_lim3d (ax_imshow a im).
Proof. unfold ax_imshow. snl_tac. Qed.

Lemma snl_colorbar a m l : sets_no_lim3d (colorbar a m l).
Proof. unfold colorbar. snl_tac. Qed.

Lemma snl_ax_scatter a xs ys zs args kw : sets_no_lim3d (ax_scatter a xs ys zs args kw).
Proof. unfold ax_scatter. snl_tac. Qed.

Lemma snl_columns_min ps : sets_no_lim3d (columns_min ps).
Proof. unfold columns_min. snl_tac. Qed.

Lemma snl_columns_max ps : sets_no_lim3d (columns_max ps).
Proof. unfold columns_max. snl_tac. Qed.

Lemma snl_plot_paths a paths kw : sets_no_lim3d (plot_paths a paths kw).
Proof.
  revert kw. induction paths as [|p paths IH]; intros kw; simpl.
  - apply snl_ret.
  - destruct (kwargs_pop "color" "k" kw). apply snl_bind.
    + now apply snl_ax_call.
    + intros _. apply IH.
Qed.

#[local] Hint Resolve snl_ax_or_new snl_ax_or_new_for snl_append_axes
  snl_ax_imshow snl_colorbar snl_ax_scatter snl_columns_min snl_columns_max
  snl_plot_paths : snl_db.

Lemma snl_box_plot_2d gl b t ax im args kw :
  is2D b = true -> sets_no_lim3d (box_plot gl b t ax im args kw).
Proof. intros E. unfold box_plot. rewrite E. snl_tac. Qed.

Lemma snl_system_plot_2d gl s t ax args kw :
  is2D (sys_box s) = true -> sets_no_lim3d (system_plot gl s t ax args kw).
Proof.
  intros E. unfold system_plot. rewrite E.
  apply snl_bind; [auto with snl_db|]. intros a.
  apply snl_bind; [|intros ?; apply snl_ret].
  apply snl_bind; [now apply snl_box_plot_2d|]. intros _. snl_tac.
Qed.

Lemma snl_bar_plot x h t xl yl ax : sets_no_lim3d (bar_plot x h t xl yl ax).
Proof. unfold bar_plot. snl_tac. Qed.

Lemma snl_clusters_plot {K} (str : K -> string) keys freqs n ax :
  sets_no_lim3d (clusters_plot str keys freqs n ax).
Proof. unfold clusters_plot. apply snl_bar_plot. Qed.

Lemma snl_line_plot x y t xl yl ax : sets_no_lim3d (line_plot x y t xl yl ax).
Proof. unfold line_plot. snl_tac. Qed.

Lemma snl_histogram_plot v t xl yl ax ll : sets_no_lim3d (histogram_plot v t xl yl ax ll).
Proof. unfold histogram_plot. snl_tac. Qed.

Lemma snl_pmft_plot p ax cmap : sets_no_lim3d (pmft_plot p ax cmap).
Proof. unfold pmft_plot. snl_tac. Qed.

Lemma snl_density_plot d b ax : sets_no_lim3d (density_plot d b ax).
Proof. unfold density_plot. snl_tac. Qed.

Lemma snl_voronoi_plot v b ax cb cm : sets_no_lim3d (voronoi_plot v b ax cb cm).
Proof. unfold voronoi_plot, voronoi_draw, voronoi_colors, voronoi_cmap. snl_tac. Qed.

Lemma snl_diffraction_plot d k n ax cm vmin vmax :
  sets_no_lim3d (diffraction_plot d k n ax cm vmin vmax).
Proof. unfold diffraction_plot. snl_tac. Qed.

Lemma adds_none {A} a (c : M A) : sets_no_lim3d c -> keeps c -> adds_lim3d a 0 c.
Proof.
  intros S K w L. split.
  - eapply extends_is_Some; [apply K|exact L].
  - intros r _. rewrite (S w). lia.
Qed.

Lemma adds_bind {A B} a n m (c : M A) (k : A -> M B) :
  adds_lim3d a n c -> (forall x, adds_lim3d a m (k x)) ->
  adds_lim3d a (n + m) (bind c k).
Proof.
  intros Hc Hk w L. rewrite bind_run.
  destruct (Hc w L) as [L1 E1]. destruct (c w) as [[x|e] w1]; simpl in *.
  - destruct (Hk x w1 L1) as [L2 E2]. split; [exact L2|].
    intros r Hr. rewrite (E2 r Hr), (E1 x eq_refl). lia.
  - split; [exact L1|]. intros r Hr. discriminate Hr.
Qed.

Lemma adds_eq {A} a n m (c : M A) : adds_lim3d a n c -> n = m -> adds_lim3d a m c.
Proof. now intros H <-. Qed.

Lemma adds_ax_call3d_lim a what c :
  is_lim3d c = true -> adds_lim3d a 1 (ax_call3d a what c).
Proof.
  intros H w [A HA]. unfold ax_call3d. rewrite HA.
  destruct A as [f [] cs]; simpl.
  - split; [now rewrite HA|]. intros r Hr. discriminate Hr.
  - rewrite list_lookup_alter_eq, HA. simpl. split; [now eexists|].
    intros _ _. unfold lim3d_count. simpl. rewrite lim3d_total_alter.
    apply lookup_lt_Some in HA. unfold lim3d_weight. rewrite H.
    destruct (decide (a < length (axes w))%nat); lia.
Qed.

Lemma adds_set_3d_axes_equal gl a l :
  adds_lim3d a 3 (_set_3d_axes_equal gl a (Some l)).
Proof.
  unfold _set_3d_axes_equal.
  eapply adds_eq.
  - eapply adds_bind; [apply adds_none; [apply snl_ret|apply keeps_ret]|].
    intros l'. eapply adds_bind; [now apply adds_ax_call3d_lim|]. intros _.
    eapply adds_bind; [now apply adds_ax_call3d_lim|]. intros _.
    eapply adds_bind; [now apply adds_ax_call3d_lim|]. intros _.
    apply adds_none; [apply snl_ret|apply keeps_ret].
  - reflexivity.
Qed.

Ltac adds_quiet := apply adds_none; [snl_tac|keeps_tac].

Lemma bind_ret_l {A B} (a : A) (k : A -> M B) : bind (ret a) k = k a.
Proof. reflexivity. Qed.

(** The 3D branch of [box_plot] on the axes object [a]. *)
Lemma adds_box_plot_3d gl b t a im args kw :
  is2D b = false -> adds_lim3d a 3 (box_plot gl b t (Some a) im args kw).
Proof.
  intros E. unfold box_plot. rewrite E. cbv zeta.
  cbn [ax_or_new_for]. rewrite bind_ret_l. eapply adds_eq.
  - eapply adds_bind; [|intros ?; adds_quiet].
    eapply adds_bind; [adds_quiet|]. intros _.
    eapply adds_bind; [adds_quiet|]. intros _.
    eapply adds_bind; [adds_quiet|]. intros _.
    eapply adds_bind; [adds_quiet|]. intros _.
    eapply adds_bind; [apply adds_set_3d_axes_equal|]. intros ?. adds_quiet.
  - reflexivity.
Qed.

(** The 3D branch of [system_plot] on the axes object [a]: one
    equalisation through [box_plot] and one of its own. *)
Lemma adds_system_plot_3d gl s t a args kw :
  is2D (sys_box s) = false -> adds_lim3d a 6 (system_plot gl s t (Some a) args kw).
Proof.
  intros E. unfold system_plot. rewrite E.
  cbn [ax_or_new_for]. rewrite bind_ret_l. eapply adds_eq.
  - eapply adds_bind; [|intros ?; adds_quiet].
    eapply adds_bind; [now apply adds_box_plot_3d|]. intros _.
    eapply adds_bind; [adds_quiet|]. intros sc.
    eapply adds_bind; [adds_quiet|]. intros pmin.
    eapply adds_bind; [adds_quiet|]. intros pmax.
    eapply adds_bind; [apply adds_set_3d_axes_equal|]. intros ?. adds_quiet.
  - reflexivity.
Qed.

(** With no axes supplied, a helper runs as on the new axes object, in the
    store where [ax_or_new_for] has put it. *)
Lemma ax_or_new_for_none_run b w :
  exists w1, ax_or_new_for b None w = (Return (length (axes w)), w1) /\
    is_Some (axes w1 !! length (axes w)) /\
    lim3d_count w1 = lim3d_count w.
Proof.
  pose proof (snl_ax_or_new_for b None w) as S.
  destruct (ax_or_new_for b None w) as [[x|e] w1] eqn:H.
  - destruct (ax_or_new_for_run _ _ _ _ _ H) as (-> & _ & L).
    exists w1. simpl in *. auto.
  - exfalso. revert H. unfold ax_or_new_for, bind, plt_figure. simpl.
    destruct (is2D b); discriminate.
Qed.

Lemma box_plot_none gl b t im args kw w :
  exists w1, ax_or_new_for b None w = (Return (length (axes w)), w1) /\
    (box_plot gl b t None im args kw w =
     box_plot gl b t (Some (length (axes w))) im args kw w1).
Proof.
  destruct (ax_or_new_for_none_run b w) as (w1 & H & _).
  exists w1. split; [exact H|].
  unfold box_plot. cbv zeta. rewrite bind_run, H. reflexivity.
Qed.

Lemma system_plot_none gl s t args kw w :
  exists w1, ax_or_new_for (sys_box s) None w = (Return (length (axes w)), w1) /\
    (system_plot gl s t None args kw w =
     system_plot gl s t (Some (length (axes w))) args kw w1).
Proof.
  destruct (ax_or_new_for_none_run (sys_box s) w) as (w1 & H & _).
  exists w1. split; [exact H|].
  unfold system_plot. rewrite bind_run, H. reflexivity.
Qed.

Lemma box_plot_3d_count gl b t ax im args kw w r w' :
  supplied_ok ax w -> is2D b = false ->
  box_plot gl b t ax im args kw w = (Return r, w') ->
  lim3d_count w' = (lim3d_count w + 3)%nat.
Proof.
  intros ok E H. destruct ax as [a|].
  - destruct (adds_box_plot_3d gl b t a im args kw E w ok) as [_ C].
    rewrite H in C. apply (C r eq_refl).
  - destruct (box_plot_none gl b t im args kw w) as (w1 & H1 & H2).
    destruct (ax_or_new_for_none_run b w) as (w1' & H1' & L & C1).
    rewrite H1 in H1'. injection H1' as <-.
    rewrite H2 in H.
    destruct (adds_box_plot_3d gl b t _ im args kw E w1 L) as [_ C].
    rewrite H in C. specialize (C r eq_refl). simpl in C. lia.
Qed.

Lemma system_plot_3d_count gl s t ax args kw w r w' :
  supplied_ok ax w -> is2D (sys_box s) = false ->
  system_plot gl s t ax args kw w = (Return r, w') ->
  lim3d_count w' = (lim3d_count w + 6)%nat.
Proof.
  intros ok E H. destruct ax as [a|].
  - destruct (adds_system_plot_3d gl s t a args kw E w ok) as [_ C].
    rewrite H in C. apply (C r eq_refl).
  - destruct (system_plot_none gl s t args kw w) as (w1 & H1 & H2).
    destruct (ax_or_new_for_none_run (sys_box s) w) as (w1' & H1' & L & C1).
    rewrite H1 in H1'. injection H1' as <-.
    rewrite H2 in H.
    destruct (adds_system_plot_3d gl s t _ args kw E w1 L) as [_ C].
    rewrite H in C. specialize (C r eq_refl). simpl in C. lia.
Qed.

(** ** [_set_3d_axes_equal] on a 3D axes object *)

Lemma ax_call3d_run a what c w A :
  axes w !! a = Some A -> ax_projection A = ThreeD ->
  ax_call3d a what c w =
    (Return tt, set_axes (<[a := log_call c A]> (axes w)) w) /\
  axes (set_axes (<[a := log_call c A]> (axes w)) w) !! a = Some (log_call c A).
Proof.
  intros HA P. split.
  - unfold ax_call3d. rewrite HA. destruct A as [f p cs]. simpl in P. subst p.
    unfold ax_call, modify. repeat f_equal.
    apply list_eq. intros i. destruct (decide (a = i)) as [->|ne].
    + rewrite list_lookup_alter_eq, HA. simpl.
      rewrite list_lookup_insert_eq; [reflexivity|]. now apply lookup_lt_Some in HA.
    + rewrite list_lookup_alter_ne, list_lookup_insert_ne; auto.
  - simpl. apply list_lookup_insert_eq. now apply lookup_lt_Some in HA.
Qed.

Lemma set_3d_axes_equal_run gl a l w A :
  axes w !! a = Some A -> ax_projection A = ThreeD ->
  exists w', _set_3d_axes_equal gl a (Some l) w = (Return a, w') /\
    calls_of w' a = (ax_calls A ++ equalized_calls l)%list.
Proof.
  intros HA P. unfold _set_3d_axes_equal. rewrite bind_ret_l.
  fold (equal_radius l). unfold px, py, pz. simpl fst. simpl snd.
  set (c1 := SetLim3d AxX _ _). set (c2 := SetLim3d AxY _ _). set (c3 := SetLim3d AxZ _ _).
  destruct (ax_call3d_run a "set_xlim3d" c1 w A HA P) as [E1 H1].
  rewrite bind_run, E1.
  destruct (ax_call3d_run a "set_ylim3d" c2 _ _ H1 P) as [E2 H2].
  rewrite bind_run, E2.
  destruct (ax_call3d_run a "set_zlim3d" c3 _ _ H2 P) as [E3 H3].
  rewrite bind_run, E3.
  eexists. split; [reflexivity|].
  unfold calls_of. rewrite H3. simpl. rewrite <- !app_assoc. reflexivity.
Qed.

(** The interval [c - r, c + r] has width [2 r] and midpoint [c]. *)
Lemma centred_interval (c r : Q) :
  ((c + r) - (c - r) == 2 * r)%Q /\ (((c - r) + (c + r)) / 2 == c)%Q.
Proof. split; field. Qed.

Lemma equal_radius_width l :
  (2 * equal_radius l ==
   Qmax (Qmax (row_width (lim_x l)) (row_width (lim_y l))) (row_width (lim_z l)))%Q.
Proof. unfold equal_radius. field. Qed.

(** ** Clipping *)

Lemma clip_le_hi lo hi x : (clip lo hi x <= hi)%Q.
Proof. unfold clip. apply Q.le_min_r. Qed.

Lemma clip_ge_lo lo hi x : (lo <= hi)%Q -> (lo <= clip lo hi x)%Q.
Proof.
  intros H. unfold clip. apply Q.min_glb; [apply Q.le_max_r|exact H].
Qed.

Lemma Qmax_keep x y : (y <= x)%Q -> Qmax x y = x.
Proof.
  intros H. unfold Qmax, GenericMinMax.gmax.
  destruct (x ?= y)%Q eqn:E; try reflexivity.
  apply Qlt_alt in E. exfalso. apply (Qlt_not_le _ _ E H).
Qed.

Lemma Qmin_keep x y : (x <= y)%Q -> Qmin x y = x.
Proof.
  intros H. unfold Qmin, GenericMinMax.gmin.
  destruct (x ?= y)%Q eqn:E; try reflexivity.
  apply Qgt_alt in E. exfalso. apply (Qlt_not_le _ _ E H).
Qed.

Lemma clip_inside lo hi x : (lo <= x)%Q -> (x <= hi)%Q -> clip lo hi x = x.
Proof.
  intros H1 H2. unfold clip. rewrite (Qmax_keep x lo H1). now apply Qmin_keep.
Qed.

(** ** Computations that leave the array store alone *)

Lemma sa_ret {A} (a : A) : same_arrays (ret a).
Proof. now apply respects_ret. Qed.

Lemma sa_bind {A B} (c : M A) (k : A -> M B) :
  same_arrays c -> (forall a, same_arrays (k a)) -> same_arrays (bind c k).
Proof. apply respects_bind. intros w1 w2 w3 H1 H2. congruence. Qed.

Lemma sa_get_world : same_arrays get_world.
Proof. intros w. reflexivity. Qed.

Lemma sa_plt_figure : same_arrays plt_figure.
Proof. intros w. reflexivity. Qed.

Lemma sa_new_axes fig p : same_arrays (new_axes fig p).
Proof. intros w. reflexivity. Qed.

Lemma sa_ax_call a c : same_arrays (ax_call a c).
Proof. intros w. reflexivity. Qed.

Lemma sa_read_array r : same_arrays (read_array r).
Proof. intros w. reflexivity. Qed.

Create HintDb sa_db.
#[local] Hint Resolve sa_get_world sa_plt_figure sa_new_axes sa_ax_call
  sa_read_array : sa_db.

Ltac sa_tac :=
  repeat first
    [ apply sa_ret
    | solve [auto with sa_db]
    | apply sa_bind; [|intros ?]
    | split_branch ].

Lemma sa_ax_or_new ax : same_arrays (ax_or_new ax).
Proof. unfold ax_or_new, fig_subplots. sa_tac. Qed.

Lemma sa_append_axes a p s d : same_arrays (append_axes a p s d).
Proof. unfold append_axes. sa_tac. Qed.

Lemma sa_ax_imshow a im : same_arrays (ax_imshow a im).
Proof. unfold ax_imshow. sa_tac. Qed.

Lemma sa_colorbar a m l : same_arrays (colorbar a m l).
Proof. unfold colorbar. sa_tac. Qed.

#[local] Hint Resolve sa_ax_or_new sa_append_axes sa_ax_imshow sa_colorbar : sa_db.

(** [np.copy] followed by the in-place replacement of infinities: the new
    array object is the only one written. *)
Lemma copy_then_assign ref w :
  exists w2,
    bind (np_copy ref) (fun r => bind (assign_nan_where_inf r) (fun _ => ret r)) w
      = (Return (length (arrays w)), w2) /\
    arrays w2 =
      (arrays w ++ [List.map (List.map nan_if_inf) (default [] (arrays w !! ref))])%list.
Proof.
  eexists. split; [reflexivity|]. simpl.
  apply list_eq. intros i.
  destruct (decide (i = length (arrays w))) as [->|ne].
  - rewrite list_lookup_alter_eq. rewrite !lookup_app_r by lia.
    rewrite Nat.sub_diag. reflexivity.
  - rewrite list_lookup_alter_ne by auto.
    destruct (decide (i < length (arrays w))%nat).
    + now rewrite !lookup_app_l by lia.
    + rewrite !lookup_app_r by lia.
      destruct (i - length (arrays w))%nat eqn:E; [lia|reflexivity].
Qed.

Lemma pmft_plot_arrays pmft ax cmap w :
  arrays (snd (pmft_plot pmft ax cmap w)) =
  (arrays w ++
   [List.map (List.map nan_if_inf) (default [] (arrays w !! pmft_ref pmft))])%list.
Proof.
  unfold pmft_plot. rewrite bind_run.
  pose proof (sa_ax_or_new ax w) as S0.
  destruct (total_ax_or_new ax w) as [a Ha].
  destruct (ax_or_new ax w) as [[a'|e] w1]; simpl in Ha, S0; [|discriminate].
  simpl. unfold bind at 1. unfold np_copy at 1. unfold bind at 1.
  unfold assign_nan_where_inf, modify.
  match goal with |- arrays (snd (?c ?w2)) = _ =>
    assert (S : same_arrays c) by (destruct (pmft_bounds pmft); sa_tac);
    rewrite (S w2)
  end.
  destruct (copy_then_assign (pmft_ref pmft) w1) as (w2 & E & A).
  injection E as <-. simpl in A. simpl. rewrite S0 in *. exact A.
Qed.

(** ** The image drawn by [diffraction_plot] *)

Lemma np_min_world l w o w' : np_min l w = (o, w') -> w' = w.
Proof. destruct l; simpl; unfold raise, ret; congruence. Qed.

Lemma np_max_world l w o w' : np_max l w = (o, w') -> w' = w.
Proof. destruct l; simpl; unfold raise, ret; congruence. Qed.

Lemma extends_calls_of w w' a :
  extends w w' -> is_Some (axes w !! a) ->
  exists added, calls_of w' a = (calls_of w a ++ added)%list.
Proof.
  intros E [A HA]. destruct (E _ _ HA) as (A' & HA' & _ & _ & added & Hc).
  exists added. unfold calls_of. now rewrite HA, HA'.
Qed.

Lemma diffraction_plot_image d k n ax cm vmin vmax w r w' :
  supplied_ok ax w ->
  diffraction_plot d k n ax cm vmin vmax w = (Return r, w') ->
  exists extent rest,
    calls_of w' r =
      (calls_of w r ++
       Imshow {| im_data := fins (List.map (List.map
                   (clip (diffraction_vmin n vmin) (diffraction_vmax n vmax))) d);
                 im_extent := Some extent;
                 im_interpolation := Some "nearest";
                 im_cmap := Some cm;
                 im_vmin := None;
                 im_vmax := None;
                 im_lognorm := Some (diffraction_vmin n vmin, diffraction_vmax n vmax) |}
       :: rest)%list.
Proof.
  intros ok H. unfold diffraction_plot in H. cbv zeta in H.
  fold (diffraction_vmin n vmin) in H. fold (diffraction_vmax n vmax) in H.
  destruct (ax_or_new_calls ax w ok) as (w1 & E1 & L1 & C1).
  rewrite bind_run, E1 in H.
  apply bind_return_inv in H as (kmin & wa & Hmin & H).
  apply np_min_world in Hmin as Ea. subst wa.
  apply bind_return_inv in H as (kmax & wb & Hmax & H).
  apply np_max_world in Hmax as Eb. subst wb.
  apply bind_return_inv in H as (im & w2 & Him & H).
  unfold ax_imshow in Him. apply bind_return_inv in Him as ([] & w2' & Hc & Hr).
  injection Hr as <- <-.
  match type of Hc with ax_call _ ?c _ = _ =>
    destruct (appends_ax_call (target ax w) c w1 L1) as [L2 C2]
  end.
  rewrite Hc in L2, C2. simpl in L2, C2. specialize (C2 tt eq_refl).
  match type of H with ?c _ = _ =>
    assert (K : keeps c) by keeps_tac;
    assert (R : returning (fun r => r = target ax w) c) by returning_tac
  end.
  pose proof (K w2') as K2. pose proof (R w2' r) as R2. rewrite H in K2, R2.
  simpl in K2, R2. specialize (R2 eq_refl). subst r.
  destruct (extends_calls_of _ _ _ K2 L2) as [added Ha].
  exists (kmin, kmax, kmin, kmax), added.
  rewrite Ha, C2, C1, <- app_assoc. reflexivity.
Qed.

(** ** The image drawn by [pmft_plot] *)

(** One step of a computation that keeps the axes and the arrays. *)
Lemma quiet_step {A} (c : M A) w x w' :
  keeps c -> same_arrays c -> c w = (Return x, w') ->
  extends w w' /\ arrays w' = arrays w.
Proof.
  intros K S H. pose proof (K w) as Kw. pose proof (S w) as Sw.
  rewrite H in Kw, Sw. now split.
Qed.

Lemma pmft_plot_image pmft ax cmap w arr r w' :
  supplied_ok ax w ->
  arrays w !! pmft_ref pmft = Some arr ->
  pmft_plot pmft ax cmap w = (Return r, w') ->
  exists before im rest,
    calls_of w' r = (calls_of w r ++ before ++ Imshow im :: rest)%list /\
    im_data im = flipud (List.map (List.map nan_if_inf) arr).
Proof.
  intros ok Harr H. unfold pmft_plot in H.
  destruct (ax_or_new_calls ax w ok) as (w1 & E1 & L1 & C1).
  pose proof (sa_ax_or_new ax w) as S1. rewrite E1 in S1. simpl in S1.
  rewrite bind_run, E1 in H.
  apply bind_return_inv in H as (pa & wa & Hcopy & H).
  unfold np_copy in Hcopy. injection Hcopy as <- <-.
  apply bind_return_inv in H as ([] & wb & Hassign & H).
  unfold assign_nan_where_inf, modify in Hassign. injection Hassign as <-.
  destruct (pmft_bounds pmft) as [xl yl].
  set (a := target ax w) in *.
  match type of H with _ ?w0 = _ => set (wb := w0) in * end.
  assert (Lb : is_Some (axes wb !! a)) by exact L1.
  assert (Ab : arrays wb !! length (arrays w1) =
               Some (List.map (List.map nan_if_inf) arr)).
  { unfold wb. simpl. rewrite list_lookup_alter_eq.
    rewrite S1.
    rewrite (list_lookup_middle (arrays w) [] _ (length (arrays w)) eq_refl).
    simpl. now rewrite Harr. }
  assert (Inv : extends wb wb /\ arrays wb = arrays wb)
    by (split; [apply extends_refl|reflexivity]).
  revert H Inv. generalize wb at 1 3 4 as wk. intros wk H Inv.
  do 8 (let x := fresh "x" in let wn := fresh "wn" in let Hs := fresh "Hs" in
        apply bind_return_inv in H as (x & wn & Hs & H);
        apply quiet_step in Hs as [? ?]; [|solve [keeps_tac]|solve [sa_tac]];
        assert (Inv' : extends wb wn /\ arrays wn = arrays wb)
          by (split; [eapply extends_trans; [apply Inv|eassumption]
                     |etransitivity; [eassumption|apply Inv]]);
        clear Inv; rename Inv' into Inv).
  destruct Inv as [Ek Ak].
  apply bind_return_inv in H as (data & wr & Hread & H).
  unfold read_array in Hread. injection Hread as <- <-.
  rewrite Ak, Ab in H. simpl default in H.
  apply bind_return_inv in H as (im & wm & Him & H).
  unfold ax_imshow in Him. apply bind_return_inv in Him as ([] & wm' & Hc & Hr).
  injection Hr as <- <-.
  assert (Lk : is_Some (axes wn6 !! a)) by (eapply extends_is_Some; eassumption).
  destruct (extends_calls_of _ _ _ Ek Lb) as [before Hb].
  match type of Hc with ax_call _ ?c _ = _ =>
    destruct (appends_ax_call a c wn6 Lk) as [Lm Cm]
  end.
  rewrite Hc in Lm, Cm. simpl in Lm, Cm. specialize (Cm tt eq_refl).
  match type of H with ?c _ = _ =>
    assert (K : keeps c) by keeps_tac;
    assert (R : returning (fun r => r = a) c) by returning_tac
  end.
  pose proof (K wm') as K2. pose proof (R wm' r) as R2. rewrite H in K2, R2.
  simpl in K2, R2. specialize (R2 eq_refl). subst r.
  destruct (extends_calls_of _ _ _ K2 Lm) as [rest Hrest].
  exists before. eexists. exists rest. split.
  - rewrite Hrest, Cm, Hb. unfold wb at 1. unfold calls_of at 1. simpl axes.
    fold (calls_of w1 a). rewrite C1. now rewrite <- !app_assoc.
  - reflexivity.
Qed.

(** ** [_ax_to_bytes] *)

Lemma ax_to_bytes_run render ax w A F :
  axes w !! ax = Some A ->
  figures w !! ax_figure A = Some F ->
  exists w',
    _ax_to_bytes render ax w =
      (Return (render "png" AggCanvas (figure_axes w (ax_figure A))), w') /\
    io_log w' = io_log w /\
    warnings w' = warnings w /\
    arrays w' = arrays w.
Proof.
  intros HA HF. unfold _ax_to_bytes.
  rewrite bind_run. unfold new_bytesio at 1. cbv iota beta.
  rewrite bind_run. unfold ax_get_figure at 1. simpl axes. rewrite HA.
  rewrite bind_run. unfold FigureCanvasAgg at 1, modify. cbv iota beta.
  rewrite bind_run. unfold savefig at 1. cbv iota beta zeta.
  rewrite bind_run. unfold fig_clf at 1. cbv iota beta zeta.
  unfold getvalue.
  eexists. split.
  - apply (f_equal2 pair); [apply f_equal|reflexivity].
    simpl buffers. rewrite list_lookup_alter_eq.
    match goal with |- context [?l !! length (buffers w)] =>
      replace (l !! length (buffers w)) with (Some ([] : byte_string))
        by (symmetry; apply list_lookup_middle; reflexivity)
    end.
    simpl. unfold figure_canvas, figure_axes. simpl.
    rewrite list_lookup_alter_eq, HF. simpl. reflexivity.
  - repeat split; reflexivity.
Qed.

(** ** Independence from the operating system's entropy *)

Lemma ef_ret {A} (a : A) : entropy_free (ret a).
Proof. intros w e. reflexivity. Qed.

Lemma ef_raise {A} x : entropy_free (@raise A x).
Proof. intros w e. reflexivity. Qed.

Lemma ef_bind {A B} (c : M A) (k : A -> M B) :
  entropy_free c -> (forall a, entropy_free (k a)) -> entropy_free (bind c k).
Proof.
  intros Hc Hk w e. rewrite !bind_run, Hc.
  destruct (c w) as [[a|x] w1]; simpl; [apply Hk|reflexivity].
Qed.

Lemma ef_plt_figure : entropy_free plt_figure.
Proof. intros w e. reflexivity. Qed.

Lemma ef_new_axes fig p : entropy_free (new_axes fig p).
Proof. intros w e. reflexivity. Qed.

Lemma ef_ax_call a c : entropy_free (ax_call a c).
Proof. intros w e. reflexivity. Qed.

Lemma ef_ax_call3d a what c : entropy_free (ax_call3d a what c).
Proof.
  intros w e. unfold ax_call3d. simpl axes.
  destruct (axes w !! a) as [[f [] cs]|]; reflexivity.
Qed.

Lemma ef_warn msg : entropy_free (warn msg).
Proof. intros w e. reflexivity. Qed.

Lemma ef_np_copy r : entropy_free (np_copy r).
Proof. intros w e. reflexivity. Qed.

Lemma ef_assign_nan r : entropy_free (assign_nan_where_inf r).
Proof. intros w e. reflexivity. Qed.

Lemma ef_read_array r : entropy_free (read_array r).
Proof. intros w e. reflexivity. Qed.

Lemma ef_append_axes a p s d : entropy_free (append_axes a p s d).
Proof. intros w e. reflexivity. Qed.

Lemma ef_ax_scatter a xs ys zs args kw : entropy_free (ax_scatter a xs ys zs args kw).
Proof. intros w e. reflexivity. Qed.

Create HintDb ef_db.
#[local] Hint Resolve ef_plt_figure ef_new_axes ef_ax_call ef_ax_call3d ef_warn
  ef_np_copy ef_assign_nan ef_read_array ef_append_axes ef_ax_scatter : ef_db.

Ltac ef_tac :=
  repeat first
    [ apply ef_ret
    | apply ef_raise
    | solve [auto with ef_db]
    | apply ef_bind; [|intros ?]
    | split_branch ].

Lemma ef_np_min l : entropy_free (np_min l).
Proof. unfold np_min. ef_tac. Qed.

Lemma ef_np_max l : entropy_free (np_max l).
Proof. unfold np_max. ef_tac. Qed.

Lemma ef_np_ptp l : entropy_free (np_ptp l).
Proof. unfold np_ptp. ef_tac. Qed.

#[local] Hint Resolve ef_np_min ef_np_max ef_np_ptp : ef_db.

Lemma ef_ax_or_new ax : entropy_free (ax_or_new ax).
Proof. unfold ax_or_new, fig_subplots. ef_tac. Qed.

Lemma ef_ax_or_new_for b ax : entropy_free (ax_or_new_for b ax).
Proof. unfold ax_or_new_for, fig_subplots, fig_add_subplot_3d. ef_tac. Qed.

Lemma ef_ax_imshow a im : entropy_free (ax_imshow a im).
Proof. unfold ax_imshow. ef_tac. Qed.

Lemma ef_colorbar a m l : entropy_free (colorbar a m l).
Proof. unfold colorbar. ef_tac. Qed.

Lemma ef_columns_min ps : entropy_free (columns_min ps).
Proof. unfold columns_min. ef_tac. Qed.

Lemma ef_columns_max ps : entropy_free (columns_max ps).
Proof. unfold columns_max. ef_tac. Qed.

Lemma ef_plot_paths a paths kw : entropy_free (plot_paths a paths kw).
Proof.
  revert kw. induction paths as [|p paths IH]; intros kw; simpl.
  - apply ef_ret.
  - destruct (kwargs_pop "color" "k" kw). apply ef_bind; [auto with ef_db|].
    intros _. apply IH.
Qed.

#[local] Hint Resolve ef_ax_or_new ef_ax_or_new_for ef_ax_imshow ef_colorbar
  ef_columns_min ef_columns_max ef_plot_paths : ef_db.

(** With explicit limits [_set_3d_axes_equal] does not consult the axes. *)
Lemma ef_set_3d_axes_equal gl a l : entropy_free (_set_3d_axes_equal gl a (Some l)).
Proof. unfold _set_3d_axes_equal. ef_tac. Qed.

#[local] Hint Resolve ef_set_3d_axes_equal : ef_db.

Lemma ef_box_plot gl b t ax im args kw : entropy_free (box_plot gl b t ax im args kw).
Proof. unfold box_plot. ef_tac. Qed.

#[local] Hint Resolve ef_box_plot : ef_db.

Lemma ef_system_plot gl s t ax args kw : entropy_free (system_plot gl s t ax args kw).
Proof. unfold system_plot. ef_tac. Qed.

Lemma ef_bar_plot x h t xl yl ax : entropy_free (bar_plot x h t xl yl ax).
Proof. unfold bar_plot. ef_tac. Qed.

Lemma ef_clusters_plot {K} (str : K -> string) keys freqs n ax :
  entropy_free (clusters_plot str keys freqs n ax).
Proof. unfold clusters_plot. apply ef_bar_plot. Qed.

Lemma ef_line_plot x y t xl yl ax : entropy_free (line_plot x y t xl yl ax).
Proof. unfold line_plot. ef_tac. Qed.

Lemma ef_histogram_plot v t xl yl ax ll : entropy_free (histogram_plot v t xl yl ax ll).
Proof. unfold histogram_plot. ef_tac. Qed.

Lemma ef_pmft_plot p ax cmap : entropy_free (pmft_plot p ax cmap).
Proof. unfold pmft_plot. ef_tac. Qed.

Lemma ef_density_plot d b ax : entropy_free (density_plot d b ax).
Proof. unfold density_plot. ef_tac. Qed.

Lemma ef_diffraction_plot d k n ax cm vmin vmax :
  entropy_free (diffraction_plot d k n ax cm vmin vmax).
Proof. unfold diffraction_plot. ef_tac. Qed.

Lemma ef_voronoi_cmap cm cb n : entropy_free (voronoi_cmap cm cb n).
Proof. unfold voronoi_cmap. ef_tac. Qed.

#[local] Hint Resolve ef_voronoi_cmap : ef_db.

(** With a coloring mode given, [voronoi_plot] draws no random numbers. *)
Lemma ef_voronoi_plot_colored v b ax c cm :
  entropy_free (voronoi_plot v b ax (Some c) cm).
Proof. unfold voronoi_plot, voronoi_draw, voronoi_colors. ef_tac. Qed.

(** ** The random permutation is a permutation *)

Lemma lookup_nth_default (x : list nat) i : (i < length x)%nat -> x !! i = Some (nth i x O).
Proof.
  intros H. destruct (lookup_lt_is_Some_2 x i H) as [v Hv].
  rewrite Hv. f_equal. symmetry. now apply nth_lookup_Some.
Qed.

Lemma swap_index_inj i j : Inj (=) (=) (swap_index i j).
Proof.
  intros a b. unfold swap_index.
  repeat destruct (decide _); intros; subst; congruence.
Qed.

(** Exchanging two entries of a list gives a permutation of it. *)
Lemma swap_permutation (x : list nat) i j :
  (i < length x)%nat -> (j < length x)%nat ->
  Permutation (<[j := nth i x O]> (<[i := nth j x O]> x)) x.
Proof.
  intros Hi Hj. apply Permutation_inj. split.
  - now rewrite !length_insert.
  - exists (swap_index i j). split; [apply swap_index_inj|].
    intros k. unfold swap_index. destruct (decide (k = j)) as [->|nj].
    + rewrite list_lookup_insert_eq by now rewrite length_insert.
      symmetry. now apply lookup_nth_default.
    + rewrite list_lookup_insert_ne by auto.
      destruct (decide (k = i)) as [->|ni].
      * rewrite list_lookup_insert_eq by auto.
        symmetry. now apply lookup_nth_default.
      * now rewrite list_lookup_insert_ne by auto.
Qed.

Lemma shuffle_permutation i draws x :
  (i <= length x - 1)%nat -> Permutation (fst (shuffle i draws x)) x.
Proof.
  revert draws x. induction i as [|i IH]; intros draws x Hi.
  - reflexivity.
  - cbn [shuffle].
    assert (Hj : (hd O draws mod S (S i) < length x)%nat).
    { pose proof (Nat.mod_upper_bound (hd O draws) (S (S i))). lia. }
    etransitivity; [apply IH|apply swap_permutation; lia].
    rewrite !length_insert. lia.
Qed.

Lemma random_permutation_run n w :
  exists p rest,
    random_permutation n w = (Return p, set_entropy rest w) /\
    Permutation p (seq 0 n).
Proof.
  unfold random_permutation.
  pose proof (shuffle_permutation (n - 1) (entropy w) (seq 0 n)) as P.
  destruct (shuffle (n - 1) (entropy w) (seq 0 n)) as [p rest].
  exists p, rest. split; [reflexivity|]. apply P. rewrite length_seq. lia.
Qed.

Lemma unique_size_permutation p n : Permutation p (seq 0 n) -> unique_size p = n.
Proof.
  intros P. unfold unique_size.
  rewrite nodup_fixed_point.
  - rewrite (Permutation_length P). apply length_seq.
  - apply (Permutation_NoDup (Permutation_sym P)). apply List.seq_NoDup.
Qed.

Lemma Qmin_take x y : (y < x)%Q -> Qmin x y = y.
Proof.
  intros H. unfold Qmin, GenericMinMax.gmin.
  destruct (x ?= y)%Q eqn:E; try reflexivity.
  - apply Qeq_alt in E. rewrite E in H. exfalso. apply (Qlt_irrefl _ H).
  - apply Qlt_alt in E. exfalso. apply (Qlt_irrefl x). now apply Qlt_trans with y.
Qed.

Lemma Qmax_take x y : (x < y)%Q -> Qmax x y = y.
Proof.
  intros H. unfold Qmax, GenericMinMax.gmax.
  destruct (x ?= y)%Q eqn:E; try reflexivity.
  - apply Qeq_alt in E. rewrite E in H. exfalso. apply (Qlt_irrefl _ H).
  - apply Qgt_alt in E. exfalso. apply (Qlt_irrefl x). now apply Qlt_trans with y.
Qed.

(** The minimum and maximum of the colour values of a permutation. *)
Lemma Qmin_qnat a b : Qmin (qnat a) (qnat b) = qnat (Nat.min a b).
Proof.
  destruct (Nat.le_gt_cases a b) as [H|H].
  - rewrite Nat.min_l by exact H. apply Qmin_keep.
    unfold qnat. rewrite <- Zle_Qle. lia.
  - rewrite Nat.min_r by lia. apply Qmin_take.
    unfold qnat. rewrite <- Zlt_Qlt. lia.
Qed.

Lemma Qmax_qnat a b : Qmax (qnat a) (qnat b) = qnat (Nat.max a b).
Proof.
  destruct (Nat.le_gt_cases b a) as [H|H].
  - rewrite Nat.max_l by exact H. apply Qmax_keep.
    unfold qnat. rewrite <- Zle_Qle. lia.
  - rewrite Nat.max_r by lia. apply Qmax_take.
    unfold qnat. rewrite <- Zlt_Qlt. lia.
Qed.

Lemma min_list_qnat x l :
  min_list (qnat x) (List.map qnat l) = qnat (fold_left Nat.min l x).
Proof.
  unfold min_list. revert x. induction l as [|y l IH]; intros x; simpl.
  - reflexivity.
  - rewrite Qmin_qnat. apply IH.
Qed.

Lemma max_list_qnat x l :
  max_list (qnat x) (List.map qnat l) = qnat (fold_left Nat.max l x).
Proof.
  unfold max_list. revert x. induction l as [|y l IH]; intros x; simpl.
  - reflexivity.
  - rewrite Qmax_qnat. apply IH.
Qed.

(** [fold_left Nat.min] computes the least entry, [fold_left Nat.max] the
    greatest. *)
Lemma fold_min_spec l x :
  In (fold_left Nat.min l x) (x :: l) /\
  forall y, In y (x :: l) -> (fold_left Nat.min l x <= y)%nat.
Proof.
  revert x. induction l as [|z l IH]; intros x; simpl.
  - split; [now left|]. intros y [->|[]]. lia.
  - destruct (IH (Nat.min x z)) as [Hin Hle]. split.
    + destruct Hin as [E|Hin]; [|now right; right].
      rewrite <- E. destruct (Nat.min_spec x z) as [[_ ->]|[_ ->]]; auto.
    + intros y Hy. assert (fold_left Nat.min l (Nat.min x z) <= Nat.min x z)%nat
        by (apply Hle; now left).
      destruct Hy as [->|[->|Hy]]; [lia|lia|]. apply Hle. now right.
Qed.

Lemma fold_max_spec l x :
  In (fold_left Nat.max l x) (x :: l) /\
  forall y, In y (x :: l) -> (y <= fold_left Nat.max l x)%nat.
Proof.
  revert x. induction l as [|z l IH]; intros x; simpl.
  - split; [now left|]. intros y [->|[]]. lia.
  - destruct (IH (Nat.max x z)) as [Hin Hle]. split.
    + destruct Hin as [E|Hin]; [|now right; right].
      rewrite <- E. destruct (Nat.max_spec x z) as [[_ ->]|[_ ->]]; auto.
    + intros y Hy. assert (Nat.max x z <= fold_left Nat.max l (Nat.max x z))%nat
        by (apply Hle; now left).
      destruct Hy as [->|[->|Hy]]; [lia|lia|]. apply Hle. now right.
Qed.

Lemma fold_min_permutation x l x' l' :
  Permutation (x :: l) (x' :: l') -> fold_left Nat.min l x = fold_left Nat.min l' x'.
Proof.
  intros P. destruct (fold_min_spec l x) as [I1 L1], (fold_min_spec l' x') as [I2 L2].
  apply Nat.le_antisymm.
  - apply L1. apply (Permutation_in _ (Permutation_sym P)). exact I2.
  - apply L2. apply (Permutation_in _ P). exact I1.
Qed.

Lemma fold_max_permutation x l x' l' :
  Permutation (x :: l) (x' :: l') -> fold_left Nat.max l x = fold_left Nat.max l' x'.
Proof.
  intros P. destruct (fold_max_spec l x) as [I1 L1], (fold_max_spec l' x') as [I2 L2].
  apply Nat.le_antisymm.
  - apply L2. apply (Permutation_in _ P). exact I1.
  - apply L1. apply (Permutation_in _ (Permutation_sym P)). exact I2.
Qed.

(** [np.min] and [np.max] of the colours do not depend on the order. *)
Lemma np_min_permutation p1 p2 w :
  Permutation p1 p2 -> np_min (List.map qnat p1) w = np_min (List.map qnat p2) w.
Proof.
  intros P. destruct p1 as [|x1 l1], p2 as [|x2 l2]; simpl.
  - reflexivity.
  - now apply Permutation_nil in P.
  - apply Permutation_sym in P. now apply Permutation_nil in P.
  - rewrite !min_list_qnat. now rewrite (fold_min_permutation _ _ _ _ P).
Qed.

Lemma np_max_permutation p1 p2 w :
  Permutation p1 p2 -> np_max (List.map qnat p1) w = np_max (List.map qnat p2) w.
Proof.
  intros P. destruct p1 as [|x1 l1], p2 as [|x2 l2]; simpl.
  - reflexivity.
  - now apply Permutation_nil in P.
  - apply Permutation_sym in P. now apply Permutation_nil in P.
  - rewrite !max_list_qnat. now rewrite (fold_max_permutation _ _ _ _ P).
Qed.

(** ** Stores that agree up to the random colours *)

Lemma alike_ret {A} (a : A) : alike (ret a) (ret a).
Proof. intros w1 w2 H. now split. Qed.

Lemma alike_raise {A} e : alike (@raise A e) (raise e).
Proof. intros w1 w2 H. now split. Qed.

Lemma alike_bind {A B} (c1 c2 : M A) (k1 k2 : A -> M B) :
  alike c1 c2 -> (forall a, alike (k1 a) (k2 a)) -> alike (bind c1 k1) (bind c2 k2).
Proof.
  intros Hc Hk w1 w2 H. rewrite !bind_run.
  destruct (Hc w1 w2 H) as [E S].
  destruct (c1 w1) as [[a1|e1] u1], (c2 w2) as [[a2|e2] u2]; simpl in *;
    try discriminate.
  - injection E as <-. now apply Hk.
  - injection E as <-. now split.
Qed.

Lemma forget_alter c a xs :
  List.map forget_axes (alter (log_call c) a xs) =
  alter (log_call (forget_call c)) a (List.map forget_axes xs).
Proof.
  revert a. induction xs as [|A xs IH]; intros a; [reflexivity|].
  destruct a as [|a]; simpl.
  - f_equal. unfold forget_axes, log_call. simpl. f_equal.
    now rewrite List.map_app.
  - f_equal. apply IH.
Qed.

Lemma alike_ax_call a c1 c2 :
  forget_call c1 = forget_call c2 -> alike (ax_call a c1) (ax_call a c2).
Proof.
  intros E w1 w2 H. split; [reflexivity|].
  injection H as Hf Ha Hr Hb Hw Hi.
  unfold forget_colors. simpl. rewrite !forget_alter, E, Ha.
  now rewrite Hf, Hr, Hb, Hw, Hi.
Qed.

Lemma alike_warn msg : alike (warn msg) (warn msg).
Proof.
  intros w1 w2 H. split; [reflexivity|].
  injection H as Hf Ha Hr Hb Hw Hi.
  unfold forget_colors. simpl. now rewrite Hf, Ha, Hr, Hb, Hw, Hi.
Qed.

Lemma alike_np_min l : alike (np_min l) (np_min l).
Proof. destruct l; [apply alike_raise|apply alike_ret]. Qed.

Lemma alike_np_max l : alike (np_max l) (np_max l).
Proof. destruct l; [apply alike_raise|apply alike_ret]. Qed.

Lemma alike_voronoi_cmap cm cb n : alike (voronoi_cmap cm cb n) (voronoi_cmap cm cb n).
Proof.
  unfold voronoi_cmap.
  repeat first
    [ apply alike_ret | apply alike_warn
    | apply alike_bind; [|intros ?] | split_branch ].
Qed.

Lemma alike_np_min_perm p1 p2 :
  Permutation p1 p2 -> alike (np_min (List.map qnat p1)) (np_min (List.map qnat p2)).
Proof.
  intros P w1 w2 H. rewrite (np_min_permutation p1 p2 w1 P). now apply alike_np_min.
Qed.

Lemma alike_np_max_perm p1 p2 :
  Permutation p1 p2 -> alike (np_max (List.map qnat p1)) (np_max (List.map qnat p2)).
Proof.
  intros P w1 w2 H. rewrite (np_max_permutation p1 p2 w1 P). now apply alike_np_max.
Qed.

(** With random colouring, what [voronoi_draw] adds depends on the
    permutation drawn only through the colour array. *)
Lemma alike_voronoi_draw box ax patches cmap p1 p2 num_colors :
  Permutation p1 p2 ->
  alike (voronoi_draw box ax patches None cmap (List.map qnat p1) num_colors)
        (voronoi_draw box ax patches None cmap (List.map qnat p2) num_colors).
Proof.
  intros P. unfold voronoi_draw.
  apply alike_bind; [apply alike_voronoi_cmap|]. intros cm.
  apply alike_bind; [now apply alike_np_min_perm|]. intros lo.
  apply alike_bind; [now apply alike_np_max_perm|]. intros hi.
  cbv zeta.
  apply alike_bind; [now apply alike_ax_call|]. intros _.
  repeat first
    [ apply alike_ret
    | apply alike_np_min
    | apply alike_np_max
    | apply alike_ax_call; reflexivity
    | apply alike_bind; [|intros ?] ].
Qed.

(** Two runs of [voronoi_plot] with random colouring, from stores that
    differ in the entropy only. *)
Lemma voronoi_plot_random_alike v b ax cm w e1 e2 :
  fst (voronoi_plot v b ax None cm (set_entropy e1 w)) =
  fst (voronoi_plot v b ax None cm (set_entropy e2 w)) /\
  forget_colors (snd (voronoi_plot v b ax None cm (set_entropy e1 w))) =
  forget_colors (snd (voronoi_plot v b ax None cm (set_entropy e2 w))).
Proof.
  unfold voronoi_plot. rewrite !bind_run, !ef_ax_or_new.
  destruct (ax_or_new ax w) as [[a|x] w1]; simpl fst; simpl snd; cbv iota beta;
    [|now split].
  cbv zeta. unfold voronoi_colors. rewrite !bind_run.
  set (n := length (List.map (List.map xy_of) (polytopes v))).
  destruct (random_permutation_run n (set_entropy e1 w1)) as (p1 & r1 & E1 & P1).
  destruct (random_permutation_run n (set_entropy e2 w1)) as (p2 & r2 & E2 & P2).
  rewrite E1, E2. cbv iota beta. unfold ret at 1 3. cbv iota beta.
  rewrite (unique_size_permutation p1 n P1), (unique_size_permutation p2 n P2).
  apply alike_voronoi_draw.
  - now rewrite P1, P2.
  - reflexivity.
Qed.

Lemma nre_voronoi_draw box ax patches cb cm colors n :
  no_runtime_error (voronoi_draw box ax patches cb cm colors n).
Proof. unfold voronoi_draw. nre_tac. Qed.

Lemma nre_voronoi_plot v b ax cb cm :
  cb = Some "sides" \/ cb = Some "area" \/ cb = None ->
  no_runtime_error (voronoi_plot v b ax cb cm).
Proof.
  intros H. unfold voronoi_plot.
  apply nre_bind; [apply nre_total, total_ax_or_new|]. intros a.
  apply nre_bind; [now apply nre_voronoi_colors|]. intros [colors n].
  apply nre_voronoi_draw.
Qed.

(** * The claims *)

(** C1. [voronoi_plot] called with a [color_by] that is neither ["sides"],
    ["area"] nor [None] raises a [RuntimeError] whose message contains the
    invalid value; called with one of these three options it raises no
    [RuntimeError]. *)
Theorem voronoi_plot_color_by_error v b ax cm w :
  (forall c, c <> "sides" -> c <> "area" ->
     exists w',
       voronoi_plot v b ax (Some c) cm w =
         (Raise (RuntimeError (invalid_color_by c)), w') /\
       contains (invalid_color_by c) c) /\
  (forall cb, cb = Some "sides" \/ cb = Some "area" \/ cb = None ->
     forall msg, fst (voronoi_plot v b ax cb cm w) <> Raise (RuntimeError msg)).
Proof.
  split.
  - intros c H1 H2. eexists. split.
    + now apply voronoi_plot_invalid.
    + apply contains_invalid_color_by.
  - intros cb H msg. now apply nre_voronoi_plot.
Qed.

Lemma voronoi_plot_color_by_error_witness :
  "bogus" <> "sides" /\ "bogus" <> "area" /\
  exists w',
    voronoi_plot two_cells (ortho_box true 2 2 0) None (Some "bogus") None
      initial_world =
      (Raise (RuntimeError (invalid_color_by "bogus")), w') /\
    contains (invalid_color_by "bogus") "bogus".
Proof.
  split; [discriminate|]. split; [discriminate|].
  apply (proj1 (voronoi_plot_color_by_error two_cells (ortho_box true 2 2 0)
                  None None initial_world)); discriminate.
Defined.

(** C10. When [voronoi_plot] raises the [RuntimeError] for an invalid
    [color_by], a caller-supplied axes object is unchanged: the store after
    the call is the store before it. *)
Theorem voronoi_plot_error_atomic v b a c cm w :
  c <> "sides" -> c <> "area" ->
  voronoi_plot v b (Some a) (Some c) cm w =
    (Raise (RuntimeError (invalid_color_by c)), w).
Proof. intros H1 H2. now rewrite voronoi_plot_invalid. Qed.

Lemma voronoi_plot_error_atomic_witness :
  "bogus" <> "sides" /\ "bogus" <> "area" /\
  voronoi_plot two_cells (ortho_box true 2 2 0) (Some O) (Some "bogus") None world_2d =
    (Raise (RuntimeError (invalid_color_by "bogus")), world_2d).
Proof.
  split; [discriminate|]. split; [discriminate|].
  apply voronoi_plot_error_atomic; discriminate.
Defined.

Lemma contract_returns_supplied {R} (proj : R -> nat) f :
  axes_contract proj f -> returns_supplied_axes proj f.
Proof.
  intros [T E L] ax w r w' H. pose proof (T _ _ _ _ H) as Hr.
  destruct ax as [a|]; simpl in Hr.
  - split; [exact Hr|]. intros A HA.
    pose proof (E (Some a) w) as X. rewrite H in X. now apply X.
  - split.
    + rewrite Hr. now apply lookup_ge_None_2.
    + now apply (L None w r w').
Qed.

(** C2. Each of the ten plotting helpers, given an axes object, returns
    that same object, to which it has only added calls; given [None], it
    returns a newly created axes object. *)
Theorem plot_helpers_return_supplied_axes :
  (forall gl b t im args kw,
     returns_supplied_axes id (fun ax => box_plot gl b t ax im args kw)) /\
  (forall gl s t args kw,
     returns_supplied_axes fst (fun ax => system_plot gl s t ax args kw)) /\
  (forall x h t xl yl,
     returns_supplied_axes id (fun ax => bar_plot x h t xl yl ax)) /\
  (forall K (str : K -> string) keys freqs n,
     returns_supplied_axes id (fun ax => clusters_plot str keys freqs n ax)) /\
  (forall x y t xl yl,
     returns_supplied_axes id (fun ax => line_plot x y t xl yl ax)) /\
  (forall v t xl yl ll,
     returns_supplied_axes id (fun ax => histogram_plot v t xl yl ax ll)) /\
  (forall p cmap,
     returns_supplied_axes id (fun ax => pmft_plot p ax cmap)) /\
  (forall d b,
     returns_supplied_axes id (fun ax => density_plot d b ax)) /\
  (forall v b cb cm,
     returns_supplied_axes id (fun ax => voronoi_plot v b ax cb cm)) /\
  (forall d k n cm vmin vmax,
     returns_supplied_axes id (fun ax => diffraction_plot d k n ax cm vmin vmax)).
Proof.
  repeat split; intros; apply contract_returns_supplied.
  - apply box_plot_contract.
  - apply system_plot_contract.
  - apply bar_plot_contract.
  - apply clusters_plot_contract.
  - apply line_plot_contract.
  - apply histogram_plot_contract.
  - apply pmft_plot_contract.
  - apply density_plot_contract.
  - apply voronoi_plot_contract.
  - apply diffraction_plot_contract.
Qed.

(** C3. Each of the ten plotting helpers, whenever it does not raise,
    returns an existing axes object ([system_plot] paired with the scatter
    handle). *)
Theorem plot_helpers_return_live_axes :
  (forall gl b t im args kw,
     returns_live_axes id (fun ax => box_plot gl b t ax im args kw)) /\
  (forall gl s t args kw,
     returns_live_axes fst (fun ax => system_plot gl s t ax args kw)) /\
  (forall x h t xl yl,
     returns_live_axes id (fun ax => bar_plot x h t xl yl ax)) /\
  (forall K (str : K -> string) keys freqs n,
     returns_live_axes id (fun ax => clusters_plot str keys freqs n ax)) /\
  (forall x y t xl yl,
     returns_live_axes id (fun ax => line_plot x y t xl yl ax)) /\
  (forall v t xl yl ll,
     returns_live_axes id (fun ax => histogram_plot v t xl yl ax ll)) /\
  (forall p cmap,
     returns_live_axes id (fun ax => pmft_plot p ax cmap)) /\
  (forall d b,
     returns_live_axes id (fun ax => density_plot d b ax)) /\
  (forall v b cb cm,
     returns_live_axes id (fun ax => voronoi_plot v b ax cb cm)) /\
  (forall d k n cm vmin vmax,
     returns_live_axes id (fun ax => diffraction_plot d k n ax cm vmin vmax)).
Proof.
  repeat split; intros; intros ax w r w';
    [ apply (contract_live _ _ (box_plot_contract gl b t im args kw))
    | apply (contract_live _ _ (system_plot_contract gl s t args kw))
    | apply (contract_live _ _ (bar_plot_contract x h t xl yl))
    | apply (contract_live _ _ (clusters_plot_contract str keys freqs n))
    | apply (contract_live _ _ (line_plot_contract x y t xl yl))
    | apply (contract_live _ _ (histogram_plot_contract v t xl yl ll))
    | apply (contract_live _ _ (pmft_plot_contract p cmap))
    | apply (contract_live _ _ (density_plot_contract d b))
    | apply (contract_live _ _ (voronoi_plot_contract v b cb cm))
    | apply (contract_live _ _ (diffraction_plot_contract d k n cm vmin vmax)) ].
Qed.

Lemma plot_helpers_return_supplied_axes_witness :
  let run := bar_plot [VInt 1] [VInt 2] None None None (Some O) world_2d in
  run = (Return O, snd run) /\
  (id O = O /\
   forall A, axes world_2d !! O = Some A ->
     exists A', axes (snd run) !! O = Some A' /\ grown A A').
Proof.
  split; [reflexivity|].
  exact (proj1 (proj2 (proj2 plot_helpers_return_supplied_axes))
           [VInt 1] [VInt 2] None None None (Some O) world_2d O _ eq_refl).
Defined.

Lemma plot_helpers_return_live_axes_witness :
  let run := bar_plot [VInt 1] [VInt 2] None None None (Some O) world_2d in
  supplied_ok (Some O) world_2d /\
  run = (Return O, snd run) /\
  is_Some (axes (snd run) !! id O).
Proof.
  assert (ok : supplied_ok (Some O) world_2d) by (now eexists).
  split; [exact ok|]. split; [reflexivity|].
  exact (proj1 (proj2 (proj2 plot_helpers_return_live_axes))
           [VInt 1] [VInt 2] None None None (Some O) world_2d O _ ok eq_refl).
Defined.

(** C4 as stated fails: two calls of [voronoi_plot] with [color_by=None] on
    the same inputs and the same axes state, one with the operating system
    delivering the draw 0 and one the draw 1, add patch collections with
    different colour arrays. *)
Lemma voronoi_plot_random_colors_differ :
  calls_of (snd (voronoi_plot two_cells (ortho_box true 2 2 0) (Some O) None None
                   (set_entropy [0%nat] world_2d))) O <>
  calls_of (snd (voronoi_plot two_cells (ortho_box true 2 2 0) (Some O) None None
                   (set_entropy [1%nat] world_2d))) O.
Proof. vm_compute. intros H. discriminate H. Qed.

(** C4, amended. Every plotting helper is deterministic, [voronoi_plot]
    with [color_by=None] apart: its outcome and what it adds to the store
    do not depend on the entropy of the operating system, which it leaves
    untouched.  [voronoi_plot] with [color_by=None] colours the cells by a
    random permutation: two calls on identical inputs have the same outcome
    and add the same drawn elements up to the colour array of the patch
    collection. *)
Theorem helpers_deterministic_up_to_random_colors :
  (forall gl b t ax im args kw, entropy_free (box_plot gl b t ax im args kw)) /\
  (forall gl s t ax args kw, entropy_free (system_plot gl s t ax args kw)) /\
  (forall x h t xl yl ax, entropy_free (bar_plot x h t xl yl ax)) /\
  (forall K (str : K -> string) keys freqs n ax,
     entropy_free (clusters_plot str keys freqs n ax)) /\
  (forall x y t xl yl ax, entropy_free (line_plot x y t xl yl ax)) /\
  (forall v t xl yl ax ll, entropy_free (histogram_plot v t xl yl ax ll)) /\
  (forall p ax cmap, entropy_free (pmft_plot p ax cmap)) /\
  (forall d b ax, entropy_free (density_plot d b ax)) /\
  (forall d k n ax cm vmin vmax,
     entropy_free (diffraction_plot d k n ax cm vmin vmax)) /\
  (forall v b ax c cm, entropy_free (voronoi_plot v b ax (Some c) cm)) /\
  (forall v b ax cm w e1 e2,
     fst (voronoi_plot v b ax None cm (set_entropy e1 w)) =
     fst (voronoi_plot v b ax None cm (set_entropy e2 w)) /\
     forget_colors (snd (voronoi_plot v b ax None cm (set_entropy e1 w))) =
     forget_colors (snd (voronoi_plot v b ax None cm (set_entropy e2 w)))).
Proof.
  repeat match goal with |- _ /\ _ => split end; intros.
  - apply ef_box_plot.
  - apply ef_system_plot.
  - apply ef_bar_plot.
  - apply ef_clusters_plot.
  - apply ef_line_plot.
  - apply ef_histogram_plot.
  - apply ef_pmft_plot.
  - apply ef_density_plot.
  - apply ef_diffraction_plot.
  - apply ef_voronoi_plot_colored.
  - apply voronoi_plot_random_alike.
Qed.

(** C5. [_ax_to_bytes], given an axes object of the store, returns what the
    library renders for the figure of that object in the format ["png"],
    on an Agg canvas; the rendering goes to an in-memory buffer and nothing
    is added to the log of file and network operations. *)
Theorem ax_to_bytes_png_in_memory render ax w A F :
  axes w !! ax = Some A ->
  figures w !! ax_figure A = Some F ->
  exists w',
    _ax_to_bytes render ax w =
      (Return (render "png" AggCanvas (figure_axes w (ax_figure A))), w') /\
    io_log w' = io_log w.
Proof.
  intros HA HF. destruct (ax_to_bytes_run render ax w A F HA HF) as (w' & E & I & _).
  now exists w'.
Qed.

Lemma ax_to_bytes_png_in_memory_witness :
  axes world_2d !! O =
    Some {| ax_figure := O; ax_projection := Rectilinear; ax_calls := [] |} /\
  figures world_2d !! O = Some {| fig_axes := [O]; fig_canvas := DefaultCanvas |} /\
  exists w',
    _ax_to_bytes toy_render O world_2d =
      (Return (toy_render "png" AggCanvas (figure_axes world_2d O)), w') /\
    io_log w' = io_log world_2d.
Proof.
  split; [reflexivity|]. split; [reflexivity|].
  exact (ax_to_bytes_png_in_memory toy_render O world_2d _ _ eq_refl eq_refl).
Defined.

(** C6. [pmft_plot] leaves the array behind [pmft.pmft] as it was: the
    only change to the array store is one new array, the copy in which
    infinite entries are replaced by NaN, and it is this copy (with its
    rows flipped) that the image drawn on the axes displays. *)
Theorem pmft_plot_keeps_input pmft ax cmap w arr :
  arrays w !! pmft_ref pmft = Some arr ->
  arrays (snd (pmft_plot pmft ax cmap w)) !! pmft_ref pmft = Some arr /\
  arrays (snd (pmft_plot pmft ax cmap w)) =
    (arrays w ++ [List.map (List.map nan_if_inf) arr])%list /\
  (forall r w',
     supplied_ok ax w ->
     pmft_plot pmft ax cmap w = (Return r, w') ->
     exists before im rest,
       calls_of w' r = (calls_of w r ++ before ++ Imshow im :: rest)%list /\
       im_data im = flipud (List.map (List.map nan_if_inf) arr)).
Proof.
  intros H. rewrite pmft_plot_arrays, H. simpl. split; [|split; [reflexivity|]].
  - now apply lookup_app_l_Some.
  - intros r w' ok R. now apply (pmft_plot_image pmft ax cmap w arr r w').
Qed.

Lemma pmft_plot_keeps_input_witness :
  let pmft := {| pmft_ref := O; pmft_bounds := ((-1, 1), (-1, 1))%Q |} in
  let arr := [[Fin 1; PosInf]; [NegInf; NaN]] in
  let run := pmft_plot pmft None "viridis" world_2d in
  arrays world_2d !! pmft_ref pmft = Some arr /\
  supplied_ok None world_2d /\
  run = (Return 1%nat, snd run) /\
  arrays (snd run) !! pmft_ref pmft = Some arr /\
  arrays (snd run) = (arrays world_2d ++ [[[Fin 1; NaN]; [NaN; NaN]]])%list /\
  exists before im rest,
    calls_of (snd run) 1%nat =
      (calls_of world_2d 1%nat ++ before ++ Imshow im :: rest)%list /\
    im_data im = [[NaN; NaN]; [Fin 1; NaN]].
Proof.
  pose proof (pmft_plot_keeps_input
                {| pmft_ref := O; pmft_bounds := ((-1, 1), (-1, 1))%Q |}
                None "viridis" world_2d _ eq_refl) as (H1 & H2 & H3).
  split; [reflexivity|]. split; [exact I|]. split; [reflexivity|].
  split; [exact H1|]. split; [exact H2|].
  exact (H3 1%nat _ I eq_refl).
Defined.

Lemma set_3d_axes_equal_widths gl a l w A :
  axes w !! a = Some A -> ax_projection A = ThreeD ->
  exists w' lx hx ly hy lz hz,
    _set_3d_axes_equal gl a (Some l) w = (Return a, w') /\
    calls_of w' a =
      (ax_calls A ++ [SetLim3d AxX lx hx; SetLim3d AxY ly hy; SetLim3d AxZ lz hz])%list /\
    let '((xmin, xmax), (ymin, ymax), (zmin, zmax)) := l in
    let width := Qmax (Qmax (xmax - xmin) (ymax - ymin)) (zmax - zmin) in
    (hx - lx == width /\ hy - ly == width /\ hz - lz == width /\
     (lx + hx) / 2 == (xmin + xmax) / 2 /\
     (ly + hy) / 2 == (ymin + ymax) / 2 /\
     (lz + hz) / 2 == (zmin + zmax) / 2)%Q.
Proof.
  intros HA P. destruct (set_3d_axes_equal_run gl a l w A HA P) as (w' & E & C).
  exists w'. do 6 eexists. split; [exact E|]. split; [exact C|].
  destruct l as [[[xmin xmax] [ymin ymax]] [zmin zmax]].
  pose proof (equal_radius_width ((xmin, xmax), (ymin, ymax), (zmin, zmax))) as R.
  unfold lim_x, lim_y, lim_z, row_width in R. simpl in R.
  unfold lim_x, lim_y, lim_z, row_mean. simpl fst. simpl snd.
  repeat split.
  - etransitivity; [apply centred_interval|exact R].
  - etransitivity; [apply centred_interval|exact R].
  - etransitivity; [apply centred_interval|exact R].
  - apply centred_interval.
  - apply centred_interval.
  - apply centred_interval.
Qed.





Lemma ascending_neg_nonincreasing {A} (f : A -> Z) l :
  ascending (fun x => - f x) l -> StronglySorted (fun p q => f q <= f p) l.
Proof.
  unfold ascending. induction 1 as [|x l S IH F]; constructor.
  - exact IH.
  - eapply List.Forall_impl; [|exact F]. simpl. intros y Hy. lia.
Qed.

Lemma length_take_min {A} n (l : list A) : length (firstn n l) = Nat.min n (length l).
Proof.
  revert l. induction n as [|n IH]; intros [|x l]; simpl; auto.
Qed.

(** C9. [clusters_plot] draws one bar chart whose bars are the
    [min(num_clusters_to_plot, number of clusters)] clusters of largest
    frequency: the plotted and the remaining clusters together are the
    given ones, no remaining cluster is more frequent than a plotted one,
    the bars come in non-increasing order of frequency, and each bar is
    labeled by [str] of its key. *)
Theorem clusters_plot_top_clusters {K} (str : K -> string) keys freqs n ax w r w' :
  supplied_ok ax w ->
  clusters_plot str keys freqs n ax w = (Return r, w') ->
  let clusters := List.map (fun kf => (snd kf, fst kf)) (zip keys freqs) in
  exists plotted rest title xlabel ylabel,
    Permutation (plotted ++ rest)%list clusters /\
    length plotted = Nat.min n (length clusters) /\
    (length keys = length freqs -> length plotted = Nat.min n (length keys)) /\
    (forall p q, In p plotted -> In q rest -> fst q <= fst p) /\
    StronglySorted (fun p q => fst q <= fst p) plotted /\
    calls_of w' r =
      (calls_of w r ++
       [Bar (List.map VStr (List.map (fun p => str (snd p)) plotted))
            (List.map VInt (List.map fst plotted));
        SetTitle title; SetLabel AxX xlabel; SetLabel AxY ylabel;
        SetXticks (List.map VStr (List.map (fun p => str (snd p)) plotted));
        SetXticklabels (List.map VStr (List.map (fun p => str (snd p)) plotted))])%list.
Proof.
  intros ok H clusters. unfold clusters_plot in H. cbv zeta in H.
  apply (bar_plot_spec _ _ _ _ _ ax w r w' ok) in H as [Hr Hc].
  pose proof (sorted_perm (fun x : Z * K => - fst x) clusters) as P.
  pose proof (sorted_ascending (fun x : Z * K => - fst x) clusters) as S.
  fold clusters in Hc. unfold count_sorted in Hc. fold clusters in Hc.
  set (cs := sorted (fun x : Z * K => - fst x) clusters) in *.
  exists (firstn n cs), (skipn n cs). do 3 eexists.
  split; [now rewrite firstn_skipn|].
  assert (L : length (firstn n cs) = Nat.min n (length clusters)).
  { rewrite length_take_min. now rewrite (Permutation_length P). }
  split; [exact L|]. split.
  { intros E. rewrite L. unfold clusters. rewrite length_map, zip_length. lia. }
  split.
  { intros p q Hp Hq.
    pose proof (ascending_firstn_skipn (fun x : Z * K => - fst x) n cs p q S Hp Hq).
    simpl in *. lia. }
  split.
  { apply ascending_neg_nonincreasing. now apply ascending_firstn. }
  exact Hc.
Qed.

Lemma clusters_plot_top_clusters_witness :
  let run := clusters_plot key_name [1; 2; 3; 4]%nat [5; 7; 5; 9] 3 None initial_world in
  let clusters := [(5, 1%nat); (7, 2%nat); (5, 3%nat); (9, 4%nat)] in
  supplied_ok None initial_world /\
  run = (Return O, snd run) /\
  exists plotted rest title xlabel ylabel,
    Permutation (plotted ++ rest)%list clusters /\
    length plotted = Nat.min 3 (length clusters) /\
    (length [1; 2; 3; 4]%nat = length [5; 7; 5; 9] ->
     length plotted = Nat.min 3 (length [1; 2; 3; 4]%nat)) /\
    (forall p q, In p plotted -> In q rest -> fst q <= fst p) /\
    StronglySorted (fun p q => fst q <= fst p) plotted /\
    calls_of (snd run) O =
      (calls_of initial_world O ++
       [Bar (List.map VStr (List.map (fun p => key_name (snd p)) plotted))
            (List.map VInt (List.map fst plotted));
        SetTitle title; SetLabel AxX xlabel; SetLabel AxY ylabel;
        SetXticks (List.map VStr (List.map (fun p => key_name (snd p)) plotted));
        SetXticklabels
          (List.map VStr (List.map (fun p => key_name (snd p)) plotted))])%list.
Proof.
  split; [exact I|]. split; [reflexivity|].
  exact (clusters_plot_top_clusters key_name [1; 2; 3; 4]%nat [5; 7; 5; 9] 3 None
           initial_world O _ I eq_refl).
Defined.

(** On the inputs of the witness, the three bars are the clusters 4, 2 and
    1, in this order. *)
Example clusters_plot_example :
  calls_of (snd (clusters_plot key_name [1; 2; 3; 4]%nat [5; 7; 5; 9] 3 None
                   initial_world)) O =
  [Bar [VStr "cluster-4"; VStr "cluster-2"; VStr "cluster-1"] [VInt 9; VInt 7; VInt 5];
   SetTitle (Some "Cluster Frequency");
   SetLabel AxX (Some "Keys of 3 largest clusters (total clusters: 4)");
   SetLabel AxY (Some "Number of particles");
   SetXticks [VStr "cluster-4"; VStr "cluster-2"; VStr "cluster-1"];
   SetXticklabels [VStr "cluster-4"; VStr "cluster-2"; VStr "cluster-1"]].
Proof. reflexivity. Qed.

(** * Further properties of the helpers *)

(** ** Exact traces on one axes object *)

Lemma runs_ret {X} p a (x : X) (Q : X -> list Call -> Prop) :
  Q x [] -> runs p a (ret x) Q.
Proof.
  intros H w cs0 At. exists x, w, []. rewrite app_nil_r. auto.
Qed.

Lemma runs_bind {X Y} p a (c : M X) (k : X -> M Y) P (Q : Y -> list Call -> Prop) :
  runs p a c P ->
  (forall x cs1, P x cs1 -> runs p a (k x) (fun y cs2 => Q y (cs1 ++ cs2)%list)) ->
  runs p a (bind c k) Q.
Proof.
  intros Hc Hk w cs0 At.
  destruct (Hc w cs0 At) as (x & w1 & cs1 & E1 & At1 & P1).
  destruct (Hk x cs1 P1 w1 _ At1) as (y & w2 & cs2 & E2 & At2 & Q2).
  exists y, w2, (cs1 ++ cs2)%list. rewrite bind_run, E1, app_assoc. auto.
Qed.

Lemma runs_weaken {X} p a (c : M X) (P Q : X -> list Call -> Prop) :
  runs p a c P -> (forall x cs, P x cs -> Q x cs) -> runs p a c Q.
Proof.
  intros H PQ w cs0 At. destruct (H w cs0 At) as (x & w' & cs & E & At' & Px).
  exists x, w', cs. auto.
Qed.

Lemma fails_raise {X} p a e (Q : exn -> list Call -> Prop) :
  Q e [] -> fails p a (@raise X e) Q.
Proof.
  intros H w cs0 At. exists e, w, []. rewrite app_nil_r. auto.
Qed.

Lemma fails_bind_now {X Y} p a (c : M X) (k : X -> M Y) Q :
  fails p a c Q -> fails p a (bind c k) Q.
Proof.
  intros Hc w cs0 At. destruct (Hc w cs0 At) as (e & w1 & cs & E & At1 & Q1).
  exists e, w1, cs. rewrite bind_run, E. auto.
Qed.

Lemma fails_bind_later {X Y} p a (c : M X) (k : X -> M Y) P Q :
  runs p a c P ->
  (forall x cs1, P x cs1 -> fails p a (k x) (fun e cs2 => Q e (cs1 ++ cs2)%list)) ->
  fails p a (bind c k) Q.
Proof.
  intros Hc Hk w cs0 At.
  destruct (Hc w cs0 At) as (x & w1 & cs1 & E1 & At1 & P1).
  destruct (Hk x cs1 P1 w1 _ At1) as (e & w2 & cs2 & E2 & At2 & Q2).
  exists e, w2, (cs1 ++ cs2)%list. rewrite bind_run, E1, app_assoc. auto.
Qed.

Lemma at_axes_log p a cs c w :
  at_axes p a cs w ->
  at_axes p a (cs ++ [c])%list (set_axes (alter (log_call c) a (axes w)) w).
Proof.
  intros (A & HA & P & C). exists (log_call c A). simpl.
  rewrite list_lookup_alter_eq, HA. simpl. rewrite C. auto.
Qed.

Lemma at_axes_log_other p a a' cs c w :
  a' <> a -> at_axes p a cs w ->
  at_axes p a cs (set_axes (alter (log_call c) a' (axes w)) w).
Proof.
  intros ne (A & HA & P & C). exists A. simpl.
  rewrite list_lookup_alter_ne by exact ne. auto.
Qed.

Lemma runs_ax_call p a c (Q : unit -> list Call -> Prop) :
  Q tt [c] -> runs p a (ax_call a c) Q.
Proof.
  intros H w cs0 At. exists tt, (set_axes (alter (log_call c) a (axes w)) w), [c].
  split; [reflexivity|]. split; [now apply at_axes_log|exact H].
Qed.

Lemma runs_ax_call_other p a a' c (Q : unit -> list Call -> Prop) :
  a' <> a -> Q tt [] -> runs p a (ax_call a' c) Q.
Proof.
  intros ne H w cs0 At. exists tt, (set_axes (alter (log_call c) a' (axes w)) w), [].
  rewrite app_nil_r. split; [reflexivity|]. split; [now apply at_axes_log_other|exact H].
Qed.

Lemma runs_ax_call3d a what c (Q : unit -> list Call -> Prop) :
  Q tt [c] -> runs ThreeD a (ax_call3d a what c) Q.
Proof.
  intros H w cs0 At. pose proof At as (A & HA & P & C).
  exists tt, (set_axes (alter (log_call c) a (axes w)) w), [c].
  split; [|split; [now apply at_axes_log|exact H]].
  unfold ax_call3d. rewrite HA. destruct A as [f pr cs]. simpl in P. now subst pr.
Qed.

(** On a 2D axes object the 3D-only method is missing. *)
Lemma fails_ax_call3d a what c (Q : exn -> list Call -> Prop) :
  Q (AttributeError what) [] -> fails Rectilinear a (ax_call3d a what c) Q.
Proof.
  intros H w cs0 At. pose proof At as (A & HA & P & C).
  exists (AttributeError what), w, []. rewrite app_nil_r.
  split; [|auto]. unfold ax_call3d. rewrite HA.
  destruct A as [f pr cs]. simpl in P. now subst pr.
Qed.

Lemma runs_np_min p a x l (Post : Q -> list Call -> Prop) :
  Post (min_list x l) [] -> runs p a (np_min (x :: l)) Post.
Proof. intros H. now apply runs_ret. Qed.

Lemma runs_np_max p a x l (Post : Q -> list Call -> Prop) :
  Post (max_list x l) [] -> runs p a (np_max (x :: l)) Post.
Proof. intros H. now apply runs_ret. Qed.

Lemma fails_np_min p a (Post : exn -> list Call -> Prop) :
  Post (zero_size "minimum") [] -> fails p a (np_min []) Post.
Proof. intros H. unfold np_min. now apply fails_raise. Qed.

Lemma runs_ax_call_eq p a c : runs p a (ax_call a c) (fun _ cs => cs = [c]).
Proof. now apply runs_ax_call. Qed.

Lemma runs_ax_call3d_eq a what c :
  runs ThreeD a (ax_call3d a what c) (fun _ cs => cs = [c]).
Proof. now apply runs_ax_call3d. Qed.

(** Steps through a chain of calls on the axes object under study. *)
Ltac runs_step :=
  first
    [ eapply runs_bind; [apply runs_ax_call_eq|]; intros ? ? ->
    | eapply runs_bind; [apply runs_ax_call3d_eq|]; intros ? ? -> ].

(** ** The edges drawn by [box_plot] for a 3D box *)

Lemma kwargs_get_del k kw : kwargs_get k (kwargs_del k kw) = None.
Proof.
  induction kw as [|[k' v] kw IH]; simpl; [reflexivity|].
  destruct (String.eqb k k') eqn:E; simpl; [exact IH|].
  now rewrite E.
Qed.

Lemma runs_plot_paths_black p a paths kw :
  kwargs_get "color" kw = None ->
  runs p a (plot_paths a paths kw)
    (fun _ cs => cs = List.map (edge_call "k") paths).
Proof.
  revert kw. induction paths as [|path paths IH]; intros kw H; simpl.
  - now apply runs_ret.
  - unfold kwargs_pop. rewrite H.
    eapply runs_bind; [apply runs_ax_call_eq|]. intros _ cs1 ->.
    eapply runs_weaken; [apply IH, kwargs_get_del|].
    intros _ cs ->. reflexivity.
Qed.

(** Only the first path is drawn in the caller's colour: the keyword is
    popped from the dictionary in the first iteration. *)
Lemma runs_plot_paths p a path paths kw :
  runs p a (plot_paths a (path :: paths) kw)
    (fun _ cs => cs = edge_call (color_or_black kw) path
                        :: List.map (edge_call "k") paths).
Proof.
  cbn [plot_paths]. unfold kwargs_pop.
  eapply runs_bind; [apply runs_ax_call_eq|]. intros _ cs1 ->.
  eapply runs_weaken; [apply runs_plot_paths_black, kwargs_get_del|].
  intros _ cs ->. reflexivity.
Qed.

Lemma runs_set_3d_axes_equal gl a l :
  runs ThreeD a (_set_3d_axes_equal gl a (Some l))
    (fun x cs => x = a /\ cs = equalized_calls l).
Proof.
  unfold _set_3d_axes_equal. rewrite bind_ret_l.
  repeat runs_step. apply runs_ret. split; reflexivity.
Qed.

Lemma runs_box_plot_3d gl b t a im args kw :
  is2D b = false ->
  runs ThreeD a (box_plot gl b t (Some a) im args kw)
    (fun x cs => x = a /\ cs = box_plot_3d_calls b im kw).
Proof.
  intros E. unfold box_plot. rewrite E. cbv zeta.
  cbn [ax_or_new_for]. rewrite bind_ret_l.
  apply (runs_bind _ _ _ _ (fun _ cs => cs = box_plot_3d_calls b im kw)).
  - eapply runs_bind; [apply runs_plot_paths|]. intros _ cs1 ->.
    repeat runs_step.
    eapply runs_bind; [apply runs_set_3d_axes_equal|]. intros r cs2 [-> ->].
    apply runs_ret. unfold box_plot_3d_calls. cbn [box_paths List.map].
    rewrite app_nil_r. reflexivity.
  - intros [] cs1 ->. apply runs_ret. split; [reflexivity|apply app_nil_r].
Qed.

(** X1. For a 3D box drawn on a 3D axes object, [box_plot] draws the six
    edge paths of the box, the first in the colour given by the [color]
    keyword (black without it) and the five others always in black; it
    then labels the three axes and equalises their limits between the
    first and the last corner.  Positional and other keyword arguments are
    not passed on. *)
Theorem box_plot_3d_edge_colors gl b t a im args kw w cs0 :
  is2D b = false ->
  at_axes ThreeD a cs0 w ->
  exists w' first others,
    box_paths b im = first :: others /\ length others = 5%nat /\
    box_plot gl b t (Some a) im args kw w = (Return a, w') /\
    at_axes ThreeD a
      (cs0 ++
       edge_call (color_or_black kw) first :: List.map (edge_call "k") others ++
       [SetLabel AxX (Some "$x$"); SetLabel AxY (Some "$y$");
        SetLabel AxZ (Some "$z$")] ++
       equalized_calls (box_limits b im))%list w'.
Proof.
  intros E At.
  destruct (runs_box_plot_3d gl b t a im args kw E w cs0 At)
    as (x & w' & cs & R & At' & -> & ->).
  exists w'. do 2 eexists. split; [reflexivity|]. split; [reflexivity|].
  split; [exact R|]. exact At'.
Qed.

Lemma box_plot_3d_edge_colors_witness :
  is2D (ortho_box false 2 2 2) = false /\
  at_axes ThreeD O [] world_3d /\
  exists w' first others,
    box_paths (ortho_box false 2 2 2) None = first :: others /\
    length others = 5%nat /\
    box_plot no_lim3d (ortho_box false 2 2 2) None (Some O) None []
      [("color", "r")] world_3d = (Return O, w') /\
    at_axes ThreeD O
      ([] ++
       edge_call (color_or_black [("color", "r")]) first
         :: List.map (edge_call "k") others ++
       [SetLabel AxX (Some "$x$"); SetLabel AxY (Some "$y$");
        SetLabel AxZ (Some "$z$")] ++
       equalized_calls (box_limits (ortho_box false 2 2 2) None))%list w'.
Proof.
  assert (At : at_axes ThreeD O [] world_3d) by (eexists; repeat split; reflexivity).
  split; [reflexivity|]. split; [exact At|].
  exact (box_plot_3d_edge_colors no_lim3d (ortho_box false 2 2 2) None O None []
           [("color", "r")] world_3d [] eq_refl At).
Defined.

(** ** The equalised limits contain the given ones *)

Lemma Qmax3_ge a b c :
  (a <= Qmax (Qmax a b) c /\ b <= Qmax (Qmax a b) c /\ c <= Qmax (Qmax a b) c)%Q.
Proof.
  repeat split.
  - eapply Qle_trans; [apply Q.le_max_l|apply Q.le_max_l].
  - eapply Qle_trans; [apply Q.le_max_r|apply Q.le_max_l].
  - apply Q.le_max_r.
Qed.

(** An interval [lo, hi] lies within [c - r, c + r] when [c] is its
    midpoint and [2 r] is at least its width. *)
Lemma centred_contains lo hi r :
  (hi - lo <= 2 * r)%Q ->
  ((lo + hi) / 2 - r <= lo /\ hi <= (lo + hi) / 2 + r)%Q.
Proof.
  intros H.
  assert (E : ((lo + hi) / 2 == (1 # 2) * (lo + hi))%Q) by field.
  rewrite E. split; lra.
Qed.

Lemma equalized_contains l :
  let '((xmin, xmax), (ymin, ymax), (zmin, zmax)) := l in
  (row_mean (lim_x l) - equal_radius l <= xmin /\
   xmax <= row_mean (lim_x l) + equal_radius l /\
   row_mean (lim_y l) - equal_radius l <= ymin /\
   ymax <= row_mean (lim_y l) + equal_radius l /\
   row_mean (lim_z l) - equal_radius l <= zmin /\
   zmax <= row_mean (lim_z l) + equal_radius l)%Q.
Proof.
  destruct l as [[[xmin xmax] [ymin ymax]] [zmin zmax]].
  pose proof (equal_radius_width ((xmin, xmax), (ymin, ymax), (zmin, zmax))) as R.
  set (r := equal_radius _) in *.
  unfold lim_x, lim_y, lim_z, row_width, row_mean in *. simpl fst in *. simpl snd in *.
  destruct (Qmax3_ge (xmax - xmin) (ymax - ymin) (zmax - zmin)) as (Hx & Hy & Hz).
  rewrite <- R in Hx, Hy, Hz.
  destruct (centred_contains xmin xmax r Hx), (centred_contains ymin ymax r Hy),
    (centred_contains zmin zmax r Hz).
  repeat split; assumption.
Qed.



(** ** The view of a 3D system *)

Lemma min_list_le x l : (min_list x l <= x)%Q /\ forall y, In y l -> (min_list x l <= y)%Q.
Proof.
  unfold min_list. revert x. induction l as [|z l IH]; intros x; simpl.
  - split; [apply Qle_refl|tauto].
  - destruct (IH (Qmin x z)) as [H1 H2]. split.
    + eapply Qle_trans; [exact H1|apply Q.le_min_l].
    + intros y [<-|Hy]; [|now apply H2].
      eapply Qle_trans; [exact H1|apply Q.le_min_r].
Qed.

Lemma max_list_ge x l : (x <= max_list x l)%Q /\ forall y, In y l -> (y <= max_list x l)%Q.
Proof.
  unfold max_list. revert x. induction l as [|z l IH]; intros x; simpl.
  - split; [apply Qle_refl|tauto].
  - destruct (IH (Qmax x z)) as [H1 H2]. split.
    + eapply Qle_trans; [apply Q.le_max_l|exact H1].
    + intros y [<-|Hy]; [|now apply H2].
      eapply Qle_trans; [apply Q.le_max_r|exact H1].
Qed.

Lemma runs_ax_scatter p a xs ys zs args kw :
  runs p a (ax_scatter a xs ys zs args kw)
    (fun sc cs => fst sc = a /\ cs = [Scatter xs ys zs args kw]).
Proof.
  intros w cs0 At. unfold ax_scatter. rewrite bind_run. cbn [get_world].
  rewrite bind_run. cbn [ax_call modify]. cbv iota beta.
  eexists. eexists. exists [Scatter xs ys zs args kw].
  split; [reflexivity|]. split; [now apply at_axes_log|]. split; reflexivity.
Qed.

Lemma runs_columns_min pr a p ps :
  runs pr a (columns_min (p :: ps)) (fun m cs => m = points_min p ps /\ cs = []).
Proof. unfold columns_min. cbn [List.map np_min]. rewrite !bind_ret_l. now apply runs_ret. Qed.

Lemma runs_columns_max pr a p ps :
  runs pr a (columns_max (p :: ps)) (fun m cs => m = points_max p ps /\ cs = []).
Proof. unfold columns_max. cbn [List.map np_max]. rewrite !bind_ret_l. now apply runs_ret. Qed.

Lemma runs_system_plot_3d gl s t a args kw p ps :
  is2D (sys_box s) = false ->
  sys_points s = p :: ps ->
  runs ThreeD a (system_plot gl s t (Some a) args kw)
    (fun r cs =>
       fst r = a /\
       cs = (box_plot_3d_calls (sys_box s) None [] ++
             [scatter3d_call (p :: ps) args kw] ++
             equalized_calls (system_limits (sys_box s) p ps))%list).
Proof.
  intros E Hp. unfold system_plot. rewrite E, Hp.
  cbn [ax_or_new_for]. rewrite bind_ret_l.
  apply (runs_bind _ _ _ _
           (fun _ cs => cs = (box_plot_3d_calls (sys_box s) None [] ++
                              [scatter3d_call (p :: ps) args kw] ++
                              equalized_calls (system_limits (sys_box s) p ps))%list)).
  - eapply runs_bind; [now apply runs_box_plot_3d|]. intros x cs1 [-> ->].
    eapply runs_bind; [apply runs_ax_scatter|]. intros sc cs2 [Hsc ->].
    eapply runs_bind; [apply runs_columns_min|]. intros pmin cs3 [-> ->].
    eapply runs_bind; [apply runs_columns_max|]. intros pmax cs4 [-> ->].
    eapply runs_bind; [apply runs_set_3d_axes_equal|]. intros r cs5 [-> ->].
    apply runs_ret. rewrite !app_nil_r. reflexivity.
  - intros sc cs1 ->. apply runs_ret. split; [reflexivity|apply app_nil_r].
Qed.

Lemma system_limits_contain box p ps q :
  In q (p :: ps) ->
  let '((lx, hx), (ly, hy), (lz, hz)) := system_limits box p ps in
  (lx <= px q /\ px q <= hx /\ ly <= py q /\ py q <= hy /\
   lz <= pz q /\ pz q <= hz)%Q.
Proof.
  intros Hq. unfold system_limits, points_min, points_max, px at 3 6, py at 3 6, pz at 3 6.
  cbn [fst snd].
  assert (B : forall f : point3 -> Q,
            (min_list (f p) (List.map f ps) <= f q /\
             f q <= max_list (f p) (List.map f ps))%Q).
  { intros f. destruct (min_list_le (f p) (List.map f ps)) as [m1 m2].
    destruct (max_list_ge (f p) (List.map f ps)) as [M1 M2].
    destruct Hq as [<-|Hq]; [auto|].
    split; [apply m2|apply M2]; now apply List.in_map. }
  destruct (B px) as [x1 x2], (B py) as [y1 y2], (B pz) as [z1 z2].
  repeat split;
    first [ eapply Qle_trans; [apply Q.le_min_r|eassumption]
          | eapply Qle_trans; [eassumption|apply Q.le_max_r] ].
Qed.



Lemma fails_system_plot_3d_empty gl s t a args kw :
  is2D (sys_box s) = false ->
  sys_points s = [] ->
  fails ThreeD a (system_plot gl s t (Some a) args kw)
    (fun e cs =>
       e = zero_size "minimum" /\
       cs = (box_plot_3d_calls (sys_box s) None [] ++
             [scatter3d_call [] args kw])%list).
Proof.
  intros E Hp. unfold system_plot. rewrite E, Hp.
  cbn [ax_or_new_for]. rewrite bind_ret_l.
  apply fails_bind_now.
  eapply fails_bind_later; [now apply runs_box_plot_3d|]. intros x cs1 [-> ->].
  eapply fails_bind_later; [apply runs_ax_scatter|]. intros sc cs2 [Hsc ->].
  apply fails_bind_now. unfold columns_min. apply fails_bind_now.
  apply fails_np_min. rewrite app_nil_r. split; reflexivity.
Qed.



(** ** Clusters of equal frequency *)

Lemma insert_by_with_key {A} (key : A -> Z) k x l :
  with_key key k (insert_by key x l) = with_key key k (x :: l).
Proof.
  unfold with_key. induction l as [|y l IH]; [reflexivity|].
  cbn [insert_by]. destruct (key x <=? key y) eqn:E; [reflexivity|].
  cbn [List.filter] in *. rewrite IH.
  destruct (key x =? k) eqn:Ex, (key y =? k) eqn:Ey; try reflexivity.
  apply Z.eqb_eq in Ex, Ey. apply Z.leb_gt in E. lia.
Qed.

(** [sorted] is stable. *)
Lemma sorted_with_key {A} (key : A -> Z) k l :
  with_key key k (sorted key l) = with_key key k l.
Proof.
  induction l as [|x l IH]; [reflexivity|].
  cbn [sorted]. rewrite insert_by_with_key. unfold with_key in *.
  cbn [List.filter]. now rewrite IH.
Qed.

(** X5. [clusters_plot] breaks ties by position: the bars are the first
    [num_clusters_to_plot] entries of an ordering of the clusters in which
    the clusters of any one frequency come in the order in which they were
    given. *)
Theorem clusters_plot_ties_keep_order {K} (str : K -> string) keys freqs n ax w r w' :
  supplied_ok ax w ->
  clusters_plot str keys freqs n ax w = (Return r, w') ->
  exists order title xlabel ylabel,
    (forall f, List.filter (fun c => fst c =? f) order =
               List.filter (fun c => fst c =? f)
                 (List.map (fun kf => (snd kf, fst kf)) (zip keys freqs))) /\
    calls_of w' r =
      (calls_of w r ++
       bar_plot_calls
         (List.map VStr (List.map (fun c => str (snd c)) (firstn n order)))
         (List.map VInt (List.map fst (firstn n order)))
         title xlabel ylabel)%list.
Proof.
  intros ok H. unfold clusters_plot in H. cbv zeta in H.
  apply (bar_plot_spec _ _ _ _ _ ax w r w' ok) in H as [Hr Hc].
  exists (count_sorted keys freqs). do 3 eexists. split; [|exact Hc].
  intros f. unfold count_sorted.
  pose proof (sorted_with_key (fun x : Z * K => - fst x) (- f)
                (List.map (fun kf => (snd kf, fst kf)) (zip keys freqs))) as S.
  unfold with_key in S.
  assert (E : forall l : list (Z * K),
            List.filter (fun c => fst c =? f) l =
            List.filter (fun x => - fst x =? - f) l).
  { intros l. apply List.filter_ext. intros c.
    destruct (fst c =? f) eqn:E1, (- fst c =? - f) eqn:E2; try reflexivity.
    - apply Z.eqb_eq in E1. apply Z.eqb_neq in E2. lia.
    - apply Z.eqb_neq in E1. apply Z.eqb_eq in E2. lia. }
  rewrite !E. exact S.
Qed.

Lemma clusters_plot_ties_keep_order_witness :
  let run := clusters_plot key_name [1; 2; 3; 4]%nat [5; 7; 5; 9] 3 None initial_world in
  supplied_ok None initial_world /\
  run = (Return O, snd run) /\
  exists order title xlabel ylabel,
    (forall f, List.filter (fun c => fst c =? f) order =
               List.filter (fun c => fst c =? f)
                 (List.map (fun kf => (snd kf, fst kf))
                    (zip [1; 2; 3; 4]%nat [5; 7; 5; 9]))) /\
    calls_of (snd run) O =
      (calls_of initial_world O ++
       bar_plot_calls
         (List.map VStr (List.map (fun c => key_name (snd c)) (firstn 3 order)))
         (List.map VInt (List.map fst (firstn 3 order)))
         title xlabel ylabel)%list.
Proof.
  split; [exact I|]. split; [reflexivity|].
  exact (clusters_plot_ties_keep_order key_name [1; 2; 3; 4]%nat [5; 7; 5; 9] 3 None
           initial_world O _ I eq_refl).
Defined.

(** ** Empty input of [diffraction_plot] *)

(** X6. [diffraction_plot] called with an empty array of k values raises
    the [ValueError] of [np.min] before anything is drawn: the store is
    left as [ax_or_new] made it, and a supplied axes object is untouched. *)
Theorem diffraction_plot_no_k_values d n ax cm vmin vmax w :
  diffraction_plot d [] n ax cm vmin vmax w =
    (Raise (zero_size "minimum"), snd (ax_or_new ax w)) /\
  (forall a,
     diffraction_plot d [] n (Some a) cm vmin vmax w =
       (Raise (zero_size "minimum"), w)).
Proof.
  split; [|reflexivity].
  unfold diffraction_plot. cbv zeta. rewrite bind_run.
  destruct (total_ax_or_new ax w) as [a Ha].
  destruct (ax_or_new ax w) as [[a'|e] w1]; simpl in Ha; [|discriminate].
  reflexivity.
Qed.

(** ** The warning of [voronoi_plot] *)

Lemma sw_ret {A} (a : A) : same_warnings (ret a).
Proof. now apply respects_ret. Qed.

Lemma sw_raise {A} e : same_warnings (@raise A e).
Proof. now apply respects_raise. Qed.

Lemma sw_bind {A B} (c : M A) (k : A -> M B) :
  same_warnings c -> (forall a, same_warnings (k a)) -> same_warnings (bind c k).
Proof. apply respects_bind. intros w1 w2 w3 H1 H2. congruence. Qed.

Lemma sw_get_world : same_warnings get_world.
Proof. intros w. reflexivity. Qed.

Lemma sw_plt_figure : same_warnings plt_figure.
Proof. intros w. reflexivity. Qed.

Lemma sw_new_axes fig p : same_warnings (new_axes fig p).
Proof. intros w. reflexivity. Qed.

Lemma sw_ax_call a c : same_warnings (ax_call a c).
Proof. intros w. reflexivity. Qed.

Lemma sw_random_permutation n : same_warnings (random_permutation n).
Proof.
  intros w. unfold random_permutation.
  now destruct (shuffle (n - 1) (entropy w) (seq 0 n)).
Qed.

Create HintDb sw_db.
#[local] Hint Resolve sw_get_world sw_plt_figure sw_new_axes sw_ax_call
  sw_random_permutation : sw_db.

Ltac sw_tac :=
  repeat first
    [ apply sw_ret
    | apply sw_raise
    | solve [auto with sw_db]
    | apply sw_bind; [|intros ?]
    | split_branch ].

Lemma sw_np_min l : same_warnings (np_min l).
Proof. unfold np_min. sw_tac. Qed.

Lemma sw_np_max l : same_warnings (np_max l).
Proof. unfold np_max. sw_tac. Qed.

Lemma sw_np_ptp l : same_warnings (np_ptp l).
Proof. unfold np_ptp. sw_tac. Qed.

Lemma sw_ax_or_new ax : same_warnings (ax_or_new ax).
Proof. unfold ax_or_new, fig_subplots. sw_tac. Qed.

Lemma sw_append_axes a p s d : same_warnings (append_axes a p s d).
Proof. unfold append_axes. sw_tac. Qed.

Lemma sw_colorbar a m l : same_warnings (colorbar a m l).
Proof. unfold colorbar. sw_tac. Qed.

#[local] Hint Resolve sw_np_min sw_np_max sw_np_ptp sw_ax_or_new sw_append_axes
  sw_colorbar : sw_db.

Lemma sw_voronoi_colors v n cb : same_warnings (voronoi_colors v n cb).
Proof. unfold voronoi_colors. sw_tac. Qed.

(** After the choice of the colormap nothing in [voronoi_draw] warns. *)
Lemma voronoi_draw_warnings box a patches cb cm colors num w :
  warnings (snd (voronoi_draw box a patches cb cm colors num w)) =
  warnings (snd (voronoi_cmap cm cb num w)).
Proof.
  unfold voronoi_draw. rewrite bind_run.
  destruct (voronoi_cmap cm cb num w) as [[c|e] w1]; [|reflexivity].
  cbv zeta. cbn [snd].
  match goal with |- warnings (snd (?c ?w1)) = _ =>
    assert (S : same_warnings c) by sw_tac; apply (S w1)
  end.
Qed.

(** The warnings after [voronoi_plot], in terms of the colours chosen. *)
Lemma voronoi_plot_warnings v b ax cb cm w :
  match voronoi_colors v (length (polytopes v)) cb (snd (ax_or_new ax w)) with
  | (Return (colors, num), w2) =>
      warnings (snd (voronoi_plot v b ax cb cm w)) =
      warnings (snd (voronoi_cmap cm cb num w2))
  | (Raise _, _) => warnings (snd (voronoi_plot v b ax cb cm w)) = warnings w
  end.
Proof.
  unfold voronoi_plot. rewrite bind_run.
  pose proof (sw_ax_or_new ax w) as S0.
  destruct (total_ax_or_new ax w) as [a Ha].
  destruct (ax_or_new ax w) as [[a'|e] w1]; simpl in Ha, S0; [|discriminate].
  cbv zeta. cbn [snd]. rewrite bind_run, length_map.
  pose proof (sw_voronoi_colors v (length (polytopes v)) cb w1) as S1.
  destruct (voronoi_colors v (length (polytopes v)) cb w1) as [[[colors num]|e] w2];
    simpl in S1.
  - apply voronoi_draw_warnings.
  - cbn [snd]. congruence.
Qed.

Lemma Qle_bool_qnat n m : Qle_bool (qnat n) (inject_Z (Z.of_nat m)) = (n <=? m)%nat.
Proof.
  destruct (n <=? m)%nat eqn:E.
  - apply Qle_bool_iff. unfold qnat. rewrite <- Zle_Qle.
    apply Nat.leb_le in E. lia.
  - apply Nat.leb_gt in E. destruct (Qle_bool (qnat n) (inject_Z (Z.of_nat m))) eqn:F;
      [|reflexivity].
    apply Qle_bool_iff in F. unfold qnat in F. rewrite <- Zle_Qle in F. lia.
Qed.

Lemma qnat_span lo hi :
  (lo <= hi)%nat -> (qnat hi - qnat lo + 1 == qnat (hi - lo + 1))%Q.
Proof.
  intros H. unfold qnat.
  replace (Z.of_nat (hi - lo + 1)) with (Z.of_nat hi - Z.of_nat lo + 1) by lia.
  rewrite inject_Z_plus. unfold Zminus. rewrite inject_Z_plus, inject_Z_opp.
  reflexivity.
Qed.

Lemma Qle_bool_span lo hi m :
  (lo <= hi)%nat ->
  Qle_bool (qnat hi - qnat lo + 1) (inject_Z (Z.of_nat m)) = (hi - lo + 1 <=? m)%nat.
Proof.
  intros H. rewrite <- (Qle_bool_qnat (hi - lo + 1) m).
  destruct (Qle_bool (qnat (hi - lo + 1)) (inject_Z (Z.of_nat m))) eqn:E.
  - apply Qle_bool_iff. apply Qle_bool_iff in E. now rewrite (qnat_span lo hi H).
  - destruct (Qle_bool (qnat hi - qnat lo + 1) (inject_Z (Z.of_nat m))) eqn:F;
      [|reflexivity].
    apply Qle_bool_iff in F. rewrite (qnat_span lo hi H) in F.
    apply Qle_bool_iff in F. congruence.
Qed.

(** X7. The warning about more than 20 colours: [voronoi_plot] never warns
    when the caller names a colormap or colours by area; with random
    colours and no colormap it warns exactly when there are more than 20
    cells; colouring by sides without a colormap, it warns exactly when the
    numbers of sides span more than 20 values. *)
Theorem voronoi_plot_warns_above_20_colors v b ax w :
  (forall cb c, warnings (snd (voronoi_plot v b ax cb (Some c) w)) = warnings w) /\
  (forall cm, warnings (snd (voronoi_plot v b ax (Some "area") cm w)) = warnings w) /\
  warnings (snd (voronoi_plot v b ax None None w)) =
    (warnings w ++
     if (20 <? length (polytopes v))%nat then [many_colors_warning] else [])%list /\
  (forall s ss, side_counts v = s :: ss ->
     warnings (snd (voronoi_plot v b ax (Some "sides") None w)) =
       (warnings w ++
        if (20 <? fold_left Nat.max ss s - fold_left Nat.min ss s + 1)%nat
        then [many_colors_warning] else [])%list).
Proof.
  pose proof (sw_ax_or_new ax w) as S0. simpl in S0.
  split; [|split; [|split]].
  - intros cb c. pose proof (voronoi_plot_warnings v b ax cb (Some c) w) as H.
    pose proof (sw_voronoi_colors v (length (polytopes v)) cb (snd (ax_or_new ax w))) as S1.
    destruct (voronoi_colors _ _ _ _) as [[[colors num]|e] w2]; simpl in S1;
      [|exact H].
    rewrite H. simpl. congruence.
  - intros cm. pose proof (voronoi_plot_warnings v b ax (Some "area") cm w) as H.
    cbn in H. rewrite H. destruct cm; simpl; exact S0.
  - pose proof (voronoi_plot_warnings v b ax None None w) as H.
    unfold voronoi_colors in H. rewrite bind_run in H.
    destruct (random_permutation_run (length (polytopes v)) (snd (ax_or_new ax w)))
      as (p & rest & E & P).
    rewrite E in H. cbn [ret] in H. rewrite H.
    rewrite (unique_size_permutation p _ P).
    unfold voronoi_cmap. cbn [is_continuous negb default andb]. unfold id.
    change 20%Q with (inject_Z (Z.of_nat 20)). rewrite Qle_bool_qnat.
    rewrite Nat.ltb_antisym.
    destruct (length (polytopes v) <=? 20)%nat; simpl.
    + rewrite S0. now rewrite app_nil_r.
    + now rewrite S0.
  - intros s ss Hs.
    pose proof (voronoi_plot_warnings v b ax (Some "sides") None w) as H.
    unfold voronoi_colors in H. cbn [String.eqb Ascii.eqb Bool.eqb] in H.
    unfold side_counts in Hs.
    assert (Ec : List.map (fun poly => qnat (length poly)) (polytopes v) =
                 List.map qnat (s :: ss)).
    { rewrite <- Hs, List.map_map. reflexivity. }
    rewrite Ec in H. cbn [List.map np_ptp] in H. rewrite bind_ret_l in H.
    cbn [ret] in H. rewrite H. clear H.
    rewrite max_list_qnat, min_list_qnat.
    assert (L : (fold_left Nat.min ss s <= fold_left Nat.max ss s)%nat).
    { destruct (fold_min_spec ss s) as [_ m], (fold_max_spec ss s) as [_ M].
      etransitivity; [apply m|apply M]; now left. }
    unfold voronoi_cmap.
    cbn [is_continuous continuous_colorby_options existsb String.eqb Ascii.eqb
           Bool.eqb orb negb default andb]. unfold id.
    change 10%Q with (inject_Z (Z.of_nat 10)).
    change 20%Q with (inject_Z (Z.of_nat 20)).
    rewrite !(Qle_bool_span _ _ _ L), Nat.ltb_antisym.
    set (span := (fold_left Nat.max ss s - fold_left Nat.min ss s + 1)%nat).
    destruct (span <=? 10)%nat eqn:E10.
    + apply Nat.leb_le in E10.
      assert (E20 : (span <=? 20)%nat = true) by (apply Nat.leb_le; lia).
      rewrite E20. simpl. rewrite S0. now rewrite app_nil_r.
    + destruct (span <=? 20)%nat; simpl.
      * rewrite S0. now rewrite app_nil_r.
      * now rewrite S0.
Qed.

Lemma voronoi_plot_warns_above_20_colors_witness :
  side_counts two_cells = [3; 3]%nat /\
  warnings (snd (voronoi_plot two_cells (ortho_box true 2 2 0) None (Some "sides")
                   None initial_world)) =
    (warnings initial_world ++
     if (20 <? fold_left Nat.max [3%nat] 3%nat - fold_left Nat.min [3%nat] 3%nat + 1)%nat
     then [many_colors_warning] else [])%list.
Proof.
  split; [reflexivity|].
  exact (proj2 (proj2 (proj2 (voronoi_plot_warns_above_20_colors two_cells
                                (ortho_box true 2 2 0) None initial_world)))
           3%nat [3%nat] eq_refl).
Defined.

(** ** The colours of [voronoi_plot] *)

Lemma at_axes_same_axes p a cs w w' :
  axes w' = axes w -> at_axes p a cs w -> at_axes p a cs w'.
Proof. intros E (A & HA & H). exists A. now rewrite E. Qed.

Lemma runs_warn p a msg : runs p a (warn msg) (fun _ cs => cs = []).
Proof.
  intros w cs0 At. eexists tt, _, []. rewrite app_nil_r.
  split; [reflexivity|]. split; [|reflexivity].
  now apply (at_axes_same_axes p a cs0 w).
Qed.

Lemma runs_random_permutation p a n :
  runs p a (random_permutation n)
    (fun perm cs => Permutation perm (seq 0 n) /\ cs = []).
Proof.
  intros w cs0 At. destruct (random_permutation_run n w) as (perm & rest & E & P).
  exists perm, (set_entropy rest w), []. rewrite app_nil_r.
  split; [exact E|]. split; [|auto].
  now apply (at_axes_same_axes p a cs0 w).
Qed.

Lemma runs_voronoi_cmap p a cm cb n :
  runs p a (voronoi_cmap cm cb n) (fun c cs => c = chosen_cmap cm cb n /\ cs = []).
Proof.
  unfold voronoi_cmap, chosen_cmap. destruct cm as [c|]; [now apply runs_ret|].
  destruct (is_continuous cb); cbn [negb]; [now apply runs_ret|].
  destruct (_ && _); [now apply runs_ret|].
  eapply runs_bind.
  - destruct (negb _); [apply runs_warn|apply runs_ret; reflexivity].
  - intros _ cs1 ->. now apply runs_ret.
Qed.

Lemma runs_voronoi_draw_uncolored p a box patches cm x l num :
  runs p a (voronoi_draw box a patches None cm (x :: l) num)
    (fun r cs =>
       r = a /\
       exists rest,
         cs = AddCollection
                (voronoi_collection patches (x :: l) (chosen_cmap cm None num) num
                   (min_list x l) (max_list x l)) :: rest).
Proof.
  unfold voronoi_draw.
  eapply runs_bind; [apply runs_voronoi_cmap|]. intros c cs1 [-> ->].
  cbn [np_min np_max]. rewrite !bind_ret_l. cbv zeta.
  eapply runs_bind; [apply runs_ax_call_eq|]. intros _ cs1 ->.
  cbn [List.map square_corners np_min np_max].
  repeat first [ runs_step | rewrite bind_ret_l ].
  apply runs_ret. split; [reflexivity|]. eexists. reflexivity.
Qed.

Lemma permutation_range_extremes x l n :
  Permutation (x :: l) (seq 0 n) ->
  fold_left Nat.min l x = O /\ fold_left Nat.max l x = (n - 1)%nat /\ (0 < n)%nat.
Proof.
  intros P.
  assert (N : (0 < n)%nat).
  { apply Permutation_length in P. rewrite length_seq in P. simpl in P. lia. }
  destruct (fold_min_spec l x) as [Im Lm], (fold_max_spec l x) as [IM LM].
  assert (In0 : In O (x :: l)).
  { apply (Permutation_in _ (Permutation_sym P)). apply in_seq. lia. }
  assert (InN : In (n - 1)%nat (x :: l)).
  { apply (Permutation_in _ (Permutation_sym P)). apply in_seq. lia. }
  apply (Permutation_in _ P), in_seq in IM.
  specialize (Lm _ In0). specialize (LM _ InN). lia.
Qed.

Lemma arange_unit_steps lo n :
  (0 < n)%nat ->
  let bounds := arange lo (lo + inject_Z (Z.of_nat n)) in
  length bounds = n /\
  (hd 0 bounds == lo)%Q /\
  (List.last bounds 0 == lo + inject_Z (Z.of_nat n) - 1)%Q.
Proof.
  intros N. unfold arange.
  assert (E : Z.to_nat (Qceiling (lo + inject_Z (Z.of_nat n) - lo)) = n).
  { assert (Q : (lo + inject_Z (Z.of_nat n) - lo == inject_Z (Z.of_nat n))%Q) by ring.
    rewrite Q, Qceiling_Z. lia. }
  rewrite E. destruct n as [|k]; [lia|].
  cbv zeta. split; [now rewrite length_map, length_seq|]. split.
  - simpl. ring.
  - rewrite seq_S, List.map_app. simpl List.map. rewrite last_last.
    simpl Nat.add. rewrite Nat2Z.inj_succ. unfold Z.succ.
    rewrite inject_Z_plus. ring.
Qed.

(** X8. With [color_by=None] and at least one cell, [voronoi_plot] on a
    supplied axes object succeeds and first adds the patch collection: its
    colour values are those of a permutation of [0, ..., n-1] (each shifted
    by one half), so that the [n] cells get [n] distinct values; the
    colormap is built with [n] entries, named ["tab20"] unless the caller
    names one; the colour limits are [-1/2] and [n - 1/2]. *)
Theorem voronoi_plot_random_colors_distinct v b a cm w p cs0 :
  polytopes v <> [] ->
  at_axes p a cs0 w ->
  let n := length (polytopes v) in
  exists w' perm pc rest lo hi,
    voronoi_plot v b (Some a) None cm w = (Return a, w') /\
    at_axes p a (cs0 ++ AddCollection pc :: rest)%list w' /\
    Permutation perm (seq 0 n) /\
    pc_array pc = List.map (fun c => qnat c - (1 # 2))%Q perm /\
    List.NoDup perm /\
    pc_cmap pc =
      Some {| cmap_name := Some (default "tab20" cm); cmap_lut := Some (qnat n) |} /\
    pc_clim pc = Some (lo, hi) /\
    (lo == - (1 # 2))%Q /\ (hi == qnat n - (1 # 2))%Q.
Proof.
  intros Hne At n. unfold voronoi_plot. cbn [ax_or_new]. rewrite bind_ret_l.
  cbv zeta. rewrite length_map. fold n.
  assert (R : runs p a
                (cn <- voronoi_colors v n None ;;
                 let '(colors, num_colors) := cn in
                 voronoi_draw b a (List.map (List.map xy_of) (polytopes v)) None cm
                   colors num_colors)
                (fun r cs =>
                   r = a /\
                   exists perm pc rest lo hi,
                     cs = AddCollection pc :: rest /\
                     Permutation perm (seq 0 n) /\
                     pc_array pc = List.map (fun c => qnat c - (1 # 2))%Q perm /\
                     List.NoDup perm /\
                     pc_cmap pc =
                       Some {| cmap_name := Some (default "tab20" cm);
                               cmap_lut := Some (qnat n) |} /\
                     pc_clim pc = Some (lo, hi) /\
                     (lo == - (1 # 2))%Q /\ (hi == qnat n - (1 # 2))%Q)).
  { unfold voronoi_colors.
    apply (runs_bind _ _ _ _ (fun cn cs =>
             cs = [] /\ exists perm, Permutation perm (seq 0 n) /\
             cn = (List.map qnat perm, Some (qnat n)))).
    - eapply runs_bind; [apply runs_random_permutation|]. intros perm cs1 [P ->].
      apply runs_ret.
      split; [reflexivity|]. exists perm. split; [exact P|].
      now rewrite (unique_size_permutation perm n P).
    - intros cn cs1 (-> & perm & P & ->).
      destruct perm as [|x l].
      { apply Permutation_length in P. rewrite length_seq in P.
        unfold n in P. destruct (polytopes v); [congruence|discriminate]. }
      cbn [List.map].
      eapply runs_weaken; [apply runs_voronoi_draw_uncolored|].
      intros r cs (-> & rest & ->). split; [reflexivity|].
      destruct (permutation_range_extremes x l n P) as (Emin & Emax & N).
      exists (x :: l). do 4 eexists. split; [reflexivity|].
      split; [exact P|]. split.
      { cbn [voronoi_collection pc_array]. cbn [List.map]. f_equal.
        now rewrite List.map_map. }
      split.
      { apply (Permutation_NoDup (Permutation_sym P)). apply List.seq_NoDup. }
      split.
      { cbn [voronoi_collection pc_cmap]. unfold chosen_cmap.
        destruct cm; reflexivity. }
      split; [reflexivity|].
      rewrite min_list_qnat, max_list_qnat, Emin, Emax.
      assert (Eh : (qnat (n - 1) + 1 == qnat O + inject_Z (Z.of_nat n))%Q).
      { unfold qnat. change 1%Q with (inject_Z 1). rewrite <- !inject_Z_plus.
        replace (Z.of_nat (n - 1) + 1) with (Z.of_nat O + Z.of_nat n) by lia.
        reflexivity. }
      assert (Ea : arange (qnat O) (qnat (n - 1) + 1) =
                   arange (qnat O) (qnat O + inject_Z (Z.of_nat n))).
      { unfold arange. f_equal. f_equal. f_equal. apply Qceiling_comp.
        now rewrite Eh. }
      rewrite Ea.
      destruct (arange_unit_steps (qnat O) n N) as (_ & Hh & Hl).
      cbv zeta in Hh, Hl. rewrite Hh, Hl. unfold qnat. simpl inject_Z. split; ring. }
  destruct (R w cs0 At) as (r & w' & cs & E & At' & -> & perm & pc & rest & lo & hi
                            & -> & H).
  exists w', perm, pc, rest, lo, hi. split; [exact E|]. split; [exact At'|]. exact H.
Qed.

Lemma voronoi_plot_random_colors_distinct_witness :
  polytopes two_cells <> [] /\
  at_axes Rectilinear O [] world_2d /\
  exists w' perm pc rest lo hi,
    voronoi_plot two_cells (ortho_box true 2 2 0) (Some O) None None world_2d =
      (Return O, w') /\
    at_axes Rectilinear O ([] ++ AddCollection pc :: rest)%list w' /\
    Permutation perm (seq 0 2) /\
    pc_array pc = List.map (fun c => qnat c - (1 # 2))%Q perm /\
    List.NoDup perm /\
    pc_cmap pc =
      Some {| cmap_name := Some "tab20"; cmap_lut := Some (qnat 2) |} /\
    pc_clim pc = Some (lo, hi) /\
    (lo == - (1 # 2))%Q /\ (hi == qnat 2 - (1 # 2))%Q.
Proof.
  assert (At : at_axes Rectilinear O [] world_2d)
    by (eexists; repeat split; reflexivity).
  assert (Ne : polytopes two_cells <> []) by discriminate.
  split; [exact Ne|]. split; [exact At|].
  exact (voronoi_plot_random_colors_distinct two_cells (ortho_box true 2 2 0) O None
           world_2d Rectilinear [] Ne At).
Defined.

(** ** A tessellation without cells *)

Lemma fails_np_ptp p a (Post : exn -> list Call -> Prop) :
  Post (zero_size "maximum") [] -> fails p a (np_ptp []) Post.
Proof. intros H. unfold np_ptp. now apply fails_raise. Qed.

Lemma fails_weaken {X} p a (c : M X) (P Q : exn -> list Call -> Prop) :
  fails p a c P -> (forall e cs, P e cs -> Q e cs) -> fails p a c Q.
Proof.
  intros H PQ w cs0 At. destruct (H w cs0 At) as (e & w' & cs & E & At' & Pe).
  exists e, w', cs. auto.
Qed.

Lemma fails_voronoi_draw_empty p a box patches cb cm num :
  fails p a (voronoi_draw box a patches cb cm [] num)
    (fun e cs => (exists msg, e = ValueError msg) /\ cs = []).
Proof.
  unfold voronoi_draw.
  eapply fails_bind_later; [apply runs_voronoi_cmap|]. intros c cs1 [-> ->].
  apply fails_bind_now. apply fails_np_min. split; [now eexists|reflexivity].
Qed.

(** X9. For a tessellation without cells, [voronoi_plot] with any of the
    three valid colouring modes raises a [ValueError] (of the numpy
    reduction over the empty colour array) and adds nothing to a supplied
    axes object. *)
Theorem voronoi_plot_no_cells v b a cb cm w p cs0 :
  polytopes v = [] -> volumes v = [] ->
  cb = Some "sides" \/ cb = Some "area" \/ cb = None ->
  at_axes p a cs0 w ->
  exists msg w',
    voronoi_plot v b (Some a) cb cm w = (Raise (ValueError msg), w') /\
    at_axes p a cs0 w'.
Proof.
  intros Hp Hv Hcb At.
  assert (F : fails p a (voronoi_plot v b (Some a) cb cm)
                (fun e cs => (exists msg, e = ValueError msg) /\ cs = [])).
  { unfold voronoi_plot. cbn [ax_or_new]. rewrite bind_ret_l. cbv zeta.
    rewrite Hp. cbn [List.map length].
    destruct Hcb as [-> | [-> | ->]]; unfold voronoi_colors;
      cbn [String.eqb Ascii.eqb Bool.eqb].
    - rewrite Hp. cbn [List.map]. do 2 apply fails_bind_now.
      apply fails_np_ptp. split; [now eexists|reflexivity].
    - rewrite Hv. rewrite bind_ret_l. apply fails_voronoi_draw_empty.
    - apply (fails_bind_later _ _ _ _
               (fun (cn : list Q * option Q) cs => cs = [] /\ fst cn = [])).
      + eapply runs_bind; [apply runs_random_permutation|]. intros perm cs1 [P ->].
        apply runs_ret.
        split; [reflexivity|]. apply Permutation_sym, Permutation_nil in P.
        now subst perm.
      + intros [colors num] cs1 [-> Hc]. simpl in Hc. subst colors.
        apply fails_voronoi_draw_empty. }
  destruct (F w cs0 At) as (e & w' & cs & E & At' & [msg ->] & ->).
  exists msg, w'. split; [exact E|]. now rewrite app_nil_r in At'.
Qed.

Lemma voronoi_plot_no_cells_witness :
  polytopes no_cells = [] /\ volumes no_cells = [] /\
  (Some "sides" = Some "sides" \/ Some "sides" = Some "area" \/
   Some "sides" = @None string) /\
  at_axes Rectilinear O [] world_2d /\
  exists msg w',
    voronoi_plot no_cells (ortho_box true 2 2 0) (Some O) (Some "sides") None
      world_2d = (Raise (ValueError msg), w') /\
    at_axes Rectilinear O [] w'.
Proof.
  assert (At : at_axes Rectilinear O [] world_2d)
    by (eexists; repeat split; reflexivity).
  split; [reflexivity|]. split; [reflexivity|].
  split; [now left|]. split; [exact At|].
  exact (voronoi_plot_no_cells no_cells (ortho_box true 2 2 0) O (Some "sides") None
           world_2d Rectilinear [] eq_refl eq_refl (or_introl eq_refl) At).
Defined.

(** ** The outline drawn by [box_plot] for a 2D box *)

(** X10. For a 2D box, [box_plot] draws one line through five points, the
    last of which is the first again (the outline is closed), in the
    colour given by the [color] keyword (black without it); the other
    arguments are passed on, with [color] removed from the keywords.  It
    then sets the aspect and the two axis labels, and no title. *)
Theorem box_plot_2d_closed_outline gl b t a im args kw w p cs0 :
  is2D b = true ->
  at_axes p a cs0 w ->
  exists w' xs ys,
    box_plot gl b t (Some a) im args kw w = (Return a, w') /\
    at_axes p a
      (cs0 ++
       [Plot (vnums xs) (vnums ys) (Some (color_or_black kw)) args
          (kwargs_del "color" kw);
        SetAspect "equal" "datalim";
        SetLabel AxX (Some "$x$"); SetLabel AxY (Some "$y$")])%list w' /\
    length xs = 5%nat /\ length ys = 5%nat /\
    nth 4 xs 0%Q = nth 0 xs 0%Q /\ nth 4 ys 0%Q = nth 0 ys 0%Q /\
    kwargs_get "color" (kwargs_del "color" kw) = None.
Proof.
  intros E At.
  assert (R : runs p a (box_plot gl b t (Some a) im args kw)
                (fun r cs =>
                   r = a /\
                   exists xs ys,
                     cs = [Plot (vnums xs) (vnums ys) (Some (color_or_black kw)) args
                             (kwargs_del "color" kw);
                           SetAspect "equal" "datalim";
                           SetLabel AxX (Some "$x$"); SetLabel AxY (Some "$y$")] /\
                     length xs = 5%nat /\ length ys = 5%nat /\
                     nth 4 xs 0%Q = nth 0 xs 0%Q /\ nth 4 ys 0%Q = nth 0 ys 0%Q)).
  { unfold box_plot. rewrite E. cbv zeta. cbn [ax_or_new_for]. rewrite bind_ret_l.
    unfold kwargs_pop. fold (color_or_black kw).
    apply (runs_bind _ _ _ _
             (fun _ cs =>
                exists xs ys,
                  cs = [Plot (vnums xs) (vnums ys) (Some (color_or_black kw)) args
                          (kwargs_del "color" kw);
                        SetAspect "equal" "datalim";
                        SetLabel AxX (Some "$x$"); SetLabel AxY (Some "$y$")] /\
                  length xs = 5%nat /\ length ys = 5%nat /\
                  nth 4 xs 0%Q = nth 0 xs 0%Q /\ nth 4 ys 0%Q = nth 0 ys 0%Q)).
    - repeat runs_step.
      eapply runs_weaken; [apply runs_ax_call_eq|]. intros _ cs ->.
      do 2 eexists. split; [reflexivity|].
      cbn [square_corners List.map length nth]. repeat split; reflexivity.
    - intros _ cs1 H. apply runs_ret. rewrite app_nil_r. now split. }
  destruct (R w cs0 At) as (r & w' & cs & Er & At' & -> & xs & ys & -> & H).
  exists w', xs, ys. split; [exact Er|]. split; [exact At'|].
  destruct H as (H1 & H2 & H3 & H4). repeat split; try assumption.
  apply kwargs_get_del.
Qed.

Lemma box_plot_2d_closed_outline_witness :
  is2D (ortho_box true 2 3 0) = true /\
  at_axes Rectilinear O [] world_2d /\
  exists w' xs ys,
    box_plot no_lim3d (ortho_box true 2 3 0) None (Some O) None ["--"]
      [("color", "r"); ("lw", "2")] world_2d = (Return O, w') /\
    at_axes Rectilinear O
      ([] ++
       [Plot (vnums xs) (vnums ys)
          (Some (color_or_black [("color", "r"); ("lw", "2")])) ["--"]
          (kwargs_del "color" [("color", "r"); ("lw", "2")]);
        SetAspect "equal" "datalim";
        SetLabel AxX (Some "$x$"); SetLabel AxY (Some "$y$")])%list w' /\
    length xs = 5%nat /\ length ys = 5%nat /\
    nth 4 xs 0%Q = nth 0 xs 0%Q /\ nth 4 ys 0%Q = nth 0 ys 0%Q /\
    kwargs_get "color" (kwargs_del "color" [("color", "r"); ("lw", "2")]) = None.
Proof.
  assert (At : at_axes Rectilinear O [] world_2d)
    by (eexists; repeat split; reflexivity).
  split; [reflexivity|]. split; [exact At|].
  exact (box_plot_2d_closed_outline no_lim3d (ortho_box true 2 3 0) None O None ["--"]
           [("color", "r"); ("lw", "2")] world_2d Rectilinear [] eq_refl At).
Defined.

(** ** The image drawn by [density_plot] *)

Lemma runs_append_axes p a pos size pad :
  runs p a (append_axes a pos size pad)
    (fun cax cs => cs = [AppendAxes pos size pad cax] /\ cax <> a).
Proof.
  intros w cs0 At. pose proof At as (A & HA & P & C).
  unfold append_axes. rewrite bind_run. cbn [get_world]. rewrite HA.
  rewrite bind_run. unfold new_axes at 1. cbv iota beta zeta.
  rewrite bind_run. cbn [ax_call modify]. cbv iota beta.
  eexists. eexists. eexists. split; [reflexivity|]. split.
  - apply at_axes_log. exists A. simpl. split; [|auto].
    now apply lookup_app_l_Some.
  - split; [reflexivity|]. apply lookup_lt_Some in HA. lia.
Qed.

Lemma runs_ax_imshow p a im :
  runs p a (ax_imshow a im) (fun im' cs => im' = im /\ cs = [Imshow im]).
Proof.
  unfold ax_imshow. eapply runs_bind; [apply runs_ax_call_eq|]. intros _ cs ->.
  now apply runs_ret.
Qed.

Lemma runs_colorbar_other p a cax m l :
  cax <> a -> runs p a (colorbar cax m l) (fun _ cs => cs = []).
Proof.
  intros ne. unfold colorbar.
  eapply runs_bind; [now apply (runs_ax_call_other p a cax _ (fun _ cs => cs = []))|].
  intros _ cs ->. now apply runs_ax_call_other.
Qed.

(** Entry [(i, j)] of [np.flipud(density.T)]: the image has one row per
    column of [density], last column first. *)
Lemma flipud_transpose_entry (m : list (list Q)) i j :
  (i < length (hd [] m))%nat -> (j < length m)%nat ->
  nth j (nth i (fins (flipud (transpose m))) []) NaN =
  Fin (nth (length (hd [] m) - 1 - i) (nth j m []) 0%Q).
Proof.
  intros Hi Hj. unfold fins, flipud, transpose.
  set (n := length (hd [] m)) in *.
  rewrite <- List.map_rev, List.map_map.
  set (g := fun j0 : nat => List.map Fin (List.map (fun row : list Q => nth j0 row 0%Q) m)).
  rewrite (nth_indep _ [] (g O)) by (rewrite length_map, length_rev, length_seq; lia).
  rewrite List.map_nth.
  rewrite rev_nth by (rewrite length_seq; lia).
  rewrite length_seq, seq_nth by lia.
  replace (0 + (n - S i))%nat with (n - 1 - i)%nat by lia.
  unfold g. rewrite List.map_map.
  rewrite (nth_indep _ NaN ((fun row : list Q => Fin (nth (n - 1 - i) row 0%Q)) []))
    by now rewrite length_map.
  exact (List.map_nth (fun row : list Q => Fin (nth (n - 1 - i) row 0%Q)) m [] j).
Qed.

(** X11. [density_plot] on a supplied axes object sets title and labels,
    adds the colour-bar axes and draws one image.  The image spans
    [-Lx/2, Lx/2] by [-Ly/2, Ly/2]; its row [i] shows column
    [ncols - 1 - i] of the density array and its column [j] shows row [j]:
    the first array index runs along x, the second runs upwards along y. *)
Theorem density_plot_orientation d b a w p cs0 :
  at_axes p a cs0 w ->
  exists w' cax im,
    density_plot d b (Some a) w = (Return a, w') /\
    at_axes p a
      (cs0 ++
       [SetTitle (Some "Gaussian Density");
        SetLabel AxX (Some "$x$"); SetLabel AxY (Some "$y$");
        AppendAxes "right" "7%" "10%" cax; Imshow im])%list w' /\
    im_extent im = Some (- Lx b / 2, Lx b / 2, - Ly b / 2, Ly b / 2)%Q /\
    forall i j, (i < length (hd [] d))%nat -> (j < length d)%nat ->
      nth j (nth i (im_data im) []) NaN =
      Fin (nth (length (hd [] d) - 1 - i) (nth j d []) 0%Q).
Proof.
  intros At.
  assert (R : runs p a (density_plot d b (Some a))
                (fun r cs =>
                   r = a /\
                   exists cax,
                     cs = [SetTitle (Some "Gaussian Density");
                           SetLabel AxX (Some "$x$"); SetLabel AxY (Some "$y$");
                           AppendAxes "right" "7%" "10%" cax;
                           Imshow
                             {| im_data := fins (flipud (transpose d));
                                im_extent :=
                                  Some (- Lx b / 2, Lx b / 2, - Ly b / 2, Ly b / 2)%Q;
                                im_interpolation := None; im_cmap := None;
                                im_vmin := None; im_vmax := None;
                                im_lognorm := None |}])).
  { unfold density_plot. cbn [ax_or_new]. rewrite bind_ret_l. cbv zeta.
    repeat runs_step.
    eapply runs_bind; [apply runs_append_axes|]. intros cax cs1 [-> ne].
    eapply runs_bind; [apply runs_ax_imshow|]. intros im cs2 [-> ->].
    eapply runs_bind; [now apply runs_colorbar_other|]. intros _ cs3 ->.
    apply runs_ret. split; [reflexivity|]. exists cax. reflexivity. }
  destruct (R w cs0 At) as (r & w' & cs & E & At' & -> & cax & ->).
  exists w', cax. eexists. split; [exact E|]. split; [exact At'|].
  split; [reflexivity|]. intros i j Hi Hj. now apply flipud_transpose_entry.
Qed.

Lemma density_plot_orientation_witness :
  let d := [[1; 2; 3]; [4; 5; 6]]%Q in
  at_axes Rectilinear O [] world_2d /\
  exists w' cax im,
    density_plot d (ortho_box true 2 3 0) (Some O) world_2d = (Return O, w') /\
    at_axes Rectilinear O
      ([] ++
       [SetTitle (Some "Gaussian Density");
        SetLabel AxX (Some "$x$"); SetLabel AxY (Some "$y$");
        AppendAxes "right" "7%" "10%" cax; Imshow im])%list w' /\
    im_extent im =
      Some (- Lx (ortho_box true 2 3 0) / 2, Lx (ortho_box true 2 3 0) / 2,
            - Ly (ortho_box true 2 3 0) / 2, Ly (ortho_box true 2 3 0) / 2)%Q /\
    forall i j, (i < length (hd [] d))%nat -> (j < length d)%nat ->
      nth j (nth i (im_data im) []) NaN =
      Fin (nth (length (hd [] d) - 1 - i) (nth j d []) 0%Q).
Proof.
  assert (At : at_axes Rectilinear O [] world_2d)
    by (eexists; repeat split; reflexivity).
  split; [exact At|].
  exact (density_plot_orientation [[1; 2; 3]; [4; 5; 6]]%Q (ortho_box true 2 3 0) O
           world_2d Rectilinear [] At).
Defined.

(** ** The ticks set by [pmft_plot] *)

Lemma int_of_nonneg q : (0 <= q)%Q -> int_of q = Qfloor q.
Proof.
  destruct q as [n d]. unfold int_of, Qfloor, Qle. simpl. intros H.
  apply Z.quot_div_nonneg; lia.
Qed.

Lemma int_of_nonpos q : (q <= 0)%Q -> int_of q = Qceiling q.
Proof.
  destruct q as [n d]. unfold int_of, Qceiling, Qfloor, Qopp, Qle. simpl. intros H.
  rewrite <- (Z.opp_involutive n) at 1. rewrite Z.quot_opp_l by lia.
  f_equal. apply Z.quot_div_nonneg; lia.
Qed.

Lemma in_zrange a b t : In t (zrange a b) <-> a <= t < b.
Proof.
  unfold zrange. rewrite List.in_map_iff. split.
  - intros (i & <- & Hi). apply in_seq in Hi. lia.
  - intros H. exists (Z.to_nat (t - a)). split; [lia|]. apply in_seq. lia.
Qed.

(** For limits that straddle zero, the ticks are the integers within the
    limits. *)
Lemma ticks_are_the_integers_within x0 x1 t :
  (x0 <= 0)%Q -> (0 <= x1)%Q ->
  In t (zrange (int_of x0) (int_of (x1 + 1))) <->
  (x0 <= inject_Z t /\ inject_Z t <= x1)%Q.
Proof.
  intros H0 H1. rewrite in_zrange.
  rewrite (int_of_nonpos x0 H0).
  assert (H1' : (0 <= x1 + 1)%Q) by lra.
  rewrite (int_of_nonneg _ H1'). split.
  - intros [Ha Hb]. split.
    + eapply Qle_trans; [apply Qle_ceiling|]. now rewrite <- Zle_Qle.
    + assert (B : (inject_Z (t + 1) <= x1 + 1)%Q).
      { eapply Qle_trans; [|apply Qfloor_le]. rewrite <- Zle_Qle. lia. }
      rewrite inject_Z_plus in B. change (inject_Z 1) with 1%Q in B. lra.
  - intros [Ha Hb]. split.
    + rewrite <- (Qceiling_Z t). now apply Qceiling_resp_le.
    + assert (B : t + 1 <= Qfloor (x1 + 1)).
      { rewrite <- (Qfloor_Z (t + 1)). apply Qfloor_resp_le.
        rewrite inject_Z_plus. change (inject_Z 1) with 1%Q. lra. }
      lia.
Qed.

Lemma runs_np_copy p a r : runs p a (np_copy r) (fun _ cs => cs = []).
Proof.
  intros w cs0 At. eexists _, _, []. rewrite app_nil_r.
  split; [reflexivity|]. split; [|reflexivity].
  now apply (at_axes_same_axes p a cs0 w).
Qed.

Lemma runs_assign_nan p a r : runs p a (assign_nan_where_inf r) (fun _ cs => cs = []).
Proof.
  intros w cs0 At. eexists tt, _, []. rewrite app_nil_r.
  split; [reflexivity|]. split; [|reflexivity].
  now apply (at_axes_same_axes p a cs0 w).
Qed.

Lemma runs_read_array p a r : runs p a (read_array r) (fun _ cs => cs = []).
Proof.
  intros w cs0 At. eexists _, w, []. rewrite app_nil_r.
  split; [reflexivity|]. split; [exact At|reflexivity].
Qed.



(** For these bounds the ticks are -2, ..., 2 on both axes. *)
Example pmft_plot_ticks_example :
  zrange (int_of (- (5 # 2))) (int_of ((5 # 2) + 1)) = [-2; -1; 0; 1; 2].
Proof. reflexivity. Qed.

(** ** The figure after [_ax_to_bytes] *)

Lemma clear_axes_members_in (members : list nat) (xs : list Axes) (b : nat) :
  In b members ->
  fold_right (fun a xs => alter clear_axes a xs) xs members !! b =
  clear_axes <$> xs !! b.
Proof.
  induction members as [|m ms IH]; [intros []|]. intros H. cbn [fold_right].
  destruct (decide (m = b)) as [->|ne].
  - rewrite list_lookup_alter_eq.
    destruct (in_dec Nat.eq_dec b ms) as [Hin|Hout].
    + rewrite (IH Hin). now destruct (xs !! b).
    + assert (E : fold_right (fun a xs => alter clear_axes a xs) xs ms !! b = xs !! b).
      { clear IH H. induction ms as [|m' ms IH]; [reflexivity|]. cbn [fold_right].
        rewrite list_lookup_alter_ne.
        - apply IH. intros Hin. apply Hout. now right.
        - intros ->. apply Hout. now left. }
      now rewrite E.
  - rewrite list_lookup_alter_ne by exact ne. apply IH.
    destruct H as [->|H]; [congruence|exact H].
Qed.

Lemma clear_axes_members_out (members : list nat) (xs : list Axes) (b : nat) :
  ~ In b members ->
  fold_right (fun a xs => alter clear_axes a xs) xs members !! b = xs !! b.
Proof.
  induction members as [|m ms IH]; [reflexivity|]. intros H. cbn [fold_right].
  rewrite list_lookup_alter_ne.
  - apply IH. intros Hin. apply H. now right.
  - intros ->. apply H. now left.
Qed.

(** The store [_ax_to_bytes] leaves behind. *)
Lemma ax_to_bytes_world render ax w A F :
  axes w !! ax = Some A ->
  figures w !! ax_figure A = Some F ->
  exists bufs,
    snd (_ax_to_bytes render ax w) =
    set_figures
      (alter clear_figure (ax_figure A)
         (alter (set_canvas AggCanvas) (ax_figure A) (figures w)))
      (set_axes
         (fold_right (fun a xs => alter clear_axes a xs) (axes w) (fig_axes F))
         (set_buffers bufs w)).
Proof.
  intros HA HF. unfold _ax_to_bytes.
  rewrite bind_run. unfold new_bytesio at 1. cbv iota beta.
  rewrite bind_run. unfold ax_get_figure at 1. simpl axes. rewrite HA.
  rewrite bind_run. unfold FigureCanvasAgg at 1, modify. cbv iota beta.
  rewrite bind_run. unfold savefig at 1. cbv iota beta zeta.
  rewrite bind_run. unfold fig_clf at 1. cbv iota beta zeta.
  unfold getvalue. cbn [snd]. simpl figures. simpl axes.
  rewrite list_lookup_alter_eq, HF. simpl fig_axes.
  eexists. reflexivity.
Qed.

(** X13. [_ax_to_bytes] clears the figure it has rendered: afterwards the
    figure carries an Agg canvas and has no axes, the log of every axes
    object that belonged to it, the one passed in included, is empty, and
    the axes objects of other figures are as they were. *)
Theorem ax_to_bytes_clears_figure render ax w A F :
  axes w !! ax = Some A ->
  figures w !! ax_figure A = Some F ->
  In ax (fig_axes F) ->
  calls_of (snd (_ax_to_bytes render ax w)) ax = [] /\
  figure_axes (snd (_ax_to_bytes render ax w)) (ax_figure A) = [] /\
  figure_canvas (snd (_ax_to_bytes render ax w)) (ax_figure A) = AggCanvas /\
  (forall b, In b (fig_axes F) -> calls_of (snd (_ax_to_bytes render ax w)) b = []) /\
  (forall b, ~ In b (fig_axes F) ->
     axes (snd (_ax_to_bytes render ax w)) !! b = axes w !! b).
Proof.
  intros HA HF Hin.
  destruct (ax_to_bytes_world render ax w A F HA HF) as [bufs ->].
  assert (C : forall b, In b (fig_axes F) ->
            calls_of
              (set_figures
                 (alter clear_figure (ax_figure A)
                    (alter (set_canvas AggCanvas) (ax_figure A) (figures w)))
                 (set_axes
                    (fold_right (fun a xs => alter clear_axes a xs) (axes w) (fig_axes F))
                    (set_buffers bufs w))) b = []).
  { intros b Hb. unfold calls_of. simpl axes.
    rewrite (clear_axes_members_in _ _ _ Hb). now destruct (axes w !! b). }
  split; [now apply C|]. split.
  { unfold figure_axes. simpl figures.
    rewrite !list_lookup_alter_eq, HF. reflexivity. }
  split.
  { unfold figure_canvas. simpl figures.
    rewrite !list_lookup_alter_eq, HF. reflexivity. }
  split; [exact C|].
  intros b Hb. simpl axes. now apply clear_axes_members_out.
Qed.

Lemma ax_to_bytes_clears_figure_witness :
  let A := {| ax_figure := O; ax_projection := Rectilinear; ax_calls := [] |} in
  let F := {| fig_axes := [O]; fig_canvas := DefaultCanvas |} in
  let w' := snd (_ax_to_bytes toy_render O
                   (snd (bar_plot [VInt 1] [VInt 2] None None None (Some O) world_2d))) in
  In O (fig_axes F) /\
  calls_of (snd (bar_plot [VInt 1] [VInt 2] None None None (Some O) world_2d)) O <> [] /\
  calls_of w' O = [] /\
  figure_axes w' O = [] /\
  figure_canvas w' O = AggCanvas.
Proof.
  pose proof (ax_to_bytes_clears_figure toy_render O
                (snd (bar_plot [VInt 1] [VInt 2] None None None (Some O) world_2d))
                _ {| fig_axes := [O]; fig_canvas := DefaultCanvas |}
                eq_refl eq_refl (or_introl eq_refl)) as (H1 & H2 & H3 & _).
  split; [now left|]. split; [discriminate|].
  split; [exact H1|]. split; [exact H2|exact H3].
Defined.

(** ** Colouring the cells by their number of sides *)

Lemma runs_voronoi_draw_colored p a box patches c cm x l num :
  runs p a (voronoi_draw box a patches (Some c) cm (x :: l) num)
    (fun r cs =>
       r = a /\
       exists rest,
         cs = AddCollection
                (voronoi_collection patches (x :: l) (chosen_cmap cm (Some c) num) num
                   (min_list x l) (max_list x l)) :: rest).
Proof.
  unfold voronoi_draw.
  eapply runs_bind; [apply runs_voronoi_cmap|]. intros c0 cs1 [-> ->].
  cbn [np_min np_max]. rewrite !bind_ret_l. cbv zeta.
  eapply runs_bind; [apply runs_ax_call_eq|]. intros _ cs1 ->.
  cbn [List.map square_corners np_min np_max].
  repeat first [ runs_step | rewrite bind_ret_l ].
  apply (runs_bind _ _ _ _ (fun _ cs => exists k, cs = [k])).
  - eapply runs_bind; [apply runs_append_axes|]. intros cax cs1 [-> ne].
    eapply runs_bind; [now apply runs_colorbar_other|]. intros _ cs2 ->.
    apply runs_ax_call_other; [exact ne|]. now eexists.
  - intros _ cs1 [k ->]. apply runs_ret. split; [reflexivity|].
    eexists. reflexivity.
Qed.

(** X14. Colouring by sides, for a tessellation with at least one cell,
    [voronoi_plot] on a supplied axes object succeeds and first adds the
    patch collection: the colour value of a cell is its number of sides
    less one half, the colour limits are the least number of sides less
    one half and the greatest plus one half, and the colormap has one entry
    per integer from the least to the greatest number of sides; without a
    colormap of the caller's it is ["tab10"] for at most ten entries and
    ["tab20"] otherwise. *)
Theorem voronoi_plot_sides_buckets v b a cm w p cs0 s ss :
  side_counts v = s :: ss ->
  at_axes p a cs0 w ->
  let least := fold_left Nat.min ss s in
  let greatest := fold_left Nat.max ss s in
  exists w' pc rest lut lo hi,
    voronoi_plot v b (Some a) (Some "sides") cm w = (Return a, w') /\
    at_axes p a (cs0 ++ AddCollection pc :: rest)%list w' /\
    pc_array pc = List.map (fun k => qnat k - (1 # 2))%Q (side_counts v) /\
    pc_cmap pc =
      Some {| cmap_name :=
                Some (match cm with
                      | Some c => c
                      | None => if (greatest - least + 1 <=? 10)%nat
                                then "tab10" else "tab20"
                      end);
              cmap_lut := Some lut |} /\
    (lut == qnat (greatest - least + 1))%Q /\
    pc_clim pc = Some (lo, hi) /\
    (lo == qnat least - (1 # 2))%Q /\ (hi == qnat greatest + (1 # 2))%Q.
Proof.
  intros Hs At least greatest.
  assert (L : (least <= greatest)%nat).
  { destruct (fold_min_spec ss s) as [_ m], (fold_max_spec ss s) as [_ M].
    etransitivity; [apply m|apply M]; now left. }
  assert (Ec : List.map (fun poly => qnat (length poly)) (polytopes v) =
               qnat s :: List.map qnat ss).
  { unfold side_counts in Hs. change (qnat s :: List.map qnat ss) with (List.map qnat (s :: ss)).
    rewrite <- Hs, List.map_map. reflexivity. }
  assert (R : runs p a (voronoi_plot v b (Some a) (Some "sides") cm)
                (fun r cs =>
                   r = a /\
                   exists rest,
                     cs = AddCollection
                            (voronoi_collection
                               (List.map (List.map xy_of) (polytopes v))
                               (qnat s :: List.map qnat ss)
                               (chosen_cmap cm (Some "sides")
                                  (Some (qnat greatest - qnat least + 1)%Q))
                               (Some (qnat greatest - qnat least + 1)%Q)
                               (qnat least) (qnat greatest)) :: rest)).
  { unfold voronoi_plot. cbn [ax_or_new]. rewrite bind_ret_l. cbv zeta.
    unfold voronoi_colors. cbn [String.eqb Ascii.eqb Bool.eqb].
    rewrite Ec. cbn [np_ptp]. rewrite !bind_ret_l.
    rewrite max_list_qnat, min_list_qnat. fold least. fold greatest.
    eapply runs_weaken; [apply runs_voronoi_draw_colored|].
    intros r cs (-> & rest & ->). split; [reflexivity|]. exists rest.
    now rewrite max_list_qnat, min_list_qnat. }
  destruct (R w cs0 At) as (r & w' & cs & E & At' & -> & rest & ->).
  exists w'. do 5 eexists. split; [exact E|]. split; [exact At'|].
  split.
  { cbn [voronoi_collection pc_array]. rewrite Hs.
    change (qnat s :: List.map qnat ss) with (List.map qnat (s :: ss)).
    now rewrite List.map_map. }
  split.
  { cbn [voronoi_collection pc_cmap]. unfold chosen_cmap.
    destruct cm as [c|]; [reflexivity|].
    cbn [is_continuous continuous_colorby_options existsb String.eqb Ascii.eqb
           Bool.eqb orb default andb]. unfold id.
    change 10%Q with (inject_Z (Z.of_nat 10)). rewrite (Qle_bool_span _ _ _ L).
    fold least greatest. now destruct (greatest - least + 1 <=? 10)%nat. }
  split; [now apply qnat_span|].
  split; [reflexivity|].
  assert (Eh : (qnat greatest + 1 ==
                qnat least + inject_Z (Z.of_nat (greatest - least + 1)))%Q).
  { unfold qnat. change 1%Q with (inject_Z 1). rewrite <- !inject_Z_plus.
    replace (Z.of_nat greatest + 1)
      with (Z.of_nat least + Z.of_nat (greatest - least + 1)) by lia.
    reflexivity. }
  assert (Ea : arange (qnat least) (qnat greatest + 1) =
               arange (qnat least)
                 (qnat least + inject_Z (Z.of_nat (greatest - least + 1)))).
  { unfold arange. f_equal. f_equal. f_equal. apply Qceiling_comp. now rewrite Eh. }
  rewrite Ea.
  destruct (arange_unit_steps (qnat least) (greatest - least + 1)) as (_ & Hh & Hl);
    [lia|].
  cbv zeta in Hh, Hl. rewrite Hh, Hl. rewrite <- Eh. split; ring.
Qed.

Lemma voronoi_plot_sides_buckets_witness :
  side_counts three_cells = [3; 6; 4]%nat /\
  at_axes Rectilinear O [] world_2d /\
  exists w' pc rest lut lo hi,
    voronoi_plot three_cells (ortho_box true 2 2 0) (Some O) (Some "sides") None
      world_2d = (Return O, w') /\
    at_axes Rectilinear O ([] ++ AddCollection pc :: rest)%list w' /\
    pc_array pc = List.map (fun k => qnat k - (1 # 2))%Q (side_counts three_cells) /\
    pc_cmap pc = Some {| cmap_name := Some "tab10"; cmap_lut := Some lut |} /\
    (lut == qnat 4)%Q /\
    pc_clim pc = Some (lo, hi) /\
    (lo == qnat 3 - (1 # 2))%Q /\ (hi == qnat 6 + (1 # 2))%Q.
Proof.
  assert (At : at_axes Rectilinear O [] world_2d)
    by (eexists; repeat split; reflexivity).
  split; [reflexivity|]. split; [exact At|].
  exact (voronoi_plot_sides_buckets three_cells (ortho_box true 2 2 0) O None world_2d
           Rectilinear [] 3%nat [6; 4]%nat eq_refl At).
Defined.
